(** * RouteGlyph route engine: graph model, scoring, shortest-path search
      and coverage optimizer, embedded from packages/route-engine/src.

    JavaScript [number]s that carry measurements (coordinates, lengths,
    costs) are modelled as real numbers; [Math.floor] and [Math.round]
    return integers; array lengths are naturals.  A JavaScript [Map] is an
    insertion-ordered association list.  Loops that the source does not
    bound ([while (open.length > 0)], [while (currentKey)]) take fuel. *)

From Stdlib Require Import Reals Lra Lia ZArith String Ascii List Bool DecimalString.
From Stdlib Require Import Permutation Sorted DecimalZ DecimalPos.
Import ListNotations.

Local Open Scope string_scope.
Local Open Scope R_scope.
Local Open Scope list_scope.

(* ================================================================== *)
(** ** JavaScript primitives used by the engine *)

Module Js.

(** [a < b], [a <= b] and [a === b] on numbers. *)
Definition ltb (a b : R) : bool := if Rlt_dec a b then true else false.
Definition leb (a b : R) : bool := if Rle_dec a b then true else false.
Definition eqb (a b : R) : bool := if Req_dec_T a b then true else false.

(** [Math.floor] and [Math.round] (halves round towards +infinity). *)
Definition floor (x : R) : Z := Int_part x.
Definition round (x : R) : Z := Int_part (x + 1 / 2).

(** Truthiness of a string: only the empty string is falsy; of a
    number: only zero is. *)
Definition truthy (s : string) : bool := negb (String.eqb s "").
Definition truthyNumber (x : R) : bool := negb (eqb x 0).

(** [Map<string, V>]: keys in insertion order; [set] on a present key
    replaces the value in place, on an absent key appends the entry. *)
Definition Map (V : Type) : Type := list (string * V).

Fixpoint get {V : Type} (m : Map V) (k : string) : option V :=
  match m with
  | [] => None
  | (k', v) :: m' => if String.eqb k' k then Some v else get m' k
  end.

Fixpoint set {V : Type} (m : Map V) (k : string) (v : V) : Map V :=
  match m with
  | [] => [(k, v)]
  | (k', v') :: m' =>
      if String.eqb k' k then (k', v) :: m' else (k', v') :: set m' k v
  end.

Definition values {V : Type} (m : Map V) : list V := map snd m.
Definition keys {V : Type} (m : Map V) : list string := map fst m.

(** [new Map(entries)]. *)
Definition ofEntries {V : Type} (entries : list (string * V)) : Map V :=
  fold_left (fun m kv => set m (fst kv) (snd kv)) entries [].

(** [array.sort(cmp)] for a comparator that returns a number: the stable
    ascending order, an element moving behind another only when the
    comparator is positive. *)
Fixpoint insertBy {A : Type} (cmp : A -> A -> R) (x : A) (l : list A) : list A :=
  match l with
  | [] => [x]
  | y :: l' => if ltb 0 (cmp x y) then y :: insertBy cmp x l' else x :: l
  end.

Definition sort {A : Type} (cmp : A -> A -> R) (l : list A) : list A :=
  fold_right (insertBy cmp) [] l.

(** What a call does: it returns, it throws [new Error(message)], or the
    fuel given to its loops ran out. *)
Inductive outcome (A : Type) : Type :=
| Returns (a : A)
| Throws (message : string)
| OutOfFuel.
Arguments Returns {A} a.
Arguments Throws {A} message.
Arguments OutOfFuel {A}.

Definition bind {A B : Type} (c : outcome A) (k : A -> outcome B) : outcome B :=
  match c with
  | Returns a => k a
  | Throws m => Throws m
  | OutOfFuel => OutOfFuel
  end.

End Js.

Notation "x <- c ;; k" := (Js.bind c (fun x => k))
  (at level 61, c at next level, right associativity).

(* ================================================================== *)
(** ** Domain types (packages/domain) and graph model (graph.ts) *)

Record Coordinate : Type := mkCoordinate { lat : R; lon : R }.

Record RoadNode : Type := mkRoadNode {
  node_id : string;
  node_coordinate : Coordinate;
  node_elevationMeters : option R
}.

(** [trafficStress: 1 | 2 | 3 | 4 | 5]. *)
Inductive TrafficStress : Type := Stress1 | Stress2 | Stress3 | Stress4 | Stress5.

Definition stressValue (s : TrafficStress) : R :=
  match s with
  | Stress1 => 1 | Stress2 => 2 | Stress3 => 3 | Stress4 => 4 | Stress5 => 5
  end.

Record RoadEdge : Type := mkRoadEdge {
  edge_id : string;
  edge_fromNodeId : string;
  edge_toNodeId : string;
  edge_streetName : string;
  edge_lengthMeters : R;
  edge_bidirectional : bool;
  edge_hasSidewalk : bool;
  edge_litAtNight : bool;
  edge_trafficStress : TrafficStress;
  edge_elevationGainMeters : R
}.

Record TraversableEdge : Type := mkTraversableEdge {
  edgeId : string;
  fromNodeId : string;
  toNodeId : string;
  lengthMeters : R;
  streetName : string;
  hasSidewalk : bool;
  litAtNight : bool;
  trafficStress : TrafficStress;
  elevationGainMeters : R;
  fromCoordinate : option Coordinate;
  toCoordinate : option Coordinate
}.

Record RoadGraph : Type := mkRoadGraph {
  nodes : Js.Map RoadNode;
  edges : Js.Map RoadEdge;
  traversableFrom : Js.Map (list TraversableEdge)
}.

(** graph.ts [distanceMeters]: the equirectangular approximation. *)
Definition distanceMeters (a b : Coordinate) : Z :=
  let dx := (lat a - lat b) * 111000 in
  let dy := (lon a - lon b) * 85000 in
  Js.round (sqrt (dx * dx + dy * dy)).

Definition forwardOf (edge : RoadEdge) : TraversableEdge :=
  {| edgeId := edge_id edge;
     fromNodeId := edge_fromNodeId edge;
     toNodeId := edge_toNodeId edge;
     lengthMeters := edge_lengthMeters edge;
     streetName := edge_streetName edge;
     hasSidewalk := edge_hasSidewalk edge;
     litAtNight := edge_litAtNight edge;
     trafficStress := edge_trafficStress edge;
     elevationGainMeters := edge_elevationGainMeters edge;
     fromCoordinate := None;
     toCoordinate := None |}.

(** [{...forward, fromNodeId: edge.toNodeId, toNodeId: edge.fromNodeId,
      elevationGainMeters: -edge.elevationGainMeters}]. *)
Definition reverseOf (edge : RoadEdge) : TraversableEdge :=
  let forward := forwardOf edge in
  {| edgeId := edgeId forward;
     fromNodeId := edge_toNodeId edge;
     toNodeId := edge_fromNodeId edge;
     lengthMeters := lengthMeters forward;
     streetName := streetName forward;
     hasSidewalk := hasSidewalk forward;
     litAtNight := litAtNight forward;
     trafficStress := trafficStress forward;
     elevationGainMeters := - edge_elevationGainMeters edge;
     fromCoordinate := fromCoordinate forward;
     toCoordinate := toCoordinate forward |}.

(** [existing = map.get(k) ?? []; existing.push(t); map.set(k, existing)]. *)
Definition pushTraversable (index : Js.Map (list TraversableEdge))
    (t : TraversableEdge) : Js.Map (list TraversableEdge) :=
  let existing := match Js.get index (fromNodeId t) with
                  | Some l => l
                  | None => []
                  end in
  Js.set index (fromNodeId t) (existing ++ [t]).

(** One turn of the [for (const edge of edges)] loop of [createRoadGraph]. *)
Definition addEdge (index : Js.Map (list TraversableEdge)) (edge : RoadEdge)
    : Js.Map (list TraversableEdge) :=
  let index1 := pushTraversable index (forwardOf edge) in
  if edge_bidirectional edge then pushTraversable index1 (reverseOf edge)
  else index1.

Definition createRoadGraph (nodeList : list RoadNode) (edgeList : list RoadEdge)
    : RoadGraph :=
  {| nodes := Js.ofEntries (map (fun node => (node_id node, node)) nodeList);
     edges := Js.ofEntries (map (fun edge => (edge_id edge, edge)) edgeList);
     traversableFrom := fold_left addEdge edgeList [] |}.

(** One turn of the scan of [findNearestNodeId]; [None] as best distance is
    [Number.POSITIVE_INFINITY]. *)
Definition nearestStep (coordinate : Coordinate) (best : string * option Z)
    (node : RoadNode) : string * option Z :=
  let distance := distanceMeters (node_coordinate node) coordinate in
  match snd best with
  | None => (node_id node, Some distance)
  | Some bestDistance =>
      if (distance <? bestDistance)%Z then (node_id node, Some distance) else best
  end.

Definition findNearestNodeId (graph : RoadGraph) (coordinate : Coordinate)
    : Js.outcome string :=
  let bestNodeId :=
    fst (fold_left (nearestStep coordinate) (Js.values (nodes graph)) ("", None)) in
  if Js.truthy bestNodeId then Js.Returns bestNodeId
  else Js.Throws "Graph has no nodes.".

(* ================================================================== *)
(** ** Scoring (scoring.ts) *)

Record RouteObjectiveWeights : Type := mkWeights {
  w_distance : R;
  w_elevation : R;
  w_turns : R;
  w_safety : R;
  w_uTurn : R
}.

Definition DEFAULT_ROUTE_OBJECTIVE_WEIGHTS : RouteObjectiveWeights :=
  {| w_distance := 1;
     w_elevation := 25 / 100;
     w_turns := 4 / 10;
     w_safety := 9 / 10;
     w_uTurn := 12 / 10 |}.

Definition safetyPenalty (edge : TraversableEdge) : R :=
  (stressValue (trafficStress edge) - 1) * (35 / 100)
  + (if hasSidewalk edge then 0 else 7 / 10)
  + (if litAtNight edge then 0 else 2 / 10).

Definition scoreEdgeTraversal (edge : TraversableEdge)
    (weights : RouteObjectiveWeights) : R :=
  let uphillMeters := Rmax 0 (elevationGainMeters edge) in
  lengthMeters edge * w_distance weights
  + uphillMeters * w_elevation weights
  + safetyPenalty edge * 100 * w_safety weights.

Definition angleBetweenDegrees (a b c : Coordinate) : R :=
  let v1x := lon a - lon b in
  let v1y := lat a - lat b in
  let v2x := lon c - lon b in
  let v2y := lat c - lat b in
  let dot := v1x * v2x + v1y * v2y in
  let mag1 := sqrt (v1x * v1x + v1y * v1y) in
  let mag2 := sqrt (v2x * v2x + v2y * v2y) in
  if Js.eqb mag1 0 || Js.eqb mag2 0 then 0
  else
    let cosine := Rmax (-1) (Rmin 1 (dot / (mag1 * mag2))) in
    acos cosine * 180 / PI.

Definition scoreTurn (previousCoordinate currentCoordinate nextCoordinate : Coordinate)
    (weights : RouteObjectiveWeights) : R :=
  let angle := angleBetweenDegrees previousCoordinate currentCoordinate nextCoordinate in
  let bendPenalty := angle / 180 * 100 * w_turns weights in
  let isUTurn := Js.ltb 165 angle in
  bendPenalty + (if isUTurn then 100 * w_uTurn weights else 0).

(* ================================================================== *)
(** ** Shortest-path search (shortest-path.ts) *)

Record PathResult : Type := mkPathResult {
  nodeIds : list string;
  traversedEdges : list TraversableEdge;
  totalDistanceMeters : R;
  totalCost : R
}.

Record FindPathRequest : Type := mkFindPathRequest {
  req_graph : RoadGraph;
  startNodeId : string;
  endNodeId : string;
  req_weights : option RouteObjectiveWeights
}.

Record PathState : Type := mkPathState {
  key : string;
  nodeId : string;
  previousNodeId : option string;
  cost : R;
  ps_distanceMeters : R;
  parentKey : option string;
  viaEdge : option TraversableEdge
}.

(** [`${nodeId}|${previousNodeId ?? "start"}`]. *)
Definition createKey (nodeId : string) (previousNodeId : option string) : string :=
  (nodeId ++ "|" ++ match previousNodeId with Some p => p | None => "start" end)%string.

(** The [while (currentKey)] loop of [reconstructPath]: the states met from
    [currentKey] back along the parent keys, in the order they are pushed
    onto [reversed]; every push costs one unit of fuel, [None] when it runs
    out. *)
Fixpoint walkBack (fuel : nat) (stateMap : Js.Map PathState)
    (currentKey : option string) (reversed : list PathState)
    : option (list PathState) :=
  match currentKey with
  | None => Some reversed
  | Some k =>
      if Js.truthy k then
        match Js.get stateMap k with
        | None => Some reversed
        | Some state =>
            match fuel with
            | O => None
            | S fuel' =>
                walkBack fuel' stateMap (parentKey state) (reversed ++ [state])
            end
        end
      else Some reversed
  end.

Definition filterDefined {A : Type} (l : list (option A)) : list A :=
  flat_map (fun o => match o with Some a => [a] | None => [] end) l.

Definition reconstructPath (fuel : nat) (stateMap : Js.Map PathState)
    (finalKey : string) : Js.outcome PathResult :=
  match walkBack fuel stateMap (Some finalKey) [] with
  | None => Js.OutOfFuel
  | Some reversed =>
      let states := rev reversed in
      let finalState := last (map Some states) None in
      Js.Returns
        {| nodeIds := map nodeId states;
           traversedEdges := filterDefined (map viaEdge states);
           totalDistanceMeters :=
             match finalState with Some s => ps_distanceMeters s | None => 0 end;
           totalCost := match finalState with Some s => cost s | None => 0 end |}
  end.

(** The search state: the frontier [open], [bestCostByState], [stateMap]. *)
Record Search : Type := mkSearch {
  open : list PathState;
  bestCostByState : Js.Map R;
  stateMap : Js.Map PathState
}.

(** The cost of reaching [edge.toNodeId] from [current] along [edge]. *)
Definition nextCostOf (graph : RoadGraph) (weights : RouteObjectiveWeights)
    (current : PathState) (edge : TraversableEdge) : R :=
  let nextCost := cost current + scoreEdgeTraversal edge weights in
  match previousNodeId current with
  | Some prevId =>
      if Js.truthy prevId then
        match Js.get (nodes graph) prevId,
              Js.get (nodes graph) (nodeId current),
              Js.get (nodes graph) (toNodeId edge) with
        | Some previous, Some at_, Some next =>
            nextCost + scoreTurn (node_coordinate previous) (node_coordinate at_)
                                 (node_coordinate next) weights
        | _, _, _ => nextCost
        end
      else nextCost
  | None => nextCost
  end.

(** One turn of [for (const edge of outgoing)]. *)
Definition relax (graph : RoadGraph) (weights : RouteObjectiveWeights)
    (current : PathState) (s : Search) (edge : TraversableEdge) : Search :=
  let nextNodeId := toNodeId edge in
  let nextKey := createKey nextNodeId (Some (nodeId current)) in
  let nextCost := nextCostOf graph weights current edge in
  let skip := match Js.get (bestCostByState s) nextKey with
              | Some knownBest => Js.leb knownBest nextCost
              | None => false
              end in
  if skip then s
  else
    let nextState :=
      {| key := nextKey;
         nodeId := nextNodeId;
         previousNodeId := Some (nodeId current);
         cost := nextCost;
         ps_distanceMeters := ps_distanceMeters current + lengthMeters edge;
         parentKey := Some (key current);
         viaEdge := Some edge |} in
    {| open := open s ++ [nextState];
       bestCostByState := Js.set (bestCostByState s) nextKey nextCost;
       stateMap := Js.set (stateMap s) nextKey nextState |}.

Definition outgoingOf (graph : RoadGraph) (id : string) : list TraversableEdge :=
  match Js.get (traversableFrom graph) id with
  | Some l => l
  | None => []
  end.

Definition byCost (a b : PathState) : R := cost a - cost b.

Definition noPathMessage (startId endId : string) : string :=
  ("No path found between nodes '" ++ startId ++ "' and '" ++ endId ++ "'.")%string.

(** The frontier after [current] was taken from it and its outgoing edges
    were relaxed in order. *)
Definition expandCurrent (graph : RoadGraph) (weights : RouteObjectiveWeights)
    (current : PathState) (rest : list PathState) (s : Search) : Search :=
  fold_left (relax graph weights current) (outgoingOf graph (nodeId current))
    {| open := rest;
       bestCostByState := bestCostByState s;
       stateMap := stateMap s |}.

(** The [while (open.length > 0)] loop; [fuel] bounds its turns, [rfuel]
    the walk of [reconstructPath]. *)
Fixpoint searchLoop (fuel rfuel : nat) (graph : RoadGraph)
    (weights : RouteObjectiveWeights) (startId endId : string) (s : Search)
    : Js.outcome PathResult :=
  match fuel with
  | O => Js.OutOfFuel
  | S fuel' =>
      match Js.sort byCost (open s) with
      | [] => Js.Throws (noPathMessage startId endId)
      | current :: rest =>
          if String.eqb (nodeId current) endId then
            reconstructPath rfuel (stateMap s) (key current)
          else
            searchLoop fuel' rfuel graph weights startId endId
              (expandCurrent graph weights current rest s)
      end
  end.

Definition initialState (startId : string) : PathState :=
  {| key := createKey startId None;
     nodeId := startId;
     previousNodeId := None;
     cost := 0;
     ps_distanceMeters := 0;
     parentKey := None;
     viaEdge := None |}.

Definition initialSearch (startId : string) : Search :=
  let first := initialState startId in
  {| open := [first];
     bestCostByState := Js.set [] (key first) 0;
     stateMap := Js.set [] (key first) first |}.

(** [InMemoryShortestPathAdapter.findPath]. *)
Definition findPath (fuel : nat) (request : FindPathRequest) : Js.outcome PathResult :=
  let weights := match req_weights request with
                 | Some w => w
                 | None => DEFAULT_ROUTE_OBJECTIVE_WEIGHTS
                 end in
  searchLoop fuel fuel (req_graph request) weights
    (startNodeId request) (endNodeId request)
    (initialSearch (startNodeId request)).

(* ================================================================== *)
(** ** Requests and routes (packages/domain) *)

Inductive Strategy : Type := TargetStreets | Alphabet.

Inductive RouteMode : Type := CoverageMode | ShapeMode.

Record Area : Type := mkArea { center : Coordinate; radiusMeters : R }.

Record CoverageRouteRequest : Type := mkCoverageRouteRequest {
  cr_name : string;
  cr_targetStreets : list string;
  cr_start : Coordinate;
  cr_strategy : option Strategy;
  cr_maxDistanceMeters : option R;
  cr_alphabet : option (list string);
  cr_area : option Area
}.

Record RouteSegment : Type := mkRouteSegment {
  seg_from : Coordinate;
  seg_to : Coordinate;
  seg_streetName : option string
}.

Record Coverage : Type := mkCoverage {
  cov_strategy : Strategy;
  cov_lettersCovered : list string;
  cov_lettersRequested : list string;
  cov_matchedStreetCount : Z;
  cov_maxDistanceMeters : option R;
  cov_estimatedElevationGainMeters : Z;
  cov_duplicateStreetPenalty : Z;
  cov_uniqueStreetCount : nat
}.

Record GeneratedRoute : Type := mkGeneratedRoute {
  route_id : string;
  route_mode : RouteMode;
  route_name : string;
  route_createdAtIso : string;
  route_distanceMeters : R;
  route_segments : list RouteSegment;
  route_coverage : option Coverage
}.

(** The two readings of the clock a run makes: [Date.now()] and
    [new Date().toISOString()]. *)
Record Clock : Type := mkClock { dateNow : Z; isoString : string }.

(* ================================================================== *)
(** ** Coverage optimizer (optimizers.ts) *)

(** Strings are sequences of ASCII characters: [toUpperCase] and
    [toLowerCase] change the letters a-z and A-Z and nothing else. *)
Definition upperChar (c : ascii) : ascii :=
  let n := nat_of_ascii c in
  if (97 <=? n)%nat && (n <=? 122)%nat then ascii_of_nat (n - 32) else c.

Definition lowerChar (c : ascii) : ascii :=
  let n := nat_of_ascii c in
  if (65 <=? n)%nat && (n <=? 90)%nat then ascii_of_nat (n + 32) else c.

Fixpoint mapString (f : ascii -> ascii) (s : string) : string :=
  match s with
  | EmptyString => EmptyString
  | String c s' => String (f c) (mapString f s')
  end.

Definition toUpperCase : string -> string := mapString upperChar.
Definition toLowerCase : string -> string := mapString lowerChar.

Definition isCapital (c : ascii) : bool :=
  let n := nat_of_ascii c in (65 <=? n)%nat && (n <=? 90)%nat.

(** [s.match(/[A-Z]/)?.[0]]. *)
Fixpoint matchCapital (s : string) : option string :=
  match s with
  | EmptyString => None
  | String c s' => if isCapital c then Some (String c EmptyString) else matchCapital s'
  end.

Definition firstLetter (name : string) : option string :=
  matchCapital (toUpperCase name).

(** [haystack.includes(needle)]. *)
Fixpoint includes (haystack needle : string) : bool :=
  String.prefix needle haystack
  || match haystack with
     | EmptyString => false
     | String _ rest => includes rest needle
     end.

Definition ALPHABET : list string :=
  ["A"; "B"; "C"; "D"; "E"; "F"; "G"; "H"; "I"; "J"; "K"; "L"; "M";
   "N"; "O"; "P"; "Q"; "R"; "S"; "T"; "U"; "V"; "W"; "X"; "Y"; "Z"]%string.

Definition has (set : list string) (x : string) : bool :=
  existsb (String.eqb x) set.

(** [set.add(x)], [set.delete(x)] and [[...new Set(items)]]. *)
Definition add (set : list string) (x : string) : list string :=
  if has set x then set else set ++ [x].

Definition delete (set : list string) (x : string) : list string :=
  filter (fun y => negb (String.eqb x y)) set.

Definition newSet (items : list string) : list string := fold_left add items [].

Definition dedupeConsecutive (items : list string) : list string :=
  match items with
  | [] => []
  | first :: rest =>
      first :: map snd (filter (fun p => negb (String.eqb (snd p) (fst p)))
                          (combine items rest))
  end.

Definition resolveCoordinate (graph : RoadGraph) (id : string)
    (fallback : option Coordinate) : option Coordinate :=
  match Js.get (nodes graph) id with
  | Some node => Some (node_coordinate node)
  | None => fallback
  end.

Definition traversalsToSegments (graph : RoadGraph)
    (traversals : list TraversableEdge) : list RouteSegment :=
  flat_map (fun edge =>
    match resolveCoordinate graph (fromNodeId edge) (fromCoordinate edge),
          resolveCoordinate graph (toNodeId edge) (toCoordinate edge) with
    | Some from, Some to =>
        [{| seg_from := from; seg_to := to; seg_streetName := Some (streetName edge) |}]
    | _, _ => []
    end) traversals.

Definition appendPath (target incoming : list TraversableEdge) : list TraversableEdge :=
  target ++ incoming.

(** [edges.reduce((sum, edge) => sum + edge.lengthMeters, 0)]. *)
Definition distanceOf (edgeList : list TraversableEdge) : R :=
  fold_left (fun sum edge => sum + lengthMeters edge) edgeList 0.

Definition approximateDistanceMeters (a b : Coordinate) : Z :=
  let dx := (lat a - lat b) * 111000 in
  let dy := (lon a - lon b) * 85000 in
  Js.round (sqrt (dx * dx + dy * dy)).

Definition approximateNodeDistanceMeters (graph : RoadGraph) (fromId toId : string) : Z :=
  match Js.get (nodes graph) fromId, Js.get (nodes graph) toId with
  | Some from, Some to =>
      approximateDistanceMeters (node_coordinate from) (node_coordinate to)
  | _, _ => 0%Z
  end.

Definition normalizeAlphabet (input : option (list string)) : list string :=
  let requested := match input with
                   | Some (x :: l) => x :: l
                   | _ => ALPHABET
                   end in
  newSet (filterDefined (map firstLetter requested)).

Definition chooseCoverageStrategy (request : CoverageRouteRequest) : Strategy :=
  match cr_strategy request with
  | Some s => s
  | None => match cr_targetStreets request with
            | _ :: _ => TargetStreets
            | [] => Alphabet
            end
  end.

Definition matchesTargetStreet (edge : TraversableEdge) (targets : list string) : bool :=
  match targets with
  | [] => true
  | _ =>
      let edgeName := toLowerCase (streetName edge) in
      existsb (fun target => includes edgeName (toLowerCase target)) targets
  end.

Definition uniqueKey (edge : TraversableEdge) : string :=
  (fromNodeId edge ++ "->" ++ toNodeId edge ++ "->" ++ edgeId edge)%string.

Definition uniqueStep (acc : list string * list TraversableEdge)
    (edge : TraversableEdge) : list string * list TraversableEdge :=
  let k := uniqueKey edge in
  if has (fst acc) k then acc else (add (fst acc) k, snd acc ++ [edge]).

Definition uniqueEdges (graph : RoadGraph) : list TraversableEdge :=
  snd (fold_left (fun acc outgoing => fold_left uniqueStep outgoing acc)
         (Js.values (traversableFrom graph)) ([], [])).

(** [map.get(k) ?? fallback] on a counter. *)
Definition countOr (m : Js.Map Z) (k : string) (fallback : Z) : Z :=
  match Js.get m k with Some n => n | None => fallback end.

Definition candidateScore (graph : RoadGraph) (currentNodeId startId : string)
    (strategy : Strategy) (letterFrequency usedStreetNames : Js.Map Z)
    (edge : TraversableEdge) : R :=
  IZR (approximateNodeDistanceMeters graph currentNodeId (fromNodeId edge))
  + lengthMeters edge
  + IZR (approximateNodeDistanceMeters graph (toNodeId edge) startId)
  - match strategy with
    | Alphabet =>
        400 / IZR (Z.max 1 (countOr letterFrequency
                              (match firstLetter (streetName edge) with
                               | Some l => l
                               | None => ""
                               end) 1))
    | TargetStreets => 0
    end
  + IZR (countOr usedStreetNames (toLowerCase (streetName edge)) 0) * 120.

Definition shortlistCandidates (graph : RoadGraph) (currentNodeId startId : string)
    (candidates : list TraversableEdge) (strategy : Strategy)
    (letterFrequency usedStreetNames : Js.Map Z) : list TraversableEdge :=
  map fst
    (firstn 20
       (Js.sort (fun a b => snd a - snd b)
          (map (fun edge =>
                  (edge, candidateScore graph currentNodeId startId strategy
                           letterFrequency usedStreetNames edge))
               candidates))).

Definition withinDistanceBudget (graph : RoadGraph) (currentDistanceMeters : R)
    (edge : TraversableEdge) (currentNodeId startId : string)
    (maxDistanceMeters : option R) : bool :=
  match maxDistanceMeters with
  | None => true
  | Some cap =>
      if Js.truthyNumber cap then
        let projected :=
          currentDistanceMeters
          + IZR (approximateNodeDistanceMeters graph currentNodeId (fromNodeId edge))
          + lengthMeters edge
          + IZR (approximateNodeDistanceMeters graph (toNodeId edge) startId) in
        Js.leb projected cap
      else true
  end.

Definition countStreet (counts : Js.Map Z) (edge : TraversableEdge) : Js.Map Z :=
  let k := toLowerCase (streetName edge) in
  Js.set counts k (countOr counts k 0 + 1)%Z.

Record QualityMetrics : Type := mkQualityMetrics {
  estimatedElevationGainMeters : Z;
  duplicateStreetPenalty : Z;
  uniqueStreetCount : nat
}.

Definition calculateCoverageQualityMetrics (edgeList : list TraversableEdge)
    : QualityMetrics :=
  let gain := fold_left (fun sum edge => sum + Rmax 0 (elevationGainMeters edge))
                edgeList 0 in
  let streetCounts := fold_left countStreet edgeList [] in
  {| estimatedElevationGainMeters := Js.round gain;
     duplicateStreetPenalty :=
       fold_left (fun sum count => (sum + Z.max 0 (count - 1))%Z)
         (Js.values streetCounts) 0%Z;
     uniqueStreetCount := length streetCounts |}.

(** The selection budget, lines 241-248. *)
Definition alphabetSelectionCap (maxDistanceMeters : option R) : Z :=
  Z.max 6 (Z.min 14
    (Js.floor (match maxDistanceMeters with Some m => m | None => 8000 end / 800))).

Definition maxSelections (strategy : Strategy) (targetLetters targetStreetNames : list string)
    (maxDistanceMeters : option R) : Z :=
  match strategy with
  | Alphabet =>
      Z.max 1 (Z.min (Z.of_nat (length targetLetters))
                 (alphabetSelectionCap maxDistanceMeters))
  | TargetStreets =>
      Z.max 3 (match length targetStreetNames with
               | O => 3
               | n => Z.of_nat n
               end)
  end.

(** [letterFrequency], lines 224-231. *)
Definition countLetter (freq : Js.Map Z) (edge : TraversableEdge) : Js.Map Z :=
  match firstLetter (streetName edge) with
  | None => freq
  | Some letter => Js.set freq letter (countOr freq letter 0 + 1)%Z
  end.

(** The variables the selection loop updates. *)
Record Selection : Type := mkSelection {
  currentNodeId : string;
  currentDistanceMeters : R;
  traversed : list TraversableEdge;
  coveredLetters : list string;
  matchedStreetCount : Z;
  usedStreetNames : Js.Map Z;
  remaining : list string
}.

(** [[...letters].sort()] on single letters: ascending code units. *)
Fixpoint insertString (x : string) (l : list string) : list string :=
  match l with
  | [] => [x]
  | y :: l' => if String.leb x y then x :: l else y :: insertString x l'
  end.

Definition sortStrings (l : list string) : list string :=
  fold_right insertString [] l.

Section Optimizer.

(** The search adapter the caller configured (in-memory or remote): what
    its [findPath] does on a request. *)
Variable shortestPath : FindPathRequest -> Js.outcome PathResult.

(** The working graph, resolved from the dependencies (lines 203-217). *)
Variable graph : RoadGraph.

Variable request : CoverageRouteRequest.

Let strategy := chooseCoverageStrategy request.
Let allEdges := uniqueEdges graph.
Let targetLetters := normalizeAlphabet (cr_alphabet request).
Let targetStreetNames := cr_targetStreets request.
Let cap := cr_maxDistanceMeters request.
Let letterFrequency := fold_left countLetter allEdges [].

Definition isCandidate (remainingLetters : list string) (edge : TraversableEdge) : bool :=
  match strategy with
  | Alphabet =>
      match firstLetter (streetName edge) with
      | Some letter => has remainingLetters letter
      | None => false
      end
  | TargetStreets => matchesTargetStreet edge targetStreetNames
  end.

(** The body of [for (let i = 0; i < maxSelections; i += 1)], [budget]
    turns of it; a [break] returns the variables as they are. *)
Fixpoint selectionLoop (budget : nat) (startId : string) (sel : Selection)
    : Js.outcome Selection :=
  match budget with
  | O => Js.Returns sel
  | S budget' =>
      match filter (isCandidate (remaining sel)) allEdges with
      | [] => Js.Returns sel
      | candidates =>
          let shortlisted :=
            shortlistCandidates graph (currentNodeId sel) startId candidates
              strategy letterFrequency (usedStreetNames sel) in
          match find (fun candidate =>
                        withinDistanceBudget graph (currentDistanceMeters sel)
                          candidate (currentNodeId sel) startId cap)
                     shortlisted with
          | None => Js.Returns sel
          | Some selectedEdge =>
              toStart <- shortestPath
                           {| req_graph := graph;
                              startNodeId := currentNodeId sel;
                              endNodeId := fromNodeId selectedEdge;
                              req_weights := None |} ;;
              let projectedDistance :=
                currentDistanceMeters sel + totalDistanceMeters toStart
                + lengthMeters selectedEdge in
              if match cap with
                 | Some c => Js.truthyNumber c && Js.ltb c projectedDistance
                 | None => false
                 end
              then Js.Returns sel
              else
                let traversed' := appendPath (traversed sel) (traversedEdges toStart) in
                let streetKey := toLowerCase (streetName selectedEdge) in
                let letter := firstLetter (streetName selectedEdge) in
                selectionLoop budget' startId
                  {| currentNodeId := fromNodeId selectedEdge;
                     currentDistanceMeters := distanceOf traversed';
                     traversed := traversed';
                     coveredLetters :=
                       match letter with
                       | Some l => add (coveredLetters sel) l
                       | None => coveredLetters sel
                       end;
                     matchedStreetCount :=
                       if matchesTargetStreet selectedEdge targetStreetNames
                       then (matchedStreetCount sel + 1)%Z
                       else matchedStreetCount sel;
                     usedStreetNames :=
                       Js.set (usedStreetNames sel) streetKey
                         (countOr (usedStreetNames sel) streetKey 0 + 1)%Z;
                     remaining :=
                       match letter with
                       | Some l => delete (remaining sel) l
                       | None => remaining sel
                       end |}
          end
      end
  end.

Definition initialSelection (startId : string) : Selection :=
  {| currentNodeId := startId;
     currentDistanceMeters := 0;
     traversed := [];
     coveredLetters := [];
     matchedStreetCount := 0;
     usedStreetNames := [];
     remaining := newSet targetLetters |}.

(** Lines 314-324: the way back, appended when it fits the cap. *)
Definition returnFits (sel : Selection) (returnPath : PathResult) : bool :=
  match cap with
  | None => true
  | Some c =>
      negb (Js.truthyNumber c)
      || Js.leb (currentDistanceMeters sel + totalDistanceMeters returnPath) c
  end.

Definition optimizeCoverageRoute (clock : Clock) : Js.outcome GeneratedRoute :=
  startId <- findNearestNodeId graph (cr_start request) ;;
  sel <- selectionLoop
           (Z.to_nat (maxSelections strategy targetLetters targetStreetNames cap))
           startId (initialSelection startId) ;;
  returnPath <- shortestPath
                  {| req_graph := graph;
                     startNodeId := currentNodeId sel;
                     endNodeId := startId;
                     req_weights := None |} ;;
  let traversed' :=
    if returnFits sel returnPath
    then appendPath (traversed sel) (traversedEdges returnPath)
    else traversed sel in
  let quality := calculateCoverageQualityMetrics traversed' in
  Js.Returns
    {| route_id := ("route-" ++ NilZero.string_of_int (Z.to_int (dateNow clock)))%string;
       route_mode := CoverageMode;
       route_name := cr_name request;
       route_createdAtIso := isoString clock;
       route_distanceMeters := distanceOf traversed';
       route_segments := traversalsToSegments graph traversed';
       route_coverage :=
         Some {| cov_strategy := strategy;
                 cov_lettersCovered := sortStrings (coveredLetters sel);
                 cov_lettersRequested :=
                   match strategy with
                   | Alphabet => targetLetters
                   | TargetStreets => []
                   end;
                 cov_matchedStreetCount := matchedStreetCount sel;
                 cov_maxDistanceMeters := cap;
                 cov_estimatedElevationGainMeters :=
                   estimatedElevationGainMeters quality;
                 cov_duplicateStreetPenalty := duplicateStreetPenalty quality;
                 cov_uniqueStreetCount := uniqueStreetCount quality |} |}.

End Optimizer.

(* ================================================================== *)
(** ** Shape optimizer (optimizers.ts) *)

Record ShapeRouteRequest : Type := mkShapeRouteRequest {
  sr_name : string;
  sr_points : list Coordinate
}.

(** [items.map(f)] for an [f] that may throw: the first failure ends it. *)
Fixpoint mapOutcome {A B : Type} (f : A -> Js.outcome B) (l : list A)
    : Js.outcome (list B) :=
  match l with
  | [] => Js.Returns []
  | x :: l' =>
      y <- f x ;;
      ys <- mapOutcome f l' ;;
      Js.Returns (y :: ys)
  end.

(** The loop of [optimizeShapeRoute]: one search per pair of consecutive
    snapped nodes, its edges appended in order. *)
Fixpoint stitch (shortestPath : FindPathRequest -> Js.outcome PathResult)
    (graph : RoadGraph) (snappedNodes : list string)
    (traversed : list TraversableEdge) : Js.outcome (list TraversableEdge) :=
  match snappedNodes with
  | from :: ((to :: _) as rest) =>
      segmentPath <- shortestPath {| req_graph := graph;
                                     startNodeId := from;
                                     endNodeId := to;
                                     req_weights := None |} ;;
      stitch shortestPath graph rest (appendPath traversed (traversedEdges segmentPath))
  | _ => Js.Returns traversed
  end.

(** [optimizeShapeRoute] on the graph resolved from the dependencies. *)
Definition optimizeShapeRoute (shortestPath : FindPathRequest -> Js.outcome PathResult)
    (graph : RoadGraph) (request : ShapeRouteRequest) (clock : Clock)
    : Js.outcome GeneratedRoute :=
  let fallback := {| lat := 0; lon := 0 |} in
  let points :=
    if (2 <=? length (sr_points request))%nat then sr_points request
    else [match sr_points request with
          | p :: _ => p
          | [] => fallback
          end] in
  snapped <- mapOutcome (findNearestNodeId graph) points ;;
  let snappedNodes := dedupeConsecutive snapped in
  traversed <- stitch shortestPath graph snappedNodes [] ;;
  Js.Returns
    {| route_id := ("route-" ++ NilZero.string_of_int (Z.to_int (dateNow clock)))%string;
       route_mode := ShapeMode;
       route_name := sr_name request;
       route_createdAtIso := isoString clock;
       route_distanceMeters := distanceOf traversed;
       route_segments := traversalsToSegments graph traversed;
       route_coverage := None |}.

(* ================================================================== *)
(** ** Remote search adapter (osrm-adapter.ts) and adapter factory *)

(** One route of the routing service's answer: [distance] and the
    [[lon, lat]] pairs of [geometry.coordinates], each where present. *)
Record OsrmRoute : Type := mkOsrmRoute {
  osrm_distance : option R;
  osrm_coordinates : option (list (R * R))
}.

(** [toCoordinate] of osrm-adapter.ts: the service sends longitude first. *)
Definition osrmToCoordinate (raw : R * R) : Coordinate :=
  {| lat := snd raw; lon := fst raw |}.

Definition segmentDistanceMeters (a b : Coordinate) : Z :=
  let dx := (lat a - lat b) * 111000 in
  let dy := (lon a - lon b) * 85000 in
  Js.round (sqrt (dx * dx + dy * dy)).

Definition decimal (n : nat) : string :=
  NilZero.string_of_int (Z.to_int (Z.of_nat n)).

(** The edge the adapter makes of the [i]-th leg of [count] legs. *)
Definition osrmEdge (request : FindPathRequest) (count i : nat)
    (from to : Coordinate) : TraversableEdge :=
  {| edgeId := ("osrm-" ++ decimal i)%string;
     fromNodeId := if (i =? 0)%nat then startNodeId request
                   else ("osrm-node-" ++ decimal i)%string;
     toNodeId := if (i =? count - 1)%nat then endNodeId request
                 else ("osrm-node-" ++ decimal (i + 1))%string;
     lengthMeters := IZR (segmentDistanceMeters from to);
     streetName := "OSRM Path";
     hasSidewalk := true;
     litAtNight := true;
     trafficStress := Stress2;
     elevationGainMeters := 0;
     fromCoordinate := Some from;
     toCoordinate := Some to |}.

(** The [for (let i = 0; i < coordinates.length - 1; i += 1)] loop, from
    leg [i] on; [coordinates] are the points from the [i]-th on. *)
Fixpoint osrmLegs (request : FindPathRequest) (count i : nat)
    (coordinates : list (R * R)) : list TraversableEdge :=
  match coordinates with
  | a :: ((b :: _) as rest) =>
      osrmEdge request count i (osrmToCoordinate a) (osrmToCoordinate b)
      :: osrmLegs request count (S i) rest
  | _ => []
  end.

(** The body of the [try] block once the service has answered with
    [routes]. *)
Definition osrmParse (request : FindPathRequest) (routes : option (list OsrmRoute))
    : Js.outcome PathResult :=
  let bestRoute := match routes with
                   | Some (r :: _) => Some r
                   | _ => None
                   end in
  match bestRoute with
  | Some route =>
      match osrm_coordinates route with
      | Some coordinates =>
          if (length coordinates <? 2)%nat then Js.Throws "OSRM route has no geometry."
          else
            let total :=
              IZR (Js.round (match osrm_distance route with
                             | Some d => d
                             | None => 0
                             end)) in
            Js.Returns
              {| nodeIds := [startNodeId request; endNodeId request];
                 traversedEdges :=
                   osrmLegs request (length coordinates - 1) 0 coordinates;
                 totalDistanceMeters := total;
                 totalCost := total |}
      | None => Js.Throws "OSRM route has no geometry."
      end
  | None => Js.Throws "OSRM route has no geometry."
  end.

(** [OsrmShortestPathAdapter.findPath]. [fetched] is what the request to
    the service and the reading of its answer come to: the [routes] of the
    answer, or a failure (no connection, a status that is not ok, a body
    that is not JSON). *)
Definition osrmFindPath
    (fetched : FindPathRequest -> Js.outcome (option (list OsrmRoute)))
    (fallback : option (FindPathRequest -> Js.outcome PathResult))
    (request : FindPathRequest) : Js.outcome PathResult :=
  match Js.get (nodes (req_graph request)) (startNodeId request),
        Js.get (nodes (req_graph request)) (endNodeId request) with
  | Some _, Some _ =>
      match (routes <- fetched request ;; osrmParse request routes) with
      | Js.Returns result => Js.Returns result
      | Js.Throws error =>
          match fallback with
          | Some adapter => adapter request
          | None => Js.Throws error
          end
      | Js.OutOfFuel => Js.OutOfFuel
      end
  | _, _ => Js.Throws "Start or end node not found in graph."
  end.

Inductive RoutingProvider : Type := InMemory | Osrm.

Record ShortestPathAdapterConfig : Type := mkAdapterConfig {
  provider : option RoutingProvider;
  osrmBaseUrl : option string
}.

(** [createShortestPathAdapter]; [fuel] is what the in-memory search is run
    with. *)
Definition createShortestPathAdapter
    (fetched : FindPathRequest -> Js.outcome (option (list OsrmRoute)))
    (fuel : nat) (config : ShortestPathAdapterConfig)
    : FindPathRequest -> Js.outcome PathResult :=
  let chosen := match provider config with
                | Some p => p
                | None => InMemory
                end in
  match chosen, osrmBaseUrl config with
  | Osrm, Some url =>
      if Js.truthy url then osrmFindPath fetched (Some (findPath fuel))
      else findPath fuel
  | _, _ => findPath fuel
  end.

(* ================================================================== *)
(** ** Street-candidate graph (graph.ts) *)

Record StreetCandidate : Type := mkStreetCandidate {
  street_id : string;
  street_name : string;
  street_coordinate : Coordinate
}.

(** [streets.find((street) => street.id === id)?.name]. *)
Definition streetNameOf (streets : list StreetCandidate) (id : string) : option string :=
  option_map street_name (find (fun street => String.eqb (street_id street) id) streets).

(** The five nearest other nodes of [fromNode], with their distances. *)
Definition nearestNeighbors (nodeList : list RoadNode) (fromNode : RoadNode)
    : list (RoadNode * Z) :=
  firstn 5
    (Js.sort (fun a b => IZR (snd a) - IZR (snd b))
       (map (fun node =>
               (node, distanceMeters (node_coordinate fromNode) (node_coordinate node)))
          (filter (fun node => negb (String.eqb (node_id node) (node_id fromNode)))
             nodeList))).

Definition elevationOr0 (nodeById : Js.Map RoadNode) (id : string) : R :=
  match Js.get nodeById id with
  | Some node => match node_elevationMeters node with
                 | Some e => e
                 | None => 0
                 end
  | None => 0
  end.

(** The edge pushed for one neighbor; [edgeCount] is the counter before its
    increment. *)
Definition connector (streets : list StreetCandidate) (nodeById : Js.Map RoadNode)
    (edgeCount : nat) (fromNode : RoadNode) (neighbor : RoadNode * Z) : RoadEdge :=
  let toNode := fst neighbor in
  {| edge_id := ("s-" ++ decimal edgeCount)%string;
     edge_fromNodeId := node_id fromNode;
     edge_toNodeId := node_id toNode;
     edge_streetName :=
       match streetNameOf streets (node_id toNode) with
       | Some n => n
       | None => match streetNameOf streets (node_id fromNode) with
                 | Some n => n
                 | None => "Connector"
                 end
       end;
     edge_lengthMeters := IZR (snd neighbor);
     edge_bidirectional := true;
     edge_hasSidewalk := true;
     edge_litAtNight := true;
     edge_trafficStress := Stress2;
     edge_elevationGainMeters :=
       elevationOr0 nodeById (node_id toNode) - elevationOr0 nodeById (node_id fromNode) |}.

(** The inner loop: an edge per neighbor is pushed onto [edges] and
    [edgeCount] goes up by one. *)
Definition connectNode (streets : list StreetCandidate) (nodeById : Js.Map RoadNode)
    (nodeList : list RoadNode) (acc : list RoadEdge * nat) (fromNode : RoadNode)
    : list RoadEdge * nat :=
  fold_left (fun acc neighbor =>
               (fst acc ++ [connector streets nodeById (snd acc) fromNode neighbor],
                S (snd acc)))
    (nearestNeighbors nodeList fromNode) acc.

Definition streetAreaNodes (start : Coordinate) (streets : list StreetCandidate)
    : list RoadNode :=
  {| node_id := "start"; node_coordinate := start; node_elevationMeters := None |}
  :: map (fun street =>
            {| node_id := street_id street;
               node_coordinate := street_coordinate street;
               node_elevationMeters := None |}) streets.

Definition streetAreaEdges (start : Coordinate) (streets : list StreetCandidate)
    : list RoadEdge :=
  let nodeList := streetAreaNodes start streets in
  let nodeById := Js.ofEntries (map (fun node => (node_id node, node)) nodeList) in
  fst (fold_left (connectNode streets nodeById nodeList) nodeList ([], O)).

Definition createStreetAreaGraph (start : Coordinate) (streets : list StreetCandidate)
    : RoadGraph :=
  createRoadGraph (streetAreaNodes start streets) (streetAreaEdges start streets).

(* ================================================================== *)
(** ** The seed graph (graph.ts, [createSeedRoadGraph]) *)

(** [Math.ceil]. *)
Definition ceil (x : R) : Z := (- Js.floor (- x))%Z.

(** [size]: [options?.radiusMeters] is [None] when the options or the
    radius are left out. *)
Definition seedSize (radiusMeters : option R) : nat :=
  let minimumSize := 7%Z in
  let requestedSize :=
    match radiusMeters with
    | Some r => if Js.truthyNumber r then (ceil (r / 175) * 2 + 1)%Z else minimumSize
    | None => minimumSize
    end in
  Z.to_nat (Z.min 27 (Z.max minimumSize requestedSize)).

Definition seedAlphabet : list string :=
  ["A"; "B"; "C"; "D"; "E"; "F"; "G"; "H"; "I"; "J"; "K"; "L"; "M";
   "N"; "O"; "P"; "Q"; "R"; "S"; "T"; "U"; "V"; "W"; "X"; "Y"; "Z"].

(** [`${letter}${cycle > 0 ? cycle + 1 : ""} Ave`] and the same with "St". *)
Definition seedStreet (kind : string) (i : nat) : string :=
  let letter := nth (i mod length seedAlphabet) seedAlphabet "undefined" in
  let cycle := (i / length seedAlphabet)%nat in
  (letter ++ (if (0 <? cycle)%nat then decimal (cycle + 1) else "") ++ " " ++ kind)%string.

Definition seedNode (center : Coordinate) (half y x : nat) : RoadNode :=
  {| node_id := ("n-" ++ decimal y ++ "-" ++ decimal x)%string;
     node_coordinate :=
       {| lat := lat center + (INR y - INR half) * 0.00135;
          lon := lon center + (INR x - INR half) * 0.00175 |};
     node_elevationMeters := Some (10 + INR y * 3 + INR x) |}.

(** The two nested loops that fill [nodes]. *)
Definition seedNodes (center : Coordinate) (size : nat) : list RoadNode :=
  flat_map (fun y => map (fun x => seedNode center (size / 2) y x) (seq 0 size))
    (seq 0 size).

(** [nodes[y * size + x]]. *)
Definition getNode (nodeList : list RoadNode) (size y x : nat) : option RoadNode :=
  nth_error nodeList (y * size + x).

(** [((n % 5) + 1) as 1 | 2 | 3 | 4 | 5]. *)
Definition stressOf (n : nat) : TrafficStress :=
  match (n mod 5)%nat with
  | 0%nat => Stress1 | 1%nat => Stress2 | 2%nat => Stress3 | 3%nat => Stress4
  | _ => Stress5
  end.

Definition orZero (x : option R) : R :=
  match x with Some v => v | None => 0 end.

(** The edge pushed between [a] and [b]; [edgeCount] is the counter before
    its increment. *)
Definition seedEdge (edgeCount : nat) (a b : RoadNode) (name : string)
    (sidewalk lit : bool) (stress : TrafficStress) : RoadEdge :=
  {| edge_id := ("e-" ++ decimal edgeCount)%string;
     edge_fromNodeId := node_id a;
     edge_toNodeId := node_id b;
     edge_streetName := name;
     edge_lengthMeters := IZR (distanceMeters (node_coordinate a) (node_coordinate b));
     edge_bidirectional := true;
     edge_hasSidewalk := sidewalk;
     edge_litAtNight := lit;
     edge_trafficStress := stress;
     edge_elevationGainMeters :=
       orZero (node_elevationMeters b) - orZero (node_elevationMeters a) |}.

(** Reading [a.id] of a node that [getNode] did not find. *)
Definition undefinedNode : string :=
  "Cannot read properties of undefined (reading 'id')".

(** The body of an inner loop: the edge from [getNode(y, x)] to
    [getNode(y', x')] is pushed and [edgeCount] goes up by one. *)
Definition pushSeedEdge (nodeList : list RoadNode) (size : nat)
    (y x y' x' : nat) (name : string) (sidewalk lit : bool) (stress : TrafficStress)
    (acc : list RoadEdge * nat) : Js.outcome (list RoadEdge * nat) :=
  match getNode nodeList size y x, getNode nodeList size y' x' with
  | Some a, Some b =>
      Js.Returns (fst acc ++ [seedEdge (snd acc) a b name sidewalk lit stress],
                  S (snd acc))
  | _, _ => Js.Throws undefinedNode
  end.

(** [for (const a of l) body], threading the variables [s]. *)
Definition forEach {A S : Type} (l : list A) (body : A -> S -> Js.outcome S) (s : S)
    : Js.outcome S :=
  fold_left (fun acc a => s' <- acc ;; body a s') l (Js.Returns s).

(** The edges along the rows, then along the columns. *)
Definition rowEdges (nodeList : list RoadNode) (size : nat) (rows : list string)
    (acc : list RoadEdge * nat) : Js.outcome (list RoadEdge * nat) :=
  forEach (seq 0 size)
    (fun y => forEach (seq 0 (size - 1))
       (fun x => pushSeedEdge nodeList size y x y (x + 1) (nth y rows "undefined")
                   true (negb (y mod 4 =? 0)%nat) (stressOf y)))
    acc.

Definition columnEdges (nodeList : list RoadNode) (size : nat) (cols : list string)
    (acc : list RoadEdge * nat) : Js.outcome (list RoadEdge * nat) :=
  forEach (seq 0 size)
    (fun x => forEach (seq 0 (size - 1))
       (fun y => pushSeedEdge nodeList size y x (y + 1) x (nth x cols "undefined")
                   (negb (x mod 6 =? 0)%nat) (negb (y mod 3 =? 0)%nat) (stressOf x)))
    acc.

Definition seedEdges (center : Coordinate) (size : nat) : Js.outcome (list RoadEdge) :=
  let rows := map (seedStreet "Ave") (seq 0 size) in
  let cols := map (seedStreet "St") (seq 0 size) in
  let nodeList := seedNodes center size in
  acc <- rowEdges nodeList size rows ([], O) ;;
  acc' <- columnEdges nodeList size cols acc ;;
  Js.Returns (fst acc').

Definition createSeedRoadGraph (center : Coordinate) (radiusMeters : option R)
    : Js.outcome RoadGraph :=
  let size := seedSize radiusMeters in
  edgeList <- seedEdges center size ;;
  Js.Returns (createRoadGraph (seedNodes center size) edgeList).

(* ================================================================== *)
(** ** The optimizers without dependencies (optimizers.ts) *)

(** [optimizeCoverageRoute(request)] without dependencies: the seed graph
    around the centre of the area, or else the start, and the in-memory
    search. *)
Definition defaultCoverageRoute (fuel : nat) (request : CoverageRouteRequest)
    (clock : Clock) : Js.outcome GeneratedRoute :=
  let middle := match cr_area request with
                | Some area => center area
                | None => cr_start request
                end in
  graph <- createSeedRoadGraph middle (option_map radiusMeters (cr_area request)) ;;
  optimizeCoverageRoute (findPath fuel) graph request clock.

(** [optimizeShapeRoute(request)] without dependencies: the seed graph
    around the first point, or else the origin, and the in-memory search. *)
Definition defaultShapeRoute (fuel : nat) (request : ShapeRouteRequest)
    (clock : Clock) : Js.outcome GeneratedRoute :=
  let fallback := {| lat := 0; lon := 0 |} in
  let first := match sr_points request with
               | p :: _ => p
               | [] => fallback
               end in
  graph <- createSeedRoadGraph first None ;;
  optimizeShapeRoute (findPath fuel) graph request clock.

(* ================================================================== *)
(** ** The coverage optimizer over an adapter with a state (optimizers.ts) *)

(** [c] then [k]: an error or a walk cut short ends the run in the state it
    left. *)
Definition andThen {W A B : Type} (c : Js.outcome A * W)
    (k : A -> W -> Js.outcome B * W) : Js.outcome B * W :=
  match c with
  | (Js.Returns a, w) => k a w
  | (Js.Throws m, w) => (Js.Throws m, w)
  | (Js.OutOfFuel, w) => (Js.OutOfFuel, w)
  end.

Section OptimizerInState.

(** What the adapter object holds and what its calls may change: a cache, a
    connection, a count of calls. *)
Context {W : Type}.

(** [await shortestPath.findPath(request)] in a state of the adapter: what
    the call returns and the state it leaves. *)
Variable shortestPath : W -> FindPathRequest -> Js.outcome PathResult * W.

Variable graph : RoadGraph.

Variable request : CoverageRouteRequest.

(** Lines 246-269 of one turn: the first shortlisted candidate within the
    distance budget, if any candidate is left. *)
Definition chosenEdge (startId : string) (sel : Selection) : option TraversableEdge :=
  match filter (isCandidate request (remaining sel)) (uniqueEdges graph) with
  | [] => None
  | candidates =>
      find (fun candidate =>
              withinDistanceBudget graph (currentDistanceMeters sel)
                candidate (currentNodeId sel) startId (cr_maxDistanceMeters request))
           (shortlistCandidates graph (currentNodeId sel) startId candidates
              (chooseCoverageStrategy request)
              (fold_left countLetter (uniqueEdges graph) [])
              (usedStreetNames sel))
  end.

(** Lines 279-283: the cap test on the projected distance. *)
Definition overCap (sel : Selection) (toStart : PathResult)
    (selectedEdge : TraversableEdge) : bool :=
  match cr_maxDistanceMeters request with
  | Some c =>
      Js.truthyNumber c
      && Js.ltb c (currentDistanceMeters sel + totalDistanceMeters toStart
                   + lengthMeters selectedEdge)
  | None => false
  end.

(** Lines 285-302: the variables after the anchor was reached. *)
Definition selected (sel : Selection) (toStart : PathResult)
    (selectedEdge : TraversableEdge) : Selection :=
  let traversed' := appendPath (traversed sel) (traversedEdges toStart) in
  let streetKey := toLowerCase (streetName selectedEdge) in
  let letter := firstLetter (streetName selectedEdge) in
  {| currentNodeId := fromNodeId selectedEdge;
     currentDistanceMeters := distanceOf traversed';
     traversed := traversed';
     coveredLetters :=
       match letter with
       | Some l => add (coveredLetters sel) l
       | None => coveredLetters sel
       end;
     matchedStreetCount :=
       if matchesTargetStreet selectedEdge (cr_targetStreets request)
       then (matchedStreetCount sel + 1)%Z
       else matchedStreetCount sel;
     usedStreetNames :=
       Js.set (usedStreetNames sel) streetKey
         (countOr (usedStreetNames sel) streetKey 0 + 1)%Z;
     remaining :=
       match letter with
       | Some l => delete (remaining sel) l
       | None => remaining sel
       end |}.

(** The selection loop, the state of the adapter handed from call to call. *)
Fixpoint selectionLoopIn (budget : nat) (startId : string) (sel : Selection) (w : W)
    : Js.outcome Selection * W :=
  match budget with
  | O => (Js.Returns sel, w)
  | S budget' =>
      match chosenEdge startId sel with
      | None => (Js.Returns sel, w)
      | Some selectedEdge =>
          andThen (shortestPath w
                     {| req_graph := graph;
                        startNodeId := currentNodeId sel;
                        endNodeId := fromNodeId selectedEdge;
                        req_weights := None |})
            (fun toStart w' =>
               if overCap sel toStart selectedEdge
               then (Js.Returns sel, w')
               else selectionLoopIn budget' startId
                      (selected sel toStart selectedEdge) w')
      end
  end.

(** Lines 314-345: the route made of the selection and the way back, at a
    reading of the clock. *)
Definition finishedRoute (clock : Clock) (sel : Selection) (returnPath : PathResult)
    : GeneratedRoute :=
  let traversed' :=
    if returnFits request sel returnPath
    then appendPath (traversed sel) (traversedEdges returnPath)
    else traversed sel in
  let quality := calculateCoverageQualityMetrics traversed' in
  {| route_id := ("route-" ++ NilZero.string_of_int (Z.to_int (dateNow clock)))%string;
     route_mode := CoverageMode;
     route_name := cr_name request;
     route_createdAtIso := isoString clock;
     route_distanceMeters := distanceOf traversed';
     route_segments := traversalsToSegments graph traversed';
     route_coverage :=
       Some {| cov_strategy := chooseCoverageStrategy request;
               cov_lettersCovered := sortStrings (coveredLetters sel);
               cov_lettersRequested :=
                 match chooseCoverageStrategy request with
                 | Alphabet => normalizeAlphabet (cr_alphabet request)
                 | TargetStreets => []
                 end;
               cov_matchedStreetCount := matchedStreetCount sel;
               cov_maxDistanceMeters := cr_maxDistanceMeters request;
               cov_estimatedElevationGainMeters :=
                 estimatedElevationGainMeters quality;
               cov_duplicateStreetPenalty := duplicateStreetPenalty quality;
               cov_uniqueStreetCount := uniqueStreetCount quality |} |}.

(** [optimizeCoverageRoute] from a state of the adapter: the route and the
    state the run leaves. *)
Definition optimizeCoverageRouteIn (clock : Clock) (w : W)
    : Js.outcome GeneratedRoute * W :=
  andThen (findNearestNodeId graph (cr_start request), w)
    (fun startId w0 =>
       andThen (selectionLoopIn
                  (Z.to_nat (maxSelections (chooseCoverageStrategy request)
                               (normalizeAlphabet (cr_alphabet request))
                               (cr_targetStreets request)
                               (cr_maxDistanceMeters request)))
                  startId (initialSelection request startId) w0)
         (fun sel w1 =>
            andThen (shortestPath w1
                       {| req_graph := graph;
                          startNodeId := currentNodeId sel;
                          endNodeId := startId;
                          req_weights := None |})
              (fun returnPath w2 =>
                 (Js.Returns (finishedRoute clock sel returnPath), w2)))).

End OptimizerInState.

(** [dependencies]: the graph, the search adapter and the street catalog a
    caller may supply; the adapter and the catalog are objects with a state
    of their own (a cache, a connection, what a remote service holds). *)
Record Dependencies (W : Type) : Type := mkDependencies {
  dep_graph : option RoadGraph;
  dep_shortestPath : option (W -> FindPathRequest -> Js.outcome PathResult * W);
  dep_streetCatalog :
    option (W -> CoverageRouteRequest -> Js.outcome (list StreetCandidate) * W)
}.
Arguments dep_graph {W} _.
Arguments dep_shortestPath {W} _.
Arguments dep_streetCatalog {W} _.

(** Lines 203-217: the supplied graph, or else the seed graph around the
    centre of the area (or the start); with a street catalog, the street
    graph of what it fetched when that is more than two streets; a failure
    of the catalog is caught. *)
Definition workingGraph {W : Type} (dependencies : Dependencies W)
    (request : CoverageRouteRequest) (w : W) : Js.outcome RoadGraph * W :=
  let middle := match cr_area request with
                | Some area => center area
                | None => cr_start request
                end in
  andThen (match dep_graph dependencies with
           | Some graph => Js.Returns graph
           | None =>
               createSeedRoadGraph middle (option_map radiusMeters (cr_area request))
           end, w)
    (fun graph w0 =>
       match dep_streetCatalog dependencies with
       | Some fetchStreetCandidates =>
           match fetchStreetCandidates w0 request with
           | (Js.Returns streets, w1) =>
               (Js.Returns (if (2 <? length streets)%nat
                            then createStreetAreaGraph (cr_start request) streets
                            else graph), w1)
           | (Js.Throws _, w1) => (Js.Returns graph, w1)
           | (Js.OutOfFuel, w1) => (Js.OutOfFuel, w1)
           end
       | None => (Js.Returns graph, w0)
       end).

(** The adapter used: the supplied one, or else the in-memory search, which
    holds no state. *)
Definition adapterOf {W : Type} (fuel : nat) (dependencies : Dependencies W)
    : W -> FindPathRequest -> Js.outcome PathResult * W :=
  match dep_shortestPath dependencies with
  | Some adapter => adapter
  | None => fun w request => (findPath fuel request, w)
  end.

(** [optimizeCoverageRoute(request, dependencies)] as exported. *)
Definition optimizeCoverageRouteWith {W : Type} (fuel : nat)
    (request : CoverageRouteRequest) (dependencies : Dependencies W)
    (clock : Clock) (w : W) : Js.outcome GeneratedRoute * W :=
  andThen (workingGraph dependencies request w)
    (fun graph w0 =>
       optimizeCoverageRouteIn (adapterOf fuel dependencies) graph request clock w0).
(* ================================================================== *)
(** ** Vocabulary of the statements *)

(** Weights that are all at least 0. *)
Definition nonnegWeights (w : RouteObjectiveWeights) : Prop :=
  0 <= w_distance w /\ 0 <= w_elevation w /\ 0 <= w_turns w
  /\ 0 <= w_safety w /\ 0 <= w_uTurn w.

(** The directed edges one road edge is expanded into. *)
Definition expand (edge : RoadEdge) : list TraversableEdge :=
  forwardOf edge :: (if edge_bidirectional edge then [reverseOf edge] else []).

(** The traversal [t] leaves the node [k]. *)
Definition leaves (k : string) (t : TraversableEdge) : bool :=
  String.eqb (fromNodeId t) k.

(** An adjacency index that lists exactly the traversals [ts], each under
    its [fromNodeId], in order, and has no entry with an empty list. *)
Definition indexes (index : Js.Map (list TraversableEdge))
    (ts : list TraversableEdge) : Prop :=
  forall k, match Js.get index k with
            | Some l => l = filter (leaves k) ts /\ l <> []
            | None => filter (leaves k) ts = []
            end.

(** Every node id an edge refers to is a key of the node map. *)
Definition edgesReferToNodes (graph : RoadGraph) (edgeList : list RoadEdge) : Prop :=
  forall edge, In edge edgeList ->
    Js.get (nodes graph) (edge_fromNodeId edge) <> None
    /\ Js.get (nodes graph) (edge_toNodeId edge) <> None.

(** An edge between two ids for which no node is given. *)
Definition danglingEdge : RoadEdge :=
  {| edge_id := "e1"; edge_fromNodeId := "A"; edge_toNodeId := "B";
     edge_streetName := "Main St"; edge_lengthMeters := 100;
     edge_bidirectional := true; edge_hasSidewalk := true;
     edge_litAtNight := true; edge_trafficStress := Stress1;
     edge_elevationGainMeters := 0 |}.

(** [node] is the first of the nodes [l] that is nearest to [c]. *)
Definition firstNearest (c : Coordinate) (l : list RoadNode) (node : RoadNode) : Prop :=
  exists before after,
    l = before ++ node :: after
    /\ (forall m, In m before ->
          (distanceMeters (node_coordinate node) c < distanceMeters (node_coordinate m) c)%Z)
    /\ (forall m, In m after ->
          (distanceMeters (node_coordinate node) c <= distanceMeters (node_coordinate m) c)%Z).

Definition clamp (x lo hi : Z) : Z := Z.max lo (Z.min hi x).

(** The budget in the words of the specification: in alphabet mode
    [min(requestedLetterCount, clamp(floor(cap_or_8000 / 800), 6, 14))], the
    cap being 8000 when the request has none; in target-street mode
    [max(3, targetStreetCount)]. *)
Definition specSelectionBudget (strategy : Strategy)
    (requestedLetterCount targetStreetCount : nat) (maxDistanceMeters : option R) : Z :=
  match strategy with
  | Alphabet =>
      Z.min (Z.of_nat requestedLetterCount)
        (clamp (Js.floor (match maxDistanceMeters with
                          | Some m => m
                          | None => 8000
                          end / 800)) 6 14)
  | TargetStreets => Z.max 3 (Z.of_nat targetStreetCount)
  end.

(** The budget of a request, as [optimizeCoverageRoute] computes it. *)
Definition selectionBudget (request : CoverageRouteRequest) : Z :=
  maxSelections (chooseCoverageStrategy request)
    (normalizeAlphabet (cr_alphabet request)) (cr_targetStreets request)
    (cr_maxDistanceMeters request).

(** The specification's budget for the same request. *)
Definition specBudgetOf (request : CoverageRouteRequest) : Z :=
  specSelectionBudget (chooseCoverageStrategy request)
    (length (normalizeAlphabet (cr_alphabet request)))
    (length (cr_targetStreets request)) (cr_maxDistanceMeters request).

(** An alphabet request whose alphabet holds no letter. *)
Definition digitsOnlyRequest : CoverageRouteRequest :=
  {| cr_name := "Coverage Route";
     cr_targetStreets := [];
     cr_start := {| lat := 0; lon := 0 |};
     cr_strategy := Some Alphabet;
     cr_maxDistanceMeters := None;
     cr_alphabet := Some ["1"; "2"];
     cr_area := None |}.

(** What of a route does not come from the clock. *)
Definition geometry (r : GeneratedRoute) : list RouteSegment * R :=
  (route_segments r, route_distanceMeters r).

(** Two runs end alike, and what they return agrees under [f]. *)
Definition sameOutcome {A B : Type} (f : A -> B) (x y : Js.outcome A) : Prop :=
  match x, y with
  | Js.Returns a, Js.Returns b => f a = f b
  | Js.Throws m, Js.Throws m' => m = m'
  | Js.OutOfFuel, Js.OutOfFuel => True
  | _, _ => False
  end.

(** A node and an edge without elevation gain, by their fields. *)
Definition pathNode (id : string) (c : Coordinate) (el : option R) : RoadNode :=
  {| node_id := id; node_coordinate := c; node_elevationMeters := el |}.

Definition flatEdge (id from to name : string) (len : R)
    (bidirectional sidewalk lit : bool) (stress : TrafficStress) : RoadEdge :=
  {| edge_id := id; edge_fromNodeId := from; edge_toNodeId := to;
     edge_streetName := name; edge_lengthMeters := len;
     edge_bidirectional := bidirectional; edge_hasSidewalk := sidewalk;
     edge_litAtNight := lit; edge_trafficStress := stress;
     edge_elevationGainMeters := 0 |}.


(** Every edge listed in the adjacency index has a length of at least 0, as
    the data model asks of a road edge. *)
Definition nonnegLengths (graph : RoadGraph) : Prop :=
  forall k e, In e (outgoingOf graph k) -> 0 <= lengthMeters e.

(** [y] is met from [x] along outgoing edges of the adjacency index. *)
Inductive reachable (graph : RoadGraph) (x : string) : string -> Prop :=
| reach_here : reachable graph x x
| reach_edge (y : string) (e : TraversableEdge) :
    reachable graph x y -> In e (outgoingOf graph y) ->
    reachable graph x (toNodeId e).


(** The order the frontier is sorted in. *)
Definition cheaper (a b : PathState) : Prop := cost a <= cost b.

(** The keys the search can give a state. *)
Definition allKeys (graph : RoadGraph) (startId : string) : list string :=
  createKey startId None
  :: flat_map (fun entry =>
                 map (fun e => createKey (toNodeId e) (Some (fst entry))) (snd entry))
       (traversableFrom graph).

(** A key is settled when its best cost is at most every cost of the
    frontier. *)
Definition settledb (s : Search) (k : string) : bool :=
  match Js.get (bestCostByState s) k with
  | Some b => forallb (fun x => Js.leb b (cost x)) (open s)
  | None => false
  end.

Definition unsettledKeys (graph : RoadGraph) (startId : string) (s : Search) : nat :=
  length (filter (fun k => negb (settledb s k)) (allKeys graph startId)).

Definition settledStates (s : Search) : nat :=
  length (filter (fun x => settledb s (key x)) (open s)).

(** What relaxing the edges [es] out of [current] does to a search state:
    the states pushed cost at least as much as [current], their keys are
    keys of the graph and were not yet known at a cost of at most that of
    [current]; best costs only go down, and not at all where they were at
    most the cost of [current]. *)
Definition relaxed (graph : RoadGraph) (startId : string) (current : PathState)
    (es : list TraversableEdge) (s0 s1 : Search) : Prop :=
  exists pushed,
    open s1 = open s0 ++ pushed
    /\ (forall x, In x pushed ->
          cost current <= cost x
          /\ In (key x) (allKeys graph startId)
          /\ (exists e, In e es /\ nodeId x = toNodeId e)
          /\ (forall b, Js.get (bestCostByState s0) (key x) = Some b ->
                ~ b <= cost current)
          /\ exists b', Js.get (bestCostByState s1) (key x) = Some b' /\ b' <= cost x)
    /\ (forall k b, Js.get (bestCostByState s0) k = Some b ->
          exists b', Js.get (bestCostByState s1) k = Some b'
                     /\ b' <= b /\ (b <= cost current -> b' = b)).

(** The frontier holds states whose key has a best cost of at most their
    cost, is a key of the graph, and whose node is met from the start. *)
Definition frontierSound (graph : RoadGraph) (startId : string) (s : Search) : Prop :=
  forall x, In x (open s) ->
    (exists b, Js.get (bestCostByState s) (key x) = Some b /\ b <= cost x)
    /\ In (key x) (allKeys graph startId)
    /\ reachable graph startId (nodeId x).

(** A one-way street: sidewalk, lit, least traffic stress, no gain. *)
Definition oneWay (id from to : string) (len : R) : RoadEdge :=
  flatEdge id from to "Main St" len false true true Stress1.

(** Six nodes; the ids ["a|b"] and ["b|c"] hold the separator of the keys. *)
Definition collidingGraph (cS cBC cC cA cAB cG : Coordinate) : RoadGraph :=
  createRoadGraph
    [pathNode "S" cS None; pathNode "b|c" cBC None; pathNode "c" cC None;
     pathNode "a" cA None; pathNode "a|b" cAB None; pathNode "G" cG None]
    [oneWay "e1" "S" "b|c" 1; oneWay "e2" "S" "c" 1;
     oneWay "e3" "b|c" "a" 1000; oneWay "e4" "c" "a|b" 1;
     oneWay "e5" "a" "G" 1].

(** The street A-B and a node C that no edge touches. *)
Definition islandGraph : RoadGraph :=
  createRoadGraph
    [pathNode "A" {| lat := 0; lon := 0 |} None;
     pathNode "B" {| lat := 0; lon := 1 |} None;
     pathNode "C" {| lat := 1; lon := 1 |} None]
    [flatEdge "e1" "A" "B" "Main St" 100 true true true Stress1].

(** Two nodes, the two-way street "101" between them and the one-way street
    "Alpha" from the second node back to the first, 100 meters each. *)
Definition numbered : RoadEdge := flatEdge "e1" "S" "T" "101" 100 true true true Stress1.
Definition alpha : RoadEdge := flatEdge "e2" "T" "S" "Alpha" 100 false true true Stress1.

Definition loopGraph (cS cT : Coordinate) : RoadGraph :=
  createRoadGraph [pathNode "S" cS None; pathNode "T" cT None] [numbered; alpha].

(** An alphabet request from the first node with a cap of 0 meters. *)
Definition zeroCapRequest (cS : Coordinate) : CoverageRouteRequest :=
  {| cr_name := "Coverage Route";
     cr_targetStreets := [];
     cr_start := cS;
     cr_strategy := None;
     cr_maxDistanceMeters := Some 0;
     cr_alphabet := None;
     cr_area := None |}.

(** A coordinate in degrees: a latitude between -90 and 90 and a longitude
    between -180 and 180. *)
Definition geographic (c : Coordinate) : Prop :=
  -90 <= lat c <= 90 /\ -180 <= lon c <= 180.
(* ================================================================== *)
(** ** Vocabulary of the further properties *)


(** An edge between two nodes of [nodeList] of different ids, two-way and
    of non-negative length. *)
Definition connects (nodeList : list RoadNode) (e : RoadEdge) : Prop :=
  In (edge_fromNodeId e) (map node_id nodeList)
  /\ In (edge_toNodeId e) (map node_id nodeList)
  /\ edge_fromNodeId e <> edge_toNodeId e
  /\ edge_bidirectional e = true
  /\ 0 <= edge_lengthMeters e.

(** The edges carry the ids "s-0", "s-1", ... in order. *)
Definition numberedIds (es : list RoadEdge) : Prop :=
  forall i e, nth_error es i = Some e -> edge_id e = ("s-" ++ decimal i)%string.

Definition connected (nodeList : list RoadNode) (acc : list RoadEdge * nat) : Prop :=
  snd acc = length (fst acc)
  /\ Forall (connects nodeList) (fst acc)
  /\ numberedIds (fst acc).

(** The ends and the length of an edge. *)
Definition endsOf (e : RoadEdge) : string * string * R :=
  (edge_fromNodeId e, edge_toNodeId e, edge_lengthMeters e).

(** The nodes of [nodeList] with another id than [fromNode]. *)
Definition othersOf (nodeList : list RoadNode) (fromNode : RoadNode) : list RoadNode :=
  filter (fun node => negb (String.eqb (node_id node) (node_id fromNode))) nodeList.

(** [neighbors] are the nearest other nodes of [fromNode], five of them or
    all if there are fewer: each with its distance from [fromNode], in
    ascending order of distance, and no node left out is nearer than one of
    them. *)
Definition nearestOthers (nodeList : list RoadNode) (fromNode : RoadNode)
    (neighbors : list (RoadNode * Z)) : Prop :=
  length neighbors = Nat.min 5 (length (othersOf nodeList fromNode))
  /\ (forall nb, In nb neighbors ->
        snd nb = distanceMeters (node_coordinate fromNode) (node_coordinate (fst nb)))
  /\ StronglySorted (fun a b => (snd a <= snd b)%Z) neighbors
  /\ exists rest,
       Permutation (map fst neighbors ++ rest) (othersOf nodeList fromNode)
       /\ forall nb other, In nb neighbors -> In other rest ->
            (snd nb <= distanceMeters (node_coordinate fromNode)
                         (node_coordinate other))%Z.

(** The edges of a street-area graph, by their ends and lengths: from each
    node in turn, one to each of its nearest neighbors. *)
Definition meshEnds (nodeList : list RoadNode) : list (string * string * R) :=
  flat_map (fun fromNode =>
              map (fun nb => (node_id fromNode, node_id (fst nb), IZR (snd nb)))
                (nearestNeighbors nodeList fromNode))
    nodeList.

(** A search adapter that reports as total distance the sum of the lengths
    of the edges it returns. *)
Definition reportsItsLength (shortestPath : FindPathRequest -> Js.outcome PathResult)
    : Prop :=
  forall request result,
    shortestPath request = Js.Returns result ->
    totalDistanceMeters result = distanceOf (traversedEdges result).

(** The bookkeeping of the selection loop: the running distance is the
    length of what was traversed, and within the cap [c]. *)
Definition withinCap (c : R) (sel : Selection) : Prop :=
  currentDistanceMeters sel = distanceOf (traversed sel)
  /\ distanceOf (traversed sel) <= c.

(** The edges of all adjacency lists, in the order [uniqueEdges] visits
    them. *)
Definition indexedEdges (graph : RoadGraph) : list TraversableEdge :=
  concat (Js.values (traversableFrom graph)).

(** What [uniqueStep] keeps: the seen keys are those of the kept edges, no
    key twice, every kept edge is old or among the visited ones, and every
    visited edge has its key among the kept ones. *)
Definition deduped (visited : list TraversableEdge)
    (acc : list string * list TraversableEdge) : Prop :=
  fst acc = map uniqueKey (snd acc)
  /\ NoDup (fst acc)
  /\ (forall e, In e (snd acc) -> In e visited)
  /\ (forall e, In e visited -> In (uniqueKey e) (fst acc)).

Definition penaltyOf (counts : Js.Map Z) : Z :=
  fold_left (fun sum count => (sum + Z.max 0 (count - 1))%Z) (Js.values counts) 0%Z.

(** The segment of an edge whose two ends are nodes of the graph. *)
Definition segmentOf (graph : RoadGraph) (edge : TraversableEdge) : option RouteSegment :=
  match Js.get (nodes graph) (fromNodeId edge), Js.get (nodes graph) (toNodeId edge) with
  | Some from, Some to =>
      Some {| seg_from := node_coordinate from; seg_to := node_coordinate to;
              seg_streetName := Some (streetName edge) |}
  | _, _ => None
  end.

(** The points the shape optimizer snaps: the request's when it has two or
    more, else its first one, or the origin. *)
Definition effectivePoints (request : ShapeRouteRequest) : list Coordinate :=
  if (2 <=? length (sr_points request))%nat then sr_points request
  else [match sr_points request with
        | p :: _ => p
        | [] => {| lat := 0; lon := 0 |}
        end].

(** The edges lead from [from] to [to], each starting where the one before
    ended. *)
Inductive chained : string -> string -> list TraversableEdge -> Prop :=
| chained_last (e : TraversableEdge) :
    chained (fromNodeId e) (toNodeId e) [e]
| chained_next (e : TraversableEdge) (to : string) (es : list TraversableEdge) :
    chained (toNodeId e) to es -> chained (fromNodeId e) to (e :: es).

(** The request of [zeroCapRequest] with a cap of 50 meters. *)
Definition smallCapRequest (cS : Coordinate) : CoverageRouteRequest :=
  {| cr_name := "Coverage Route";
     cr_targetStreets := [];
     cr_start := cS;
     cr_strategy := None;
     cr_maxDistanceMeters := Some 50;
     cr_alphabet := None;
     cr_area := None |}.

(** [Number.MAX_SAFE_INTEGER], 2^53 - 1: up to it the whole numbers and
    their sums are numbers of the language. *)
Definition MAX_SAFE_INTEGER : R := 9007199254740991.

(** A length in whole meters, at least 0. *)
Definition wholeMeters (x : R) : Prop := exists n : Z, (0 <= n)%Z /\ x = IZR n.

(** The request of [zeroCapRequest] with a cap of 1000 meters. *)
Definition kilometreRequest (cS : Coordinate) : CoverageRouteRequest :=
  {| cr_name := "Coverage Route";
     cr_targetStreets := [];
     cr_start := cS;
     cr_strategy := None;
     cr_maxDistanceMeters := Some 1000;
     cr_alphabet := None;
     cr_area := None |}.

(** An adapter that answers every request with one edge of 100 meters from
    the start to the goal. *)
Definition hopAdapter (request : FindPathRequest) : Js.outcome PathResult :=
  Js.Returns
    {| nodeIds := [startNodeId request; endNodeId request];
       traversedEdges :=
         [forwardOf (flatEdge "hop" (startNodeId request) (endNodeId request)
                       "Hop" 100 true true true Stress1)];
       totalDistanceMeters := 100;
       totalCost := 100 |}.

(** Two corners 85 meters apart. *)
Definition corner : Coordinate := {| lat := 0; lon := 0 |}.
Definition nextCorner : Coordinate := {| lat := 0; lon := 0.001 |}.

(* ================================================================== *)
(** ** Vocabulary of the search's correctness *)

(** The turn cost the search adds at [here], having come from [prev] and
    going on to [next]: none at the start, after a node with the empty id,
    or when one of the three nodes is missing from the node map. *)
Definition turnCost (graph : RoadGraph) (weights : RouteObjectiveWeights)
    (prev : option string) (here next : string) : R :=
  match prev with
  | Some prevId =>
      if Js.truthy prevId then
        match Js.get (nodes graph) prevId,
              Js.get (nodes graph) here,
              Js.get (nodes graph) next with
        | Some previous, Some at_, Some there =>
            scoreTurn (node_coordinate previous) (node_coordinate at_)
                      (node_coordinate there) weights
        | _, _, _ => 0
        end
      else 0
  | None => 0
  end.

(** The cost of going along [edge] out of [here], having come from [prev]. *)
Definition stepCost (graph : RoadGraph) (weights : RouteObjectiveWeights)
    (prev : option string) (here : string) (edge : TraversableEdge) : R :=
  scoreEdgeTraversal edge weights + turnCost graph weights prev here (toNodeId edge).

(** [walkTo graph weights startId es here prev c]: the edges [es], each
    listed in the adjacency index under the node the one before led to, lead
    from [startId] to [here], the last of them out of [prev]; [c] is the sum
    of their step costs. *)
Inductive walkTo (graph : RoadGraph) (weights : RouteObjectiveWeights)
    (startId : string) : list TraversableEdge -> string -> option string -> R -> Prop :=
| walk_stay : walkTo graph weights startId [] startId None 0
| walk_on (es : list TraversableEdge) (here : string) (prev : option string)
    (c : R) (e : TraversableEdge) :
    walkTo graph weights startId es here prev c ->
    In e (outgoingOf graph here) ->
    walkTo graph weights startId (es ++ [e]) (toNodeId e) (Some here)
      (c + stepCost graph weights prev here e).

(** The keys tell the states of the search apart: two indexed edges whose
    ends get the same key end at the same node and are listed under the same
    node, and an edge whose end gets the key of the initial state ends at the
    start. *)
Definition distinctKeys (graph : RoadGraph) (startId : string) : Prop :=
  (forall m e m' e',
     In e (outgoingOf graph m) -> In e' (outgoingOf graph m') ->
     createKey (toNodeId e) (Some m) = createKey (toNodeId e') (Some m') ->
     toNodeId e = toNodeId e' /\ m = m')
  /\ (forall m e,
        In e (outgoingOf graph m) ->
        createKey (toNodeId e) (Some m) = createKey startId None ->
        toNodeId e = startId).

(** The string holds the character [c]. *)
Fixpoint hasChar (c : ascii) (s : string) : bool :=
  match s with
  | EmptyString => false
  | String c' s' => Ascii.eqb c' c || hasChar c s'
  end.

(** The id holds the separator of the keys. *)
Definition hasBar (s : string) : bool := hasChar "|" s.

(** No id the search meets holds the separator. *)
Definition plainIds (graph : RoadGraph) (startId : string) : Prop :=
  hasBar startId = false
  /\ forall m e, In e (outgoingOf graph m) -> hasBar (toNodeId e) = false.

(** The state the search makes for [edge] out of [current]. *)
Definition nextStateOf (graph : RoadGraph) (weights : RouteObjectiveWeights)
    (current : PathState) (edge : TraversableEdge) : PathState :=
  {| key := createKey (toNodeId edge) (Some (nodeId current));
     nodeId := toNodeId edge;
     previousNodeId := Some (nodeId current);
     cost := nextCostOf graph weights current edge;
     ps_distanceMeters := ps_distanceMeters current + lengthMeters edge;
     parentKey := Some (key current);
     viaEdge := Some edge |}.

(** [rooted graph weights startId E x l]: [l] lists the states from the
    initial one to [x], each made from the one before, which is among the
    expanded states [E]. *)
Inductive rooted (graph : RoadGraph) (weights : RouteObjectiveWeights)
    (startId : string) (E : list PathState) : PathState -> list PathState -> Prop :=
| rooted_start : rooted graph weights startId E (initialState startId) [initialState startId]
| rooted_next (p : PathState) (l : list PathState) (e : TraversableEdge) :
    rooted graph weights startId E p l ->
    In p E ->
    In e (outgoingOf graph (nodeId p)) ->
    rooted graph weights startId E (nextStateOf graph weights p e)
      (l ++ [nextStateOf graph weights p e]).

(** The edge [e] out of the state [x] has been relaxed: the key it leads to
    has a best cost of at most the cost through [x]. *)
Definition relaxedEdge (graph : RoadGraph) (weights : RouteObjectiveWeights)
    (s : Search) (x : PathState) (e : TraversableEdge) : Prop :=
  exists b, Js.get (bestCostByState s) (key (nextStateOf graph weights x e)) = Some b
            /\ b <= cost (nextStateOf graph weights x e).

(** The invariant of the search loop, for the states [E] taken from the
    frontier and expanded so far, of which those of [C] have all their
    outgoing edges relaxed. *)
Record searchInv (graph : RoadGraph) (weights : RouteObjectiveWeights)
    (startId endId : string) (E C : list PathState) (s : Search) : Prop := {
  inv_open : forall y, In y (open s) ->
    (exists l, rooted graph weights startId E y l)
    /\ exists b, Js.get (bestCostByState s) (key y) = Some b /\ b <= cost y;
  inv_fresh : forall y, In y (open s) ->
    Js.get (bestCostByState s) (key y) = Some (cost y) ->
    Js.get (stateMap s) (key y) = Some y;
  inv_map : forall k x, Js.get (stateMap s) k = Some x ->
    key x = k /\ Js.get (bestCostByState s) k = Some (cost x)
    /\ (In x E \/ In x (open s));
  inv_best : forall k b, Js.get (bestCostByState s) k = Some b ->
    exists x, Js.get (stateMap s) k = Some x;
  inv_expanded : forall x, In x E ->
    (exists l, rooted graph weights startId E x l)
    /\ Js.get (stateMap s) (key x) = Some x
    /\ nodeId x <> endId
    /\ (forall y, In y (open s) -> cost x <= cost y);
  inv_closed : forall x e, In x C -> In e (outgoingOf graph (nodeId x)) ->
    relaxedEdge graph weights s x e;
  inv_start : Js.get (stateMap s) (createKey startId None) = Some (initialState startId);
  inv_first : forall y, In y (open s) ->
    key y = createKey startId None -> y = initialState startId
}.

(** What a returned path is: the node ids are the start and the ends of the
    edges, the edges are a walk from the start to the end, the total
    distance is the sum of their lengths and the total cost the sum of their
    step costs. *)
Definition pathOf (graph : RoadGraph) (weights : RouteObjectiveWeights)
    (startId endId : string) (r : PathResult) : Prop :=
  nodeIds r = startId :: map toNodeId (traversedEdges r)
  /\ (exists prev, walkTo graph weights startId (traversedEdges r) endId prev (totalCost r))
  /\ totalDistanceMeters r = distanceOf (traversedEdges r).




(** No node id of the graph and no end of an indexed edge holds the
    separator of the keys. *)
Definition plainGraph (graph : RoadGraph) : Prop :=
  (forall node, In node (Js.values (nodes graph)) -> hasBar (node_id node) = false)
  /\ (forall e, In e (indexedEdges graph) ->
        hasBar (fromNodeId e) = false /\ hasBar (toNodeId e) = false).

(* ================================================================== *)
(** ** Vocabulary of the seed graph *)

(** The places of the grid: [y] and [x] below [size]. *)
Definition onGrid (size y x : nat) : Prop := (y < size)%nat /\ (x < size)%nat.

(** What an inner loop pushes: from, to, street name, sidewalk, lighting and
    traffic stress. *)
Record SeedTask : Type := mkSeedTask {
  task_from : nat * nat;
  task_to : nat * nat;
  task_name : string;
  task_sidewalk : bool;
  task_lit : bool;
  task_stress : TrafficStress
}.

Definition rowTasks (size : nat) (rows : list string) : list SeedTask :=
  flat_map (fun y =>
    map (fun x => {| task_from := (y, x); task_to := (y, (x + 1)%nat);
                     task_name := nth y rows "undefined";
                     task_sidewalk := true;
                     task_lit := negb (y mod 4 =? 0)%nat;
                     task_stress := stressOf y |})
      (seq 0 (size - 1)))
    (seq 0 size).

Definition columnTasks (size : nat) (cols : list string) : list SeedTask :=
  flat_map (fun x =>
    map (fun y => {| task_from := (y, x); task_to := ((y + 1)%nat, x);
                     task_name := nth x cols "undefined";
                     task_sidewalk := negb (x mod 6 =? 0)%nat;
                     task_lit := negb (y mod 3 =? 0)%nat;
                     task_stress := stressOf x |})
      (seq 0 (size - 1)))
    (seq 0 size).

Definition seedTasks (size : nat) : list SeedTask :=
  rowTasks size (map (seedStreet "Ave") (seq 0 size))
  ++ columnTasks size (map (seedStreet "St") (seq 0 size)).

Definition taskEdge (center : Coordinate) (size : nat) (count : nat) (t : SeedTask)
    : RoadEdge :=
  seedEdge count
    (seedNode center (size / 2) (fst (task_from t)) (snd (task_from t)))
    (seedNode center (size / 2) (fst (task_to t)) (snd (task_to t)))
    (task_name t) (task_sidewalk t) (task_lit t) (task_stress t).

(** The edges of the tasks, numbered from [count] on. *)
Fixpoint taskEdges (center : Coordinate) (size : nat) (count : nat)
    (ts : list SeedTask) : list RoadEdge :=
  match ts with
  | [] => []
  | t :: ts' => taskEdge center size count t :: taskEdges center size (S count) ts'
  end.

(** The seed graph of a given size. *)
Definition seedGraph (center : Coordinate) (size : nat) : RoadGraph :=
  createRoadGraph (seedNodes center size) (taskEdges center size 0 (seedTasks size)).

(** What an inner loop does with a task. *)
Definition runTask (nodeList : list RoadNode) (size : nat) (t : SeedTask)
    (acc : list RoadEdge * nat) : Js.outcome (list RoadEdge * nat) :=
  pushSeedEdge nodeList size (fst (task_from t)) (snd (task_from t))
    (fst (task_to t)) (snd (task_to t))
    (task_name t) (task_sidewalk t) (task_lit t) (task_stress t) acc.

(** The tasks stay on the grid and join neighbours. *)
Definition neighbours (size : nat) (t : SeedTask) : Prop :=
  onGrid size (fst (task_from t)) (snd (task_from t))
  /\ onGrid size (fst (task_to t)) (snd (task_to t))
  /\ (task_to t = (fst (task_from t), S (snd (task_from t)))
      \/ task_to t = (S (fst (task_from t)), snd (task_from t))).

(** The id of the node at row [y] and column [x]. *)
Definition gridId (y x : nat) : string :=
  ("n-" ++ decimal y ++ "-" ++ decimal x)%string.

(** [b] is the end of an edge listed under [a]. *)
Definition linked (graph : RoadGraph) (a b : string) : Prop :=
  exists e, In e (outgoingOf graph a) /\ toNodeId e = b.

(** An edge of the seed graph: two-way, of a length of at least 0, from a
    place of the grid to its right or lower neighbour. *)
Definition gridEdge (size : nat) (e : RoadEdge) : Prop :=
  edge_bidirectional e = true
  /\ 0 <= edge_lengthMeters e
  /\ exists y x,
       edge_fromNodeId e = gridId y x
       /\ ((edge_toNodeId e = gridId y (S x) /\ (y < size)%nat /\ (S x < size)%nat)
           \/ (edge_toNodeId e = gridId (S y) x /\ (S y < size)%nat /\ (x < size)%nat)).

(** The ids of the nodes of the grid. *)
Definition onGridId (size : nat) (id : string) : Prop :=
  exists y x, onGrid size y x /\ id = gridId y x.

(** A request for the streets of the seed graph within 1000 meters of the
    origin. *)
Definition seedRequest : CoverageRouteRequest :=
  {| cr_name := "Alphabet";
     cr_targetStreets := [];
     cr_start := {| lat := 0; lon := 0 |};
     cr_strategy := None;
     cr_maxDistanceMeters := Some 1000;
     cr_alphabet := None;
     cr_area := None |}.

(** One street next to the start. *)
Definition oneStreet : list StreetCandidate :=
  [{| street_id := "osm-way-1"; street_name := "High St";
      street_coordinate := {| lat := 0; lon := 1 |} |}].

(** A shape of two points, from one corner to the next. *)
Definition cornerShape : ShapeRouteRequest :=
  {| sr_name := "Line"; sr_points := [corner; nextCorner] |}.





(** A deterministic adapter: what a call returns depends on the request
    only, not on the state the adapter is in. *)
Definition deterministicAdapter {W : Type}
    (shortestPath : W -> FindPathRequest -> Js.outcome PathResult * W) : Prop :=
  forall (w w' : W) (q : FindPathRequest),
    fst (shortestPath w q) = fst (shortestPath w' q).

(** What a run shows of the clock: the id and the creation time. *)
Definition stampedBy (clock : Clock) (run : Js.outcome GeneratedRoute) : Prop :=
  forall r, run = Js.Returns r ->
    route_id r = ("route-" ++ NilZero.string_of_int (Z.to_int (dateNow clock)))%string
    /\ route_createdAtIso r = isoString clock.

(** The in-memory search with a count of the calls it served. *)
Definition countingAdapter (fuel : nat)
    : nat -> FindPathRequest -> Js.outcome PathResult * nat :=
  fun calls q => (findPath fuel q, S calls).

(** Two readings of the clock. *)
Definition morning : Clock :=
  {| dateNow := 1700000000000; isoString := "2023-11-14T22:13:20.000Z" |}.
Definition evening : Clock :=
  {| dateNow := 1700040000000; isoString := "2023-11-15T09:20:00.000Z" |}.

(** The loop graph between two corners and the counting adapter as
    dependencies, without a street catalog. *)
Definition cornerDependencies : Dependencies nat :=
  {| dep_graph := Some (loopGraph corner nextCorner);
     dep_shortestPath := Some (countingAdapter 2);
     dep_streetCatalog := None |}.
(* ================================================================== *)
(** ** Basic facts about the JavaScript primitives *)

Lemma ltb_true_iff (a b : R) : Js.ltb a b = true <-> a < b.
Proof. unfold Js.ltb. destruct (Rlt_dec a b); split; intros; try easy. Qed.

Lemma ltb_false_iff (a b : R) : Js.ltb a b = false <-> b <= a.
Proof.
  unfold Js.ltb. destruct (Rlt_dec a b); split; intros; try easy; lra.
Qed.

Lemma leb_true_iff (a b : R) : Js.leb a b = true <-> a <= b.
Proof. unfold Js.leb. destruct (Rle_dec a b); split; intros; try easy. Qed.

Lemma leb_false_iff (a b : R) : Js.leb a b = false <-> b < a.
Proof.
  unfold Js.leb. destruct (Rle_dec a b); split; intros; try easy; lra.
Qed.

Lemma eqb_true_iff (a b : R) : Js.eqb a b = true <-> a = b.
Proof. unfold Js.eqb. destruct (Req_dec_T a b); split; intros; try easy. Qed.

Lemma get_set_same {V : Type} (m : Js.Map V) (k : string) (v : V) :
  Js.get (Js.set m k v) k = Some v.
Proof.
  induction m as [|[k' v'] m IH]; simpl.
  - now rewrite String.eqb_refl.
  - destruct (String.eqb k' k) eqn:E; simpl; rewrite E; auto.
Qed.

Lemma get_set_other {V : Type} (m : Js.Map V) (k k0 : string) (v : V) :
  k <> k0 -> Js.get (Js.set m k v) k0 = Js.get m k0.
Proof.
  intros Hne. induction m as [|[k' v'] m IH]; simpl.
  - destruct (String.eqb k k0) eqn:E; auto.
    apply String.eqb_eq in E. contradiction.
  - destruct (String.eqb k' k) eqn:E; simpl.
    + apply String.eqb_eq in E. subst k'.
      destruct (String.eqb k k0) eqn:E0; auto.
      apply String.eqb_eq in E0. contradiction.
    + now rewrite IH.
Qed.

Lemma createKey_truthy (n : string) (p : option string) :
  Js.truthy (createKey n p) = true.
Proof. unfold createKey. destruct n; reflexivity. Qed.

(* ================================================================== *)
(** ** Search from a node to itself *)

(** C10. For every graph, node id [s] and weights, the in-memory search from
    [s] to [s] returns at once, given fuel for one turn of the loop:
    [nodeIds = [s]], no traversed edge, distance 0 and cost 0, also when [s]
    is not a node of the graph. *)
Theorem findPath_same_node (fuel : nat) (graph : RoadGraph) (s : string)
    (weights : option RouteObjectiveWeights) :
  (1 <= fuel)%nat ->
  findPath fuel {| req_graph := graph; startNodeId := s; endNodeId := s;
                   req_weights := weights |}
  = Js.Returns {| nodeIds := [s]; traversedEdges := [];
                  totalDistanceMeters := 0; totalCost := 0 |}.
Proof.
  intros Hfuel. destruct fuel as [|fuel]; [lia|].
  unfold findPath, initialSearch. simpl.
  rewrite String.eqb_refl.
  unfold reconstructPath. simpl walkBack.
  rewrite createKey_truthy, String.eqb_refl. simpl.
  destruct fuel; reflexivity.
Qed.

Lemma findPath_same_node_witness :
  findPath 1 {| req_graph := createRoadGraph [] []; startNodeId := "ghost";
                endNodeId := "ghost"; req_weights := None |}
  = Js.Returns {| nodeIds := ["ghost"]; traversedEdges := [];
                  totalDistanceMeters := 0; totalCost := 0 |}.
Proof. apply findPath_same_node. lia. Defined.

(* ================================================================== *)
(** ** Scoring *)

Lemma stressValue_ge_1 (s : TrafficStress) : 1 <= stressValue s.
Proof. destruct s; simpl; lra. Qed.

Lemma safetyPenalty_nonneg (edge : TraversableEdge) : 0 <= safetyPenalty edge.
Proof.
  unfold safetyPenalty. pose proof (stressValue_ge_1 (trafficStress edge)).
  destruct (hasSidewalk edge), (litAtNight edge); nra.
Qed.

Lemma default_weights_nonneg : nonnegWeights DEFAULT_ROUTE_OBJECTIVE_WEIGHTS.
Proof. unfold nonnegWeights; simpl; repeat split; lra. Qed.

Lemma scoreEdgeTraversal_nonneg (edge : TraversableEdge) (w : RouteObjectiveWeights) :
  nonnegWeights w -> 0 <= lengthMeters edge -> 0 <= scoreEdgeTraversal edge w.
Proof.
  intros (Hd & He & _ & Hs & _) Hlen. unfold scoreEdgeTraversal.
  pose proof (safetyPenalty_nonneg edge) as Hp.
  pose proof (Rmax_l 0 (elevationGainMeters edge)) as Hm.
  assert (0 <= lengthMeters edge * w_distance w) by nra.
  assert (0 <= Rmax 0 (elevationGainMeters edge) * w_elevation w) by nra.
  assert (0 <= safetyPenalty edge * 100 * w_safety w) by nra.
  lra.
Qed.

Lemma angleBetweenDegrees_bounds (a b c : Coordinate) :
  0 <= angleBetweenDegrees a b c <= 180.
Proof.
  unfold angleBetweenDegrees.
  match goal with |- context [if ?t then _ else _] => destruct t end; [lra|].
  match goal with |- context [acos ?x] => pose proof (acos_bound x) as Hb end.
  pose proof PI_RGT_0 as Hpi.
  split.
  - apply Rmult_le_pos; [lra | left; now apply Rinv_0_lt_compat].
  - apply Rmult_le_reg_r with PI; [lra|].
    unfold Rdiv. rewrite Rmult_assoc, Rinv_l by lra. lra.
Qed.

Lemma scoreTurn_nonneg (p c n : Coordinate) (w : RouteObjectiveWeights) :
  nonnegWeights w -> 0 <= scoreTurn p c n w.
Proof.
  intros (_ & _ & Ht & _ & Hu). unfold scoreTurn.
  pose proof (angleBetweenDegrees_bounds p c n) as [Ha _].
  assert (0 <= angleBetweenDegrees p c n / 180 * 100 * w_turns w) by nra.
  destruct (Js.ltb 165 (angleBetweenDegrees p c n)); nra.
Qed.

(** The angle at [current] of a reversal: both vectors are the same, the
    cosine is 1 and the angle 0. *)
Lemma angleBetweenDegrees_reversal (p c : Coordinate) :
  angleBetweenDegrees p c p = 0.
Proof.
  unfold angleBetweenDegrees.
  set (x := lon p - lon c). set (y := lat p - lat c).
  destruct (Js.eqb (sqrt (x * x + y * y)) 0) eqn:E; simpl; [reflexivity|].
  assert (Hne : sqrt (x * x + y * y) <> 0).
  { intro H. apply eqb_true_iff in H. congruence. }
  assert (Hpos : 0 <= x * x + y * y) by nra.
  replace ((x * x + y * y) / (sqrt (x * x + y * y) * sqrt (x * x + y * y)))
    with 1.
  - rewrite Rmin_left by lra. rewrite Rmax_right by lra.
    rewrite acos_1. unfold Rdiv. now rewrite !Rmult_0_l.
  - rewrite sqrt_sqrt by assumption. field.
    intro H0. rewrite H0, sqrt_0 in Hne. now apply Hne.
Qed.

(** C5. What [scoreTurn] does on a reversal: when the next coordinate is the
    previous one (distinct from the current one or not), the angle the code
    measures at the current coordinate is 0, not 180, so the cost is 0 and
    holds no U-turn penalty, whatever the weights. *)
Theorem scoreTurn_reversal_unpenalised (p c : Coordinate) (w : RouteObjectiveWeights) :
  scoreTurn p c p w = 0.
Proof.
  unfold scoreTurn. rewrite angleBetweenDegrees_reversal.
  replace (Js.ltb 165 0) with false.
  - unfold Rdiv. rewrite !Rmult_0_l. lra.
  - symmetry. apply ltb_false_iff. lra.
Qed.

(** At the default weights the penalty that is missing is 120. *)
Example scoreTurn_reversal_default :
  {| lat := 0; lon := 0 |} <> {| lat := 0; lon := 1 |}
  /\ scoreTurn {| lat := 0; lon := 0 |} {| lat := 0; lon := 1 |} {| lat := 0; lon := 0 |}
       DEFAULT_ROUTE_OBJECTIVE_WEIGHTS = 0
  /\ 100 * w_uTurn DEFAULT_ROUTE_OBJECTIVE_WEIGHTS = 120.
Proof.
  repeat split.
  - intro H. inversion H. lra.
  - apply angleBetweenDegrees_reversal
      with (p := {| lat := 0; lon := 0 |}) (c := {| lat := 0; lon := 1 |}) || idtac.
    unfold scoreTurn. rewrite angleBetweenDegrees_reversal.
    replace (Js.ltb 165 0) with false by (symmetry; apply ltb_false_iff; lra).
    unfold Rdiv. rewrite !Rmult_0_l. lra.
  - simpl. lra.
Qed.

(** Going straight on is what draws the penalty: the vectors to the previous
    and to the next coordinate are opposite, the angle is 180. *)
Lemma scoreTurn_straight_on (w : RouteObjectiveWeights) :
  scoreTurn {| lat := 0; lon := 0 |} {| lat := 0; lon := 1 |} {| lat := 0; lon := 2 |} w
  = 100 * w_turns w + 100 * w_uTurn w.
Proof.
  unfold scoreTurn.
  assert (Ha : angleBetweenDegrees {| lat := 0; lon := 0 |} {| lat := 0; lon := 1 |}
                 {| lat := 0; lon := 2 |} = 180).
  { unfold angleBetweenDegrees. simpl.
    replace ((0 - 1) * (0 - 1) + (0 - 0) * (0 - 0)) with 1 by lra.
    replace ((2 - 1) * (2 - 1) + (0 - 0) * (0 - 0)) with 1 by lra.
    rewrite sqrt_1.
    replace (Js.eqb 1 0) with false
      by (symmetry; destruct (Js.eqb 1 0) eqn:E; auto; apply eqb_true_iff in E; lra).
    simpl.
    replace (((0 - 1) * (2 - 1) + (0 - 0) * (0 - 0)) / (1 * 1)) with (-1) by field.
    rewrite Rmin_right by lra. rewrite Rmax_left by lra.
    replace (acos (-1)) with (acos (- (1))) by (f_equal; lra).
    rewrite acos_opp, acos_1. pose proof PI_RGT_0. field. lra. }
  rewrite Ha.
  replace (Js.ltb 165 180) with true by (symmetry; apply ltb_true_iff; lra).
  field.
Qed.

(* ================================================================== *)
(** ** Graph construction *)

Lemma get_ofEntries_fold {V : Type} (entries : list (string * V)) (m : Js.Map V)
    (k : string) :
  Js.get (fold_left (fun m kv => Js.set m (fst kv) (snd kv)) entries m) k <> None
  <-> (Js.get m k <> None \/ In k (map fst entries)).
Proof.
  revert m. induction entries as [|[k' v'] entries IH]; intros m; simpl.
  - tauto.
  - rewrite IH. simpl. destruct (string_dec k' k) as [->|Hne].
    + rewrite get_set_same. split; intros; [right; left; reflexivity | left; discriminate].
    + rewrite get_set_other by assumption. tauto.
Qed.

Lemma nodes_createRoadGraph (nodeList : list RoadNode) (edgeList : list RoadEdge)
    (id : string) :
  Js.get (nodes (createRoadGraph nodeList edgeList)) id <> None
  <-> In id (map node_id nodeList).
Proof.
  unfold createRoadGraph, Js.ofEntries. simpl. rewrite get_ofEntries_fold.
  rewrite map_map. simpl. split; [intros [H|H]; [now elim H | exact H] | now right].
Qed.

Lemma indexes_push (index : Js.Map (list TraversableEdge))
    (ts : list TraversableEdge) (t : TraversableEdge) :
  indexes index ts -> indexes (pushTraversable index t) (ts ++ [t]).
Proof.
  intros H k. unfold pushTraversable. rewrite filter_app. simpl.
  change (leaves k t) with (String.eqb (fromNodeId t) k).
  destruct (String.eqb (fromNodeId t) k) eqn:E.
  - apply String.eqb_eq in E. subst k. rewrite get_set_same.
    specialize (H (fromNodeId t)).
    destruct (Js.get index (fromNodeId t)) as [l|].
    + destruct H as [-> _]. split; [reflexivity|]. now destruct (filter _ ts).
    + rewrite H. split; [reflexivity | discriminate].
  - apply String.eqb_neq in E. rewrite get_set_other by assumption.
    rewrite app_nil_r. apply H.
Qed.

Lemma indexes_addEdge (index : Js.Map (list TraversableEdge))
    (ts : list TraversableEdge) (edge : RoadEdge) :
  indexes index ts -> indexes (addEdge index edge) (ts ++ expand edge).
Proof.
  intros H. unfold addEdge, expand.
  destruct (edge_bidirectional edge).
  - replace (ts ++ [forwardOf edge; reverseOf edge])
      with ((ts ++ [forwardOf edge]) ++ [reverseOf edge])
      by (now rewrite <- app_assoc).
    now apply indexes_push, indexes_push.
  - now apply indexes_push.
Qed.

Lemma indexes_fold (edgeList : list RoadEdge) (index : Js.Map (list TraversableEdge))
    (ts : list TraversableEdge) :
  indexes index ts ->
  indexes (fold_left addEdge edgeList index) (ts ++ flat_map expand edgeList).
Proof.
  revert index ts. induction edgeList as [|edge edgeList IH]; intros index ts H.
  - simpl. now rewrite app_nil_r.
  - change (flat_map expand (edge :: edgeList))
      with (expand edge ++ flat_map expand edgeList).
    simpl fold_left. rewrite app_assoc. apply IH. now apply indexes_addEdge.
Qed.

Lemma indexes_createRoadGraph (nodeList : list RoadNode) (edgeList : list RoadEdge) :
  indexes (traversableFrom (createRoadGraph nodeList edgeList))
          (flat_map expand edgeList).
Proof.
  simpl. apply (indexes_fold edgeList [] []). intros k. reflexivity.
Qed.

Lemma outgoingOf_indexes (graph : RoadGraph) (ts : list TraversableEdge) (k : string) :
  indexes (traversableFrom graph) ts -> outgoingOf graph k = filter (leaves k) ts.
Proof.
  intros H. specialize (H k). unfold outgoingOf.
  destruct (Js.get (traversableFrom graph) k); [now destruct H | now rewrite H].
Qed.

(** [createRoadGraph] does not look at the node list when it takes the edges:
    with no node at all, the edge A-B is indexed and refers to two ids that
    the node map does not hold. *)
Lemma createRoadGraph_dangling_edge :
  ~ edgesReferToNodes (createRoadGraph [] [danglingEdge]) [danglingEdge].
Proof.
  intros H. destruct (H danglingEdge) as [Hfrom _]; [now left|].
  apply Hfrom. reflexivity.
Qed.

(** C6, as the code has it. A node id is a key of the node map exactly when
    the node list holds a node of that id, so an edge refers to nodes of the
    map when its two ends are in the node list; the adjacency index lists
    under every node id, in the order of the edge list, the forward traversal
    of each edge that leaves it and the reverse traversal of each
    bidirectional edge that enters it: two traversals for a bidirectional
    edge, one otherwise, the reverse one with the ends swapped, the elevation
    gain negated and every other field the same. *)
Theorem createRoadGraph_shape (nodeList : list RoadNode) (edgeList : list RoadEdge) :
  let graph := createRoadGraph nodeList edgeList in
  ((forall edge, In edge edgeList ->
      In (edge_fromNodeId edge) (map node_id nodeList) ->
      In (edge_toNodeId edge) (map node_id nodeList) ->
      Js.get (nodes graph) (edge_fromNodeId edge) <> None
      /\ Js.get (nodes graph) (edge_toNodeId edge) <> None)
   /\ (forall id, Js.get (nodes graph) id <> None <-> In id (map node_id nodeList)))
  /\ (forall k, outgoingOf graph k = filter (leaves k) (flat_map expand edgeList))
  /\ (forall k, Js.get (traversableFrom graph) k = None
                <-> filter (leaves k) (flat_map expand edgeList) = [])
  /\ (forall edge,
        (edge_bidirectional edge = true -> expand edge = [forwardOf edge; reverseOf edge])
        /\ (edge_bidirectional edge = false -> expand edge = [forwardOf edge])
        /\ fromNodeId (forwardOf edge) = edge_fromNodeId edge
        /\ toNodeId (forwardOf edge) = edge_toNodeId edge
        /\ elevationGainMeters (forwardOf edge) = edge_elevationGainMeters edge
        /\ reverseOf edge =
           {| edgeId := edgeId (forwardOf edge);
              fromNodeId := toNodeId (forwardOf edge);
              toNodeId := fromNodeId (forwardOf edge);
              lengthMeters := lengthMeters (forwardOf edge);
              streetName := streetName (forwardOf edge);
              hasSidewalk := hasSidewalk (forwardOf edge);
              litAtNight := litAtNight (forwardOf edge);
              trafficStress := trafficStress (forwardOf edge);
              elevationGainMeters := - elevationGainMeters (forwardOf edge);
              fromCoordinate := fromCoordinate (forwardOf edge);
              toCoordinate := toCoordinate (forwardOf edge) |}).
Proof.
  intros graph. pose proof (indexes_createRoadGraph nodeList edgeList) as Hidx.
  fold graph in Hidx. repeat split.
  - now apply nodes_createRoadGraph.
  - now apply nodes_createRoadGraph.
  - now apply nodes_createRoadGraph.
  - now apply nodes_createRoadGraph.
  - intros k. now apply outgoingOf_indexes.
  - intros Hnone. specialize (Hidx k). now rewrite Hnone in Hidx.
  - intros Hnil. specialize (Hidx k).
    destruct (Js.get (traversableFrom graph) k); [|reflexivity].
    destruct Hidx as [-> Hne]. now elim Hne.
  - intros Hb. unfold expand. now rewrite Hb.
  - intros Hb. unfold expand. now rewrite Hb.
Qed.

Lemma createRoadGraph_shape_witness :
  outgoingOf (createRoadGraph [] [danglingEdge]) "B" = [reverseOf danglingEdge]
  /\ outgoingOf (createRoadGraph [] [danglingEdge]) "A" = [forwardOf danglingEdge].
Proof.
  destruct (createRoadGraph_shape [] [danglingEdge]) as (_ & Hout & _).
  split; rewrite Hout; reflexivity.
Defined.

(* ================================================================== *)
(** ** Nearest node *)

Lemma round_sqrt_nonneg (x : R) : (0 <= Js.round (sqrt x))%Z.
Proof.
  unfold Js.round. pose proof (sqrt_pos x) as Hs.
  destruct (base_Int_part (sqrt x + 1 / 2)) as [_ Hlow].
  assert (H : IZR (-1) < IZR (Int_part (sqrt x + 1 / 2))) by lra.
  apply lt_IZR in H. lia.
Qed.

Lemma distanceMeters_nonneg (a b : Coordinate) : (0 <= distanceMeters a b)%Z.
Proof. apply round_sqrt_nonneg. Qed.

Lemma approximateDistanceMeters_nonneg (a b : Coordinate) :
  (0 <= approximateDistanceMeters a b)%Z.
Proof. apply round_sqrt_nonneg. Qed.

Lemma Int_part_half : Int_part (0 + 1 / 2) = 0%Z.
Proof. symmetry. apply Int_part_spec. simpl. lra. Qed.

Lemma distanceMeters_self (a : Coordinate) : distanceMeters a a = 0%Z.
Proof.
  unfold distanceMeters, Js.round.
  replace ((lat a - lat a) * 111000 * ((lat a - lat a) * 111000)
           + (lon a - lon a) * 85000 * ((lon a - lon a) * 85000)) with 0 by ring.
  rewrite sqrt_0. apply Int_part_half.
Qed.

Lemma nearest_fold (c : Coordinate) (l seen : list RoadNode) (node : RoadNode) :
  firstNearest c seen node ->
  exists node',
    firstNearest c (seen ++ l) node'
    /\ fold_left (nearestStep c) l
         (node_id node, Some (distanceMeters (node_coordinate node) c))
       = (node_id node', Some (distanceMeters (node_coordinate node') c)).
Proof.
  revert seen node. induction l as [|n l IH]; intros seen node Hfirst.
  - exists node. rewrite app_nil_r. now split.
  - simpl. unfold nearestStep at 2. simpl.
    replace (seen ++ n :: l) with ((seen ++ [n]) ++ l) by (now rewrite <- app_assoc).
    destruct (distanceMeters (node_coordinate n) c
              <? distanceMeters (node_coordinate node) c)%Z eqn:E.
    + apply Z.ltb_lt in E. apply IH.
      destruct Hfirst as (before & after & -> & Hb & Ha).
      exists (before ++ node :: after), []. split; [reflexivity|]. split.
      * intros m Hm. apply in_app_or in Hm. destruct Hm as [Hm|[<-|Hm]].
        -- specialize (Hb m Hm). lia.
        -- assumption.
        -- specialize (Ha m Hm). lia.
      * intros m [].
    + apply Z.ltb_ge in E. apply IH.
      destruct Hfirst as (before & after & -> & Hb & Ha).
      exists before, (after ++ [n]). split; [now rewrite <- app_assoc|]. split.
      * assumption.
      * intros m Hm. apply in_app_or in Hm. destruct Hm as [Hm|[<-|[]]]; auto.
Qed.

(** What the scan of [findNearestNodeId] ends with. *)
Lemma nearest_scan (c : Coordinate) (l : list RoadNode) :
  match l with
  | [] => fold_left (nearestStep c) l ("", None) = ("", None)
  | _ => exists node, firstNearest c l node
           /\ fold_left (nearestStep c) l ("", None)
              = (node_id node, Some (distanceMeters (node_coordinate node) c))
  end.
Proof.
  destruct l as [|n l]; [reflexivity|].
  simpl. unfold nearestStep at 2. simpl.
  apply (nearest_fold c l [n] n).
  exists [], []. repeat split; intros m [].
Qed.

(** X7. For coordinates in degrees (of the query and of every node), on a
    graph whose node ids are all non-empty strings, the scan does what its
    signature says: it throws on the graph without nodes and only there, and
    otherwise returns the id of the first nearest node. In that range every
    distance is a finite number, below the initial best distance. *)
Lemma findNearestNodeId_nonblank (graph : RoadGraph) (c : Coordinate) :
  geographic c ->
  (forall node, In node (Js.values (nodes graph)) ->
     geographic (node_coordinate node)) ->
  (forall node, In node (Js.values (nodes graph)) -> node_id node <> "") ->
  match Js.values (nodes graph) with
  | [] => findNearestNodeId graph c = Js.Throws "Graph has no nodes."
  | l => exists node, firstNearest c l node
           /\ findNearestNodeId graph c = Js.Returns (node_id node)
  end.
Proof.
  intros _ _ Hids. unfold findNearestNodeId.
  pose proof (nearest_scan c (Js.values (nodes graph))) as Hscan.
  destruct (Js.values (nodes graph)) as [|n l] eqn:El.
  - rewrite Hscan. reflexivity.
  - destruct Hscan as (node & Hfirst & ->). exists node. split; [assumption|].
    simpl. assert (Hin : In node (n :: l)).
    { destruct Hfirst as (before & after & -> & _). apply in_or_app. right. now left. }
    specialize (Hids node Hin). unfold Js.truthy.
    destruct (String.eqb (node_id node) "") eqn:E; [|reflexivity].
    apply String.eqb_eq in E. contradiction.
Qed.

Lemma findNearestNodeId_nonblank_witness :
  exists node,
    firstNearest {| lat := 1; lon := 2 |}
      [{| node_id := "n-0-0"; node_coordinate := {| lat := 0; lon := 0 |};
          node_elevationMeters := None |}] node
    /\ findNearestNodeId
         (createRoadGraph
            [{| node_id := "n-0-0"; node_coordinate := {| lat := 0; lon := 0 |};
                node_elevationMeters := None |}] [])
         {| lat := 1; lon := 2 |} = Js.Returns (node_id node).
Proof.
  apply (findNearestNodeId_nonblank
           (createRoadGraph
              [{| node_id := "n-0-0"; node_coordinate := {| lat := 0; lon := 0 |};
                  node_elevationMeters := None |}] [])).
  - unfold geographic. simpl. lra.
  - intros node [<-|[]]. unfold geographic. simpl. lra.
  - intros node [<-|[]]. discriminate.
Defined.

(** C8. The scan tells "no node seen" from the best id being falsy, and the
    empty string is falsy: on the graph whose one node has the id [""], built
    by [createRoadGraph], the call throws "Graph has no nodes." for every
    coordinate, although the graph has a node. *)
Theorem findNearestNodeId_blank_id (at_ c : Coordinate) (elevation : option R) :
  let graph := createRoadGraph
                 [{| node_id := ""; node_coordinate := at_;
                     node_elevationMeters := elevation |}] [] in
  length (Js.values (nodes graph)) = 1%nat
  /\ findNearestNodeId graph c = Js.Throws "Graph has no nodes.".
Proof. split; reflexivity. Qed.

(* ================================================================== *)
(** ** Selection budget *)

(** A request whose alphabet holds no letter asks for no letter: the
    specification's formula gives 0, the code still allows one selection. *)
Lemma selectionBudget_no_letter :
  selectionBudget digitsOnlyRequest = 1%Z /\ specBudgetOf digitsOnlyRequest = 0%Z.
Proof.
  unfold selectionBudget, specBudgetOf, digitsOnlyRequest. simpl.
  unfold alphabetSelectionCap, clamp. split; lia.
Qed.

(** C7, as the code has it. In target-street mode the budget is
    [max(3, targetStreetCount)]; in alphabet mode it is the specification's
    minimum raised to at least 1, so the two agree whenever the request names
    at least one letter. *)
Theorem selectionBudget_spec (request : CoverageRouteRequest) :
  selectionBudget request = Z.max 1 (specBudgetOf request)
  /\ (chooseCoverageStrategy request = TargetStreets ->
      selectionBudget request = specBudgetOf request)
  /\ ((1 <= length (normalizeAlphabet (cr_alphabet request)))%nat ->
      selectionBudget request = specBudgetOf request).
Proof.
  unfold selectionBudget, specBudgetOf, maxSelections, specSelectionBudget,
    alphabetSelectionCap, clamp.
  destruct (chooseCoverageStrategy request).
  - assert (H : match length (cr_targetStreets request) with
                | O => 3%Z
                | S _ => Z.of_nat (length (cr_targetStreets request))
                end = Z.max 3 (Z.of_nat (length (cr_targetStreets request)))
                \/ length (cr_targetStreets request) <> O).
    { destruct (length (cr_targetStreets request)); [left; reflexivity | right; discriminate]. }
    destruct (length (cr_targetStreets request)) eqn:E; repeat split; intros; lia.
  - repeat split; intros; try discriminate; lia.
Qed.

Lemma selectionBudget_spec_witness :
  selectionBudget
    {| cr_name := "Coverage Route"; cr_targetStreets := ["Ave"];
       cr_start := {| lat := 0; lon := 0 |}; cr_strategy := None;
       cr_maxDistanceMeters := None; cr_alphabet := None; cr_area := None |}
  = 3%Z.
Proof.
  destruct (selectionBudget_spec
              {| cr_name := "Coverage Route"; cr_targetStreets := ["Ave"];
                 cr_start := {| lat := 0; lon := 0 |}; cr_strategy := None;
                 cr_maxDistanceMeters := None; cr_alphabet := None; cr_area := None |})
    as (_ & Htarget & _).
  rewrite Htarget; reflexivity.
Defined.

(* ================================================================== *)
(** ** Determinism of the coverage route *)


(* ================================================================== *)
(** ** The three-node path graph *)

Ltac note_costs :=
  repeat match goal with
  | |- context [scoreEdgeTraversal ?e ?w] =>
      lazymatch goal with
      | H : 0 <= scoreEdgeTraversal e w |- _ => fail
      | _ => assert (0 <= scoreEdgeTraversal e w)
               by (apply scoreEdgeTraversal_nonneg;
                   [apply default_weights_nonneg | simpl; lra])
      end
  | |- context [scoreTurn ?p ?c ?n ?w] =>
      lazymatch goal with
      | H : 0 <= scoreTurn p c n w |- _ => fail
      | _ => assert (0 <= scoreTurn p c n w)
               by (apply scoreTurn_nonneg, default_weights_nonneg)
      end
  end.

Ltac run_search :=
  cbn -[scoreEdgeTraversal scoreTurn DEFAULT_ROUTE_OBJECTIVE_WEIGHTS Js.ltb Js.leb].

Ltac known_is_best :=
  unfold expandCurrent, relax, nextCostOf; run_search; note_costs;
  match goal with
  | |- context [Js.leb ?a ?b] =>
      replace (Js.leb a b) with true by (symmetry; apply leb_true_iff; lra)
  end.

Ltac path_found :=
  eexists; split; [reflexivity | repeat split; simpl; lra].

Ltac first_of_frontier :=
  match goal with |- context [Js.ltb ?a ?b] => destruct (Js.ltb a b) end.

(** C1. On the graph built from the nodes A, B, C and the edges A-B of 100
    meters and B-C of 50 meters without elevation gain, at the default
    weights, the search from A to C returns, given fuel for four turns of
    the loop, the nodes A, B, C, the two forward traversals and
    [totalDistanceMeters = 150]: whatever the coordinates and elevations of
    the nodes, the ids, street names, sidewalk, lighting and traffic stress of
    the edges, whether each edge is bidirectional, and in whichever order the
    two edges are listed. *)
Theorem findPath_path_graph
    (cA cB cC : Coordinate) (elA elB elC : option R)
    (id1 id2 name1 name2 : string) (b1 b2 sw1 sw2 lit1 lit2 : bool)
    (st1 st2 : TrafficStress) (swapped : bool) (fuel : nat) :
  (4 <= fuel)%nat ->
  let ab := flatEdge id1 "A" "B" name1 100 b1 sw1 lit1 st1 in
  let bc := flatEdge id2 "B" "C" name2 50 b2 sw2 lit2 st2 in
  exists r,
    findPath fuel
      {| req_graph := createRoadGraph
                        [pathNode "A" cA elA; pathNode "B" cB elB; pathNode "C" cC elC]
                        (if swapped then [bc; ab] else [ab; bc]);
         startNodeId := "A"; endNodeId := "C"; req_weights := None |}
    = Js.Returns r
    /\ nodeIds r = ["A"; "B"; "C"]
    /\ traversedEdges r = [forwardOf ab; forwardOf bc]
    /\ totalDistanceMeters r = 150.
Proof.
  intros Hfuel ab bc. subst ab bc.
  do 4 (destruct fuel as [|fuel]; [lia|]). clear Hfuel.
  unfold findPath. cbn [req_weights req_graph startNodeId endNodeId].
  destruct swapped, b1, b2; run_search; try path_found;
    note_costs; first_of_frontier; run_search; try path_found;
    known_is_best; run_search; path_found.
Qed.

Lemma findPath_path_graph_witness :
  exists r,
    findPath 4
      {| req_graph := createRoadGraph
                        [pathNode "A" {| lat := 0; lon := 0 |} None;
                         pathNode "B" {| lat := 0; lon := 1 |} None;
                         pathNode "C" {| lat := 0; lon := 2 |} None]
                        [flatEdge "e1" "A" "B" "Main St" 100 true true true Stress1;
                         flatEdge "e2" "B" "C" "Main St" 50 true true true Stress1];
         startNodeId := "A"; endNodeId := "C"; req_weights := None |}
    = Js.Returns r
    /\ nodeIds r = ["A"; "B"; "C"]
    /\ traversedEdges r
       = [forwardOf (flatEdge "e1" "A" "B" "Main St" 100 true true true Stress1);
          forwardOf (flatEdge "e2" "B" "C" "Main St" 50 true true true Stress1)]
    /\ totalDistanceMeters r = 150.
Proof.
  apply (findPath_path_graph {| lat := 0; lon := 0 |} {| lat := 0; lon := 1 |}
           {| lat := 0; lon := 2 |} None None None "e1" "e2" "Main St" "Main St"
           true true true true true true Stress1 Stress1 false 4).
  lia.
Defined.
(* ================================================================== *)
(** ** Sorting the frontier *)

Lemma insertBy_perm {A : Type} (cmp : A -> A -> R) (x : A) (l : list A) :
  Permutation (Js.insertBy cmp x l) (x :: l).
Proof.
  induction l as [|y l IH]; simpl; [reflexivity|].
  destruct (Js.ltb 0 (cmp x y)); [|reflexivity].
  rewrite IH. apply perm_swap.
Qed.

Lemma sort_perm {A : Type} (cmp : A -> A -> R) (l : list A) :
  Permutation (Js.sort cmp l) l.
Proof.
  induction l as [|x l IH]; simpl; [reflexivity|].
  unfold Js.sort in *. rewrite insertBy_perm. now constructor.
Qed.

Lemma insertBy_sorted (x : PathState) (l : list PathState) :
  StronglySorted cheaper l -> StronglySorted cheaper (Js.insertBy byCost x l).
Proof.
  induction l as [|y l IH]; intros Hs; simpl.
  - repeat constructor.
  - inversion Hs as [|? ? Hl Hy]; subst.
    destruct (Js.ltb 0 (byCost x y)) eqn:E.
    + apply ltb_true_iff in E. unfold byCost in E.
      constructor; [now apply IH|].
      eapply Permutation_Forall; [symmetry; apply insertBy_perm|].
      constructor; [unfold cheaper; lra | assumption].
    + apply ltb_false_iff in E. unfold byCost in E.
      constructor; [assumption|].
      constructor; [unfold cheaper; lra|].
      eapply Forall_impl; [|exact Hy]. unfold cheaper. intros; simpl in *; lra.
Qed.

Lemma sort_sorted (l : list PathState) : StronglySorted cheaper (Js.sort byCost l).
Proof.
  induction l as [|x l IH]; simpl; [constructor|]. now apply insertBy_sorted.
Qed.

(** The state the loop takes is a cheapest one of the frontier. *)
Lemma sort_head (l rest : list PathState) (current : PathState) :
  Js.sort byCost l = current :: rest ->
  Permutation (current :: rest) l
  /\ (forall x, In x rest -> cost current <= cost x).
Proof.
  intros Hs. split.
  - rewrite <- Hs. apply sort_perm.
  - pose proof (sort_sorted l) as H. rewrite Hs in H.
    inversion H as [|? ? _ Hall]; subst. intros x Hx.
    rewrite Forall_forall in Hall. now apply Hall.
Qed.

(* ================================================================== *)
(** ** Exhausting the frontier *)

Lemma get_In {V : Type} (m : Js.Map V) (k : string) (v : V) :
  Js.get m k = Some v -> In (k, v) m.
Proof.
  induction m as [|[k' v'] m IH]; simpl; [discriminate|].
  destruct (String.eqb k' k) eqn:E.
  - apply String.eqb_eq in E. intros [= ->]. subst. now left.
  - intros H. right. now apply IH.
Qed.

Lemma outgoing_key (graph : RoadGraph) (startId x : string) (e : TraversableEdge) :
  In e (outgoingOf graph x) ->
  In (createKey (toNodeId e) (Some x)) (allKeys graph startId).
Proof.
  unfold outgoingOf. intros H. right.
  destruct (Js.get (traversableFrom graph) x) as [l|] eqn:E; [|now elim H].
  apply get_In in E. apply in_flat_map. exists (x, l). split; [assumption|].
  simpl. apply in_map_iff. now exists e.
Qed.

Section Exhaustion.

Variable graph : RoadGraph.
Variable weights : RouteObjectiveWeights.
Variables startId endId : string.
Hypothesis Hweights : nonnegWeights weights.
Hypothesis Hlengths : nonnegLengths graph.

Lemma nextCostOf_ge (current : PathState) (e : TraversableEdge) :
  In e (outgoingOf graph (nodeId current)) ->
  cost current <= nextCostOf graph weights current e.
Proof.
  intros He. unfold nextCostOf.
  pose proof (scoreEdgeTraversal_nonneg e weights Hweights (Hlengths _ _ He)) as Hs.
  destruct (previousNodeId current) as [p|]; [|lra].
  destruct (Js.truthy p); [|lra].
  destruct (Js.get (nodes graph) p); [|lra].
  destruct (Js.get (nodes graph) (nodeId current)); [|lra].
  destruct (Js.get (nodes graph) (toNodeId e)); [|lra].
  match goal with |- context [scoreTurn ?a ?b ?c ?w] =>
    pose proof (scoreTurn_nonneg a b c w Hweights) end.
  lra.
Qed.

Lemma relaxed_nil (current : PathState) (es : list TraversableEdge) (s : Search) :
  relaxed graph startId current es s s.
Proof.
  exists []. rewrite app_nil_r. split; [reflexivity|]. split.
  - intros x [].
  - intros k b Hb. exists b. split; [assumption|]. split; [lra | reflexivity].
Qed.

Lemma relaxed_one (current : PathState) (e : TraversableEdge) (s : Search) :
  In e (outgoingOf graph (nodeId current)) ->
  relaxed graph startId current [e] s (relax graph weights current s e).
Proof.
  intros He. pose proof (nextCostOf_ge current e He) as Hge.
  unfold relax.
  set (nextKey := createKey (toNodeId e) (Some (nodeId current))).
  set (nextCost := nextCostOf graph weights current e) in *.
  destruct (Js.get (bestCostByState s) nextKey) as [knownBest|] eqn:Ek.
  - destruct (Js.leb knownBest nextCost) eqn:El.
    + apply relaxed_nil.
    + apply leb_false_iff in El.
      exists [{| key := nextKey; nodeId := toNodeId e;
                 previousNodeId := Some (nodeId current); cost := nextCost;
                 ps_distanceMeters := ps_distanceMeters current + lengthMeters e;
                 parentKey := Some (key current); viaEdge := Some e |}].
      simpl. split; [reflexivity|]. split.
      * intros x [<-|[]]. simpl. split; [assumption|]. split.
        { now apply outgoing_key. }
        split; [exists e; split; [now left | reflexivity]|].
        split.
        { intros b Hb. rewrite Ek in Hb. injection Hb as <-. lra. }
        exists nextCost. rewrite get_set_same. split; [reflexivity | lra].
      * intros k b Hb. destruct (string_dec nextKey k) as [<-|Hne].
        { rewrite get_set_same. rewrite Ek in Hb. injection Hb as <-.
          exists nextCost. split; [reflexivity|]. split; lra. }
        { rewrite get_set_other by assumption. exists b.
          split; [assumption|]. split; [lra | reflexivity]. }
  - exists [{| key := nextKey; nodeId := toNodeId e;
               previousNodeId := Some (nodeId current); cost := nextCost;
               ps_distanceMeters := ps_distanceMeters current + lengthMeters e;
               parentKey := Some (key current); viaEdge := Some e |}].
    simpl. split; [reflexivity|]. split.
    + intros x [<-|[]]. simpl. split; [assumption|]. split.
      { now apply outgoing_key. }
      split; [exists e; split; [now left | reflexivity]|].
      split.
      { intros b Hb. rewrite Ek in Hb. discriminate. }
      exists nextCost. rewrite get_set_same. split; [reflexivity | lra].
    + intros k b Hb. destruct (string_dec nextKey k) as [<-|Hne].
      { rewrite Ek in Hb. discriminate. }
      { rewrite get_set_other by assumption. exists b.
        split; [assumption|]. split; [lra | reflexivity]. }
Qed.

Lemma relaxed_trans (current : PathState) (es1 es2 : list TraversableEdge)
    (s0 s1 s2 : Search) :
  relaxed graph startId current es1 s0 s1 -> relaxed graph startId current es2 s1 s2 ->
  relaxed graph startId current (es1 ++ es2) s0 s2.
Proof.
  intros (p1 & Ho1 & Hp1 & Hb1) (p2 & Ho2 & Hp2 & Hb2).
  exists (p1 ++ p2). split; [now rewrite Ho2, Ho1, app_assoc|]. split.
  - intros x Hx. apply in_app_or in Hx. destruct Hx as [Hx|Hx].
    + destruct (Hp1 x Hx) as (Hc & Hk & (e & He & Hn) & Hnew & b' & Hg & Hle).
      split; [assumption|]. split; [assumption|].
      split; [exists e; split; [apply in_or_app; now left | assumption]|].
      split; [assumption|].
      destruct (Hb2 _ _ Hg) as (b'' & Hg' & Hle' & _).
      exists b''. split; [assumption | lra].
    + destruct (Hp2 x Hx) as (Hc & Hk & (e & He & Hn) & Hnew & b' & Hg & Hle).
      split; [assumption|]. split; [assumption|].
      split; [exists e; split; [apply in_or_app; now right | assumption]|].
      split; [|exists b'; now split].
      intros b Hb Hbc. destruct (Hb1 _ _ Hb) as (b1 & Hg1 & _ & Hsame).
      rewrite (Hsame Hbc) in Hg1. now apply (Hnew b).
  - intros k b Hb. destruct (Hb1 _ _ Hb) as (b1 & Hg1 & Hle1 & Hsame1).
    destruct (Hb2 _ _ Hg1) as (b2 & Hg2 & Hle2 & Hsame2).
    exists b2. split; [assumption|]. split; [lra|].
    intros Hbc. specialize (Hsame1 Hbc). subst b1. now apply Hsame2.
Qed.

Lemma relaxed_fold (current : PathState) (es : list TraversableEdge) (s : Search) :
  (forall e, In e es -> In e (outgoingOf graph (nodeId current))) ->
  relaxed graph startId current es s (fold_left (relax graph weights current) es s).
Proof.
  revert s. induction es as [|e es IH]; intros s Hes; simpl.
  - apply relaxed_nil.
  - apply (relaxed_trans current [e] es s (relax graph weights current s e)).
    + apply relaxed_one. apply Hes. now left.
    + apply IH. intros e' He'. apply Hes. now right.
Qed.


(** Counting with two tests, one of which implies the other. *)
Lemma count_le {A : Type} (f g : A -> bool) (l : list A) :
  (forall k, In k l -> f k = true -> g k = true) ->
  (length (filter f l) <= length (filter g l))%nat.
Proof.
  induction l as [|a l IH]; intros H; simpl; [lia|].
  assert (IH' : (length (filter f l) <= length (filter g l))%nat).
  { apply IH. intros k Hk. apply H. now right. }
  destruct (f a) eqn:Ef.
  - rewrite (H a (or_introl eq_refl) Ef). simpl. lia.
  - destruct (g a); simpl; lia.
Qed.

Lemma count_lt {A : Type} (f g : A -> bool) (l : list A) (k0 : A) :
  (forall k, In k l -> f k = true -> g k = true) ->
  In k0 l -> f k0 = false -> g k0 = true ->
  (length (filter f l) < length (filter g l))%nat.
Proof.
  induction l as [|a l IH]; intros H Hin Hf Hg; simpl; [now elim Hin|].
  assert (Hle : (length (filter f l) <= length (filter g l))%nat).
  { apply count_le. intros k Hk. apply H. now right. }
  destruct Hin as [->|Hin].
  - rewrite Hf, Hg. simpl. lia.
  - assert (IH' : (length (filter f l) < length (filter g l))%nat).
    { apply IH; auto. intros k Hk. apply H. now right. }
    destruct (f a) eqn:Ef.
    + rewrite (H a (or_introl eq_refl) Ef). simpl. lia.
    + destruct (g a); simpl; lia.
Qed.

Lemma count_eq {A : Type} (f g : A -> bool) (l : list A) :
  (forall k, In k l -> f k = true -> g k = true) ->
  length (filter f l) = length (filter g l) ->
  forall k, In k l -> g k = true -> f k = true.
Proof.
  intros H Heq k Hk Hg. destruct (f k) eqn:Ef; [reflexivity|].
  pose proof (count_lt f g l k H Hk Ef Hg). lia.
Qed.

Lemma filter_none {A : Type} (f : A -> bool) (l : list A) :
  (forall x, In x l -> f x = false) -> filter f l = [].
Proof.
  induction l as [|a l IH]; intros H; simpl; [reflexivity|].
  rewrite (H a (or_introl eq_refl)). apply IH. intros x Hx. apply H. now right.
Qed.

Lemma count_perm {A : Type} (f : A -> bool) (l l' : list A) :
  Permutation l l' -> length (filter f l) = length (filter f l').
Proof.
  induction 1; simpl; try lia.
  - destruct (f x); simpl; lia.
  - destruct (f x), (f y); simpl; lia.
Qed.

Lemma settledb_true (s : Search) (k : string) :
  settledb s k = true
  <-> exists b, Js.get (bestCostByState s) k = Some b
                /\ forall x, In x (open s) -> b <= cost x.
Proof.
  unfold settledb. destruct (Js.get (bestCostByState s) k) as [b|].
  - rewrite forallb_forall. split.
    + intros H. exists b. split; [reflexivity|].
      intros x Hx. apply leb_true_iff. now apply H.
    + intros (b' & [= <-] & H) x Hx. apply leb_true_iff. now apply H.
  - split; [discriminate | intros (b & Hb & _); discriminate].
Qed.

Lemma initialSearch_sound : frontierSound graph startId (initialSearch startId).
Proof.
  intros x [<-|[]]. simpl. split; [|split].
  - exists 0. rewrite String.eqb_refl. split; [reflexivity | lra].
  - now left.
  - constructor.
Qed.

Section Turn.

Variable s : Search.
Variable current : PathState.
Variable rest : list PathState.
Hypothesis Hsound : frontierSound graph startId s.
Hypothesis Hsort : Js.sort byCost (open s) = current :: rest.

Variable s1 : Search.
Hypothesis Hnext : s1 = expandCurrent graph weights current rest s.

Lemma turn_relaxed :
  relaxed graph startId current (outgoingOf graph (nodeId current))
    {| open := rest; bestCostByState := bestCostByState s; stateMap := stateMap s |}
    s1.
Proof. rewrite Hnext. apply relaxed_fold. auto. Qed.

Lemma current_in_frontier : In current (open s).
Proof.
  destruct (sort_head _ _ _ Hsort) as [Hperm _].
  apply (Permutation_in _ Hperm). now left.
Qed.

Lemma rest_in_frontier (x : PathState) : In x rest -> In x (open s).
Proof.
  destruct (sort_head _ _ _ Hsort) as [Hperm _]. intros Hx.
  apply (Permutation_in _ Hperm). now right.
Qed.

Lemma turn_sound : frontierSound graph startId s1.
Proof.
  destruct turn_relaxed as (pushed & Hopen & Hpushed & Hbest).
  simpl in Hopen, Hbest. intros x Hx. rewrite Hopen in Hx.
  apply in_app_or in Hx. destruct Hx as [Hx|Hx].
  - destruct (Hsound x (rest_in_frontier x Hx)) as ((b & Hb & Hle) & Hk & Hr).
    split; [|now split].
    destruct (Hbest _ _ Hb) as (b' & Hb' & Hle' & _).
    exists b'. split; [assumption | lra].
  - destruct (Hpushed x Hx) as (_ & Hk & (e & He & Hn) & _ & Hb).
    split; [assumption|]. split; [assumption|].
    rewrite Hn. apply reach_edge with (y := nodeId current); [|assumption].
    apply Hsound, current_in_frontier.
Qed.

Lemma turn_keeps_settled (k : string) :
  settledb s k = true -> settledb s1 k = true.
Proof.
  destruct turn_relaxed as (pushed & Hopen & Hpushed & Hbest).
  simpl in Hopen, Hbest. rewrite !settledb_true. intros (b & Hb & Hall).
  destruct (Hbest _ _ Hb) as (b' & Hb' & _ & Hsame).
  pose proof (Hall current current_in_frontier) as Hbc.
  rewrite (Hsame Hbc) in Hb'. exists b. split; [assumption|].
  intros x Hx. rewrite Hopen in Hx. apply in_app_or in Hx.
  destruct Hx as [Hx|Hx].
  - apply Hall. now apply rest_in_frontier.
  - destruct (Hpushed x Hx) as (Hc & _). lra.
Qed.

Lemma turn_settles_current : settledb s1 (key current) = true.
Proof.
  destruct turn_relaxed as (pushed & Hopen & Hpushed & Hbest).
  simpl in Hopen, Hbest. rewrite settledb_true.
  destruct (Hsound current current_in_frontier) as ((b & Hb & Hle) & _).
  destruct (Hbest _ _ Hb) as (b' & Hb' & _ & Hsame).
  rewrite (Hsame Hle) in Hb'. exists b. split; [assumption|].
  destruct (sort_head _ _ _ Hsort) as [_ Hmin].
  intros x Hx. rewrite Hopen in Hx. apply in_app_or in Hx.
  destruct Hx as [Hx|Hx].
  - specialize (Hmin x Hx). lra.
  - destruct (Hpushed x Hx) as (Hc & _). lra.
Qed.

Lemma turn_pushes_unsettled :
  exists pushed,
    open s1 = rest ++ pushed
    /\ forall x, In x pushed ->
         settledb s (key x) = false /\ In (key x) (allKeys graph startId).
Proof.
  destruct turn_relaxed as (pushed & Hopen & Hpushed & Hbest).
  simpl in Hopen, Hpushed. exists pushed. split; [assumption|].
  intros x Hx. destruct (Hpushed x Hx) as (_ & Hk & _ & Hnew & _).
  split; [|assumption].
  destruct (settledb s (key x)) eqn:E; [|reflexivity].
  apply settledb_true in E. destruct E as (b & Hb & Hall).
  elim (Hnew b Hb). apply Hall, current_in_frontier.
Qed.

(** Each turn of the loop settles a key, or leaves the settled keys as
    they are and takes a state of a settled key from the frontier. *)
Lemma turn_decreases :
  (unsettledKeys graph startId s1 < unsettledKeys graph startId s)%nat
  \/ (unsettledKeys graph startId s1 = unsettledKeys graph startId s
      /\ settledStates s1 < settledStates s)%nat.
Proof.
  assert (Himp : forall k, In k (allKeys graph startId) ->
            negb (settledb s1 k) = true -> negb (settledb s k) = true).
  { intros k _ H. destruct (settledb s k) eqn:E; [|reflexivity].
    now rewrite (turn_keeps_settled k E) in H. }
  pose proof (count_le _ _ _ Himp) as Hle. fold (unsettledKeys graph startId s1) in Hle.
  fold (unsettledKeys graph startId s) in Hle.
  destruct (Nat.eq_dec (unsettledKeys graph startId s1) (unsettledKeys graph startId s))
    as [Heq|Hne]; [right | left; lia].
  split; [assumption|].
  assert (Hsame : forall k, In k (allKeys graph startId) ->
            settledb s1 k = settledb s k).
  { intros k Hk. destruct (settledb s k) eqn:E.
    - now apply turn_keeps_settled.
    - pose proof (count_eq _ _ _ Himp Heq k Hk) as H. simpl in H.
      rewrite E in H. specialize (H eq_refl). now destruct (settledb s1 k). }
  destruct turn_pushes_unsettled as (pushed & Hopen & Hpushed).
  destruct (sort_head _ _ _ Hsort) as [Hperm _].
  unfold settledStates. rewrite <- (count_perm _ _ _ Hperm), Hopen.
  rewrite filter_app, length_app. simpl.
  replace (settledb s (key current)) with true.
  2:{ symmetry. rewrite <- Hsame; [apply turn_settles_current|].
      apply Hsound, current_in_frontier. }
  replace (filter (fun x => settledb s1 (key x)) pushed) with (@nil PathState).
  2:{ symmetry. apply filter_none. intros x Hx.
      destruct (Hpushed x Hx) as [Hu Hk]. now rewrite (Hsame _ Hk). }
  replace (filter (fun x => settledb s1 (key x)) rest)
    with (filter (fun x => settledb s (key x)) rest).
  2:{ apply filter_ext_in. intros x Hx. symmetry. apply Hsame.
      apply Hsound. now apply rest_in_frontier. }
  simpl. lia.
Qed.

End Turn.


Hypothesis Hunreachable : ~ reachable graph startId endId.


End Exhaustion.




Lemma nonnegLengths_createRoadGraph (nodeList : list RoadNode) (edgeList : list RoadEdge) :
  (forall edge, In edge edgeList -> 0 <= edge_lengthMeters edge) ->
  nonnegLengths (createRoadGraph nodeList edgeList).
Proof.
  intros H k e He.
  rewrite (outgoingOf_indexes _ _ k (indexes_createRoadGraph nodeList edgeList)) in He.
  apply filter_In in He. destruct He as [He _].
  apply in_flat_map in He. destruct He as (edge & Hedge & He).
  specialize (H edge Hedge). unfold expand in He.
  destruct He as [<-|He]; [exact H|].
  destruct (edge_bidirectional edge); [|now elim He].
  destruct He as [<-|[]]. exact H.
Qed.





(* ================================================================== *)
(** ** Colliding state keys *)

Lemma scoreEdgeTraversal_oneWay (id from to : string) (len : R) :
  scoreEdgeTraversal (forwardOf (oneWay id from to len)) DEFAULT_ROUTE_OBJECTIVE_WEIGHTS
  = len.
Proof.
  unfold scoreEdgeTraversal, safetyPenalty. simpl.
  rewrite Rmax_left by lra. lra.
Qed.

Lemma scoreTurn_default_bounds (p c n : Coordinate) :
  0 <= scoreTurn p c n DEFAULT_ROUTE_OBJECTIVE_WEIGHTS <= 160.
Proof.
  split; [apply scoreTurn_nonneg, default_weights_nonneg|].
  unfold scoreTurn. pose proof (angleBetweenDegrees_bounds p c n) as [H0 H180].
  simpl. destruct (Js.ltb 165 (angleBetweenDegrees p c n)); lra.
Qed.

Ltac note_turns :=
  repeat match goal with
  | |- context [scoreTurn ?p ?c ?n ?w] =>
      lazymatch goal with
      | H : 0 <= scoreTurn p c n w <= 160 |- _ => fail
      | _ => pose proof (scoreTurn_default_bounds p c n)
      end
  end.

Ltac settle_comparison :=
  match goal with
  | |- context [Js.ltb ?a ?b] =>
      first [ replace (Js.ltb a b) with true by (symmetry; apply ltb_true_iff; lra)
            | replace (Js.ltb a b) with false by (symmetry; apply ltb_false_iff; lra) ]
  | |- context [Js.leb ?a ?b] =>
      first [ replace (Js.leb a b) with true by (symmetry; apply leb_true_iff; lra)
            | replace (Js.leb a b) with false by (symmetry; apply leb_false_iff; lra) ]
  end.

Ltac settle :=
  unfold byCost; cbn [cost];
  rewrite ?scoreEdgeTraversal_oneWay; note_turns;
  repeat settle_comparison; run_search.

Ltac open_relax :=
  unfold expandCurrent, relax, nextCostOf; run_search.

(** C3. State keys are the two node ids joined by "|", so the states
    (node "a", previous "b|c") and (node "a|b", previous "c") share the key
    "a|b|c". On the graph built by [createRoadGraph] from six nodes and five
    one-way streets of at least 0 meters, at the default weights and whatever
    the coordinates, the search from "S" to "G" returns the nodes S, c, a|b,
    G with the traversals S->c, c->a|b and a->G: the third traversal leaves
    "a", not the third node "a|b", and [totalDistanceMeters] is 1002 while
    the traversed lengths add up to 3. *)
Theorem findPath_colliding_keys (cS cBC cC cA cAB cG : Coordinate) (fuel : nat) :
  (6 <= fuel)%nat ->
  exists r,
    findPath fuel {| req_graph := collidingGraph cS cBC cC cA cAB cG;
                     startNodeId := "S"; endNodeId := "G"; req_weights := None |}
    = Js.Returns r
    /\ nodeIds r = ["S"; "c"; "a|b"; "G"]
    /\ traversedEdges r
       = [forwardOf (oneWay "e2" "S" "c" 1); forwardOf (oneWay "e4" "c" "a|b" 1);
          forwardOf (oneWay "e5" "a" "G" 1)]
    /\ totalDistanceMeters r = 1002
    /\ distanceOf (traversedEdges r) = 3.
Proof.
  intros Hfuel. do 6 (destruct fuel as [|fuel]; [lia|]). clear Hfuel.
  unfold findPath, collidingGraph. cbn [req_weights req_graph startNodeId endNodeId].
  run_search. settle. settle. open_relax. settle. settle.
  eexists. split; [reflexivity|]. unfold distanceOf. simpl.
  repeat split; lra.
Qed.

Lemma findPath_colliding_keys_witness :
  exists r,
    findPath 6 {| req_graph := collidingGraph {| lat := 0; lon := 0 |}
                                 {| lat := 1; lon := 0 |} {| lat := 0; lon := 1 |}
                                 {| lat := 2; lon := 0 |} {| lat := 0; lon := 2 |}
                                 {| lat := 3; lon := 0 |};
                  startNodeId := "S"; endNodeId := "G"; req_weights := None |}
    = Js.Returns r
    /\ nodeIds r = ["S"; "c"; "a|b"; "G"]
    /\ traversedEdges r
       = [forwardOf (oneWay "e2" "S" "c" 1); forwardOf (oneWay "e4" "c" "a|b" 1);
          forwardOf (oneWay "e5" "a" "G" 1)]
    /\ totalDistanceMeters r = 1002
    /\ distanceOf (traversedEdges r) = 3.
Proof.
  apply (findPath_colliding_keys {| lat := 0; lon := 0 |}
           {| lat := 1; lon := 0 |} {| lat := 0; lon := 1 |}
           {| lat := 2; lon := 0 |} {| lat := 0; lon := 2 |}
           {| lat := 3; lon := 0 |} 6).
  lia.
Defined.

(* ================================================================== *)
(** ** The distance cap of the coverage optimizer *)

Lemma scoreEdgeTraversal_flat_safe (t : TraversableEdge) :
  hasSidewalk t = true -> litAtNight t = true -> trafficStress t = Stress1 ->
  elevationGainMeters t <= 0 ->
  scoreEdgeTraversal t DEFAULT_ROUTE_OBJECTIVE_WEIGHTS = lengthMeters t.
Proof.
  intros Hs Hl Ht He. unfold scoreEdgeTraversal, safetyPenalty.
  rewrite Hs, Hl, Ht. simpl. rewrite Rmax_left by lra. lra.
Qed.

Lemma loopGraph_nearest (cS cT : Coordinate) :
  findNearestNodeId (loopGraph cS cT) cS = Js.Returns "S".
Proof.
  unfold findNearestNodeId, loopGraph. cbn -[distanceMeters].
  unfold nearestStep. cbn -[distanceMeters]. rewrite distanceMeters_self.
  replace (distanceMeters cT cS <? 0)%Z with false.
  - reflexivity.
  - symmetry. apply Z.ltb_ge. apply distanceMeters_nonneg.
Qed.

Lemma loopGraph_out (cS cT : Coordinate) (fuel : nat) :
  (2 <= fuel)%nat ->
  exists r,
    findPath fuel {| req_graph := loopGraph cS cT; startNodeId := "S";
                     endNodeId := "T"; req_weights := None |} = Js.Returns r
    /\ traversedEdges r = [forwardOf numbered]
    /\ totalDistanceMeters r = 0 + 100.
Proof.
  intros Hfuel. do 2 (destruct fuel as [|fuel]; [lia|]).
  unfold findPath, loopGraph. run_search.
  destruct fuel; (eexists; split; [reflexivity|]; split; reflexivity).
Qed.

Lemma loopGraph_back (cS cT : Coordinate) (fuel : nat) :
  (2 <= fuel)%nat ->
  exists r,
    findPath fuel {| req_graph := loopGraph cS cT; startNodeId := "T";
                     endNodeId := "S"; req_weights := None |} = Js.Returns r
    /\ traversedEdges r = [reverseOf numbered]
    /\ totalDistanceMeters r = 0 + 100.
Proof.
  intros Hfuel. do 2 (destruct fuel as [|fuel]; [lia|]).
  unfold findPath, loopGraph. run_search.
  unfold expandCurrent, relax, nextCostOf. run_search.
  rewrite !scoreEdgeTraversal_flat_safe by (simpl; try reflexivity; lra).
  simpl lengthMeters.
  replace (Js.leb (0 + 100) (0 + 100)) with true by (symmetry; apply leb_true_iff; lra).
  run_search.
  destruct fuel; (eexists; split; [reflexivity|]; split; reflexivity).
Qed.

Lemma eqb_zero : Js.eqb 0 0 = true.
Proof. now apply eqb_true_iff. Qed.

Lemma floor_zero : Js.floor (0 / 800) = 0%Z.
Proof. unfold Js.floor. symmetry. apply Int_part_spec. simpl. lra. Qed.

Lemma zeroCap_targetLetters (cS : Coordinate) :
  normalizeAlphabet (cr_alphabet (zeroCapRequest cS)) = ALPHABET.
Proof. vm_compute. reflexivity. Qed.

Lemma loopGraph_uniqueEdges (cS cT : Coordinate) :
  uniqueEdges (loopGraph cS cT) = [forwardOf numbered; reverseOf numbered; forwardOf alpha].
Proof. unfold loopGraph. cbn. reflexivity. Qed.

Lemma zeroCap_budget : maxSelections Alphabet ALPHABET [] (Some 0) = 6%Z.
Proof. unfold maxSelections, alphabetSelectionCap. rewrite floor_zero. vm_compute. reflexivity. Qed.

Lemma truthyNumber_zero : Js.truthyNumber 0 = false.
Proof. unfold Js.truthyNumber. now rewrite eqb_zero. Qed.


Lemma selectionLoop_turn (shortestPath : FindPathRequest -> Js.outcome PathResult)
    (graph : RoadGraph) (request : CoverageRouteRequest) (budget : nat)
    (startId : string) (sel : Selection) :
  selectionLoop shortestPath graph request (S budget) startId sel
  = match filter (isCandidate request (remaining sel)) (uniqueEdges graph) with
    | [] => Js.Returns sel
    | candidates =>
        match find (fun candidate =>
                      withinDistanceBudget graph (currentDistanceMeters sel)
                        candidate (currentNodeId sel) startId
                        (cr_maxDistanceMeters request))
                (shortlistCandidates graph (currentNodeId sel) startId candidates
                   (chooseCoverageStrategy request)
                   (fold_left countLetter (uniqueEdges graph) [])
                   (usedStreetNames sel)) with
        | None => Js.Returns sel
        | Some selectedEdge =>
            toStart <- shortestPath
                         {| req_graph := graph;
                            startNodeId := currentNodeId sel;
                            endNodeId := fromNodeId selectedEdge;
                            req_weights := None |} ;;
            if match cr_maxDistanceMeters request with
               | Some c =>
                   Js.truthyNumber c
                   && Js.ltb c (currentDistanceMeters sel + totalDistanceMeters toStart
                                + lengthMeters selectedEdge)
               | None => false
               end
            then Js.Returns sel
            else
              selectionLoop shortestPath graph request budget startId
                {| currentNodeId := fromNodeId selectedEdge;
                   currentDistanceMeters :=
                     distanceOf (appendPath (traversed sel) (traversedEdges toStart));
                   traversed := appendPath (traversed sel) (traversedEdges toStart);
                   coveredLetters :=
                     match firstLetter (streetName selectedEdge) with
                     | Some l => add (coveredLetters sel) l
                     | None => coveredLetters sel
                     end;
                   matchedStreetCount :=
                     if matchesTargetStreet selectedEdge (cr_targetStreets request)
                     then (matchedStreetCount sel + 1)%Z
                     else matchedStreetCount sel;
                   usedStreetNames :=
                     Js.set (usedStreetNames sel) (toLowerCase (streetName selectedEdge))
                       (countOr (usedStreetNames sel)
                          (toLowerCase (streetName selectedEdge)) 0 + 1)%Z;
                   remaining :=
                     match firstLetter (streetName selectedEdge) with
                     | Some l => delete (remaining sel) l
                     | None => remaining sel
                     end |}
        end
    end.
Proof. reflexivity. Qed.

Lemma zeroCap_first_candidates (cS : Coordinate) :
  filter (isCandidate (zeroCapRequest cS) (remaining (initialSelection (zeroCapRequest cS) "S")))
    [forwardOf numbered; reverseOf numbered; forwardOf alpha] = [forwardOf alpha].
Proof. reflexivity. Qed.

Lemma zeroCap_selection (cS cT : Coordinate) (fuel : nat) :
  (2 <= fuel)%nat ->
  exists sel,
    selectionLoop (findPath fuel) (loopGraph cS cT) (zeroCapRequest cS) 6 "S"
      (initialSelection (zeroCapRequest cS) "S") = Js.Returns sel
    /\ currentNodeId sel = "T"
    /\ traversed sel = [forwardOf numbered].
Proof.
  intros Hfuel.
  destruct (loopGraph_out cS cT fuel Hfuel) as (out & Hout & Hout_edges & Hout_total).
  rewrite selectionLoop_turn, loopGraph_uniqueEdges, zeroCap_first_candidates.
  unfold shortlistCandidates. cbn [map Js.sort fold_right Js.insertBy firstn fst find].
  unfold withinDistanceBudget. cbn [cr_maxDistanceMeters zeroCapRequest].
  rewrite truthyNumber_zero.
  cbn [currentNodeId initialSelection fromNodeId forwardOf alpha flatEdge edge_fromNodeId].
  rewrite Hout. cbn [Js.bind andb].
  rewrite selectionLoop_turn, loopGraph_uniqueEdges. cbn [remaining].
  replace (filter _ [forwardOf numbered; reverseOf numbered; forwardOf alpha])
    with (@nil TraversableEdge) by reflexivity.
  eexists. split; [reflexivity|]. cbn [currentNodeId traversed].
  split; [reflexivity|]. rewrite Hout_edges. reflexivity.
Qed.

(** C4. The cap is tested for truthiness, and 0 is falsy: with
    [maxDistanceMeters = 0] the optimizer runs as if no cap were set. On the
    graph of the two-way street "101" between S and T and the one-way street
    "Alpha" from T to S, each of 100 meters, an alphabet request from S with
    a cap of 0 returns, with the in-memory search, the route S -> T -> S: the
    way back is appended and [distanceMeters] is 200, more than the cap plus
    one edge. *)
Theorem coverage_zero_cap (cS cT : Coordinate) (fuel : nat) (clock : Clock) :
  (2 <= fuel)%nat ->
  exists r,
    optimizeCoverageRoute (findPath fuel) (loopGraph cS cT) (zeroCapRequest cS) clock
    = Js.Returns r
    /\ route_segments r
       = [{| seg_from := cS; seg_to := cT; seg_streetName := Some "101" |};
          {| seg_from := cT; seg_to := cS; seg_streetName := Some "101" |}]
    /\ route_distanceMeters r = 200
    /\ (forall e, In e (uniqueEdges (loopGraph cS cT)) -> lengthMeters e = 100).
Proof.
  intros Hfuel.
  destruct (zeroCap_selection cS cT fuel Hfuel) as (sel & Hsel & Hcur & Htrav).
  destruct (loopGraph_back cS cT fuel Hfuel) as (back & Hback & Hback_edges & Hback_total).
  unfold optimizeCoverageRoute. rewrite loopGraph_nearest. cbn [Js.bind].
  rewrite zeroCap_targetLetters.
  cbn [chooseCoverageStrategy zeroCapRequest cr_strategy cr_targetStreets
       cr_maxDistanceMeters].
  rewrite zeroCap_budget. change (Z.to_nat 6) with 6%nat.
  change {| cr_name := "Coverage Route"; cr_targetStreets := []; cr_start := cS;
            cr_strategy := None; cr_maxDistanceMeters := Some 0;
            cr_alphabet := None; cr_area := None |} with (zeroCapRequest cS).
  rewrite Hsel. cbn [Js.bind]. rewrite Hcur, Hback. cbn [Js.bind].
  eexists. split; [reflexivity|]. cbn [route_segments route_distanceMeters].
  unfold returnFits. cbn [cr_maxDistanceMeters zeroCapRequest].
  rewrite truthyNumber_zero. cbn [negb orb]. unfold appendPath.
  rewrite Htrav, Hback_edges. split; [reflexivity|]. split.
  - unfold distanceOf. simpl. lra.
  - rewrite loopGraph_uniqueEdges. intros e [<-|[<-|[<-|[]]]]; reflexivity.
Qed.

Lemma coverage_zero_cap_witness :
  exists r,
    optimizeCoverageRoute (findPath 2)
      (loopGraph {| lat := 0; lon := 0 |} {| lat := 0; lon := 1 |})
      (zeroCapRequest {| lat := 0; lon := 0 |})
      {| dateNow := 0; isoString := "1970-01-01T00:00:00.000Z" |}
    = Js.Returns r
    /\ route_segments r
       = [{| seg_from := {| lat := 0; lon := 0 |}; seg_to := {| lat := 0; lon := 1 |};
             seg_streetName := Some "101" |};
          {| seg_from := {| lat := 0; lon := 1 |}; seg_to := {| lat := 0; lon := 0 |};
             seg_streetName := Some "101" |}]
    /\ route_distanceMeters r = 200
    /\ (forall e,
          In e (uniqueEdges (loopGraph {| lat := 0; lon := 0 |} {| lat := 0; lon := 1 |})) ->
          lengthMeters e = 100).
Proof.
  apply (coverage_zero_cap {| lat := 0; lon := 0 |} {| lat := 0; lon := 1 |} 2
           {| dateNow := 0; isoString := "1970-01-01T00:00:00.000Z" |}).
  lia.
Defined.

(* ================================================================== *)
(** ** Further properties of the scoring functions *)

(** X1. With weights of at least 0 the cost of traversing an edge of
    non-negative length is at least its length times the distance weight,
    and so at least 0: elevation and safety only add to it. *)
Theorem scoreEdgeTraversal_at_least_distance (edge : TraversableEdge)
    (w : RouteObjectiveWeights) :
  nonnegWeights w -> 0 <= lengthMeters edge ->
  0 <= lengthMeters edge * w_distance w <= scoreEdgeTraversal edge w.
Proof.
  intros (Hd & He & _ & Hs & _) Hlen. unfold scoreEdgeTraversal.
  pose proof (safetyPenalty_nonneg edge) as Hp.
  pose proof (Rmax_l 0 (elevationGainMeters edge)) as Hm.
  assert (0 <= lengthMeters edge * w_distance w) by nra.
  assert (0 <= Rmax 0 (elevationGainMeters edge) * w_elevation w) by nra.
  assert (0 <= safetyPenalty edge * 100 * w_safety w) by nra.
  lra.
Qed.

Lemma scoreEdgeTraversal_at_least_distance_witness :
  0 <= lengthMeters (forwardOf danglingEdge) * w_distance DEFAULT_ROUTE_OBJECTIVE_WEIGHTS
    <= scoreEdgeTraversal (forwardOf danglingEdge) DEFAULT_ROUTE_OBJECTIVE_WEIGHTS.
Proof.
  apply scoreEdgeTraversal_at_least_distance.
  - apply default_weights_nonneg.
  - simpl. lra.
Defined.







(* ================================================================== *)
(** ** Further properties of graph construction *)

(** X5. The adjacency index of a built graph is consistent: a traversal
    listed under a node id leaves that node, and is the forward traversal of
    an edge of the edge list or the reverse traversal of a bidirectional
    one. *)
Theorem createRoadGraph_adjacency (nodeList : list RoadNode) (edgeList : list RoadEdge)
    (k : string) (t : TraversableEdge) :
  In t (outgoingOf (createRoadGraph nodeList edgeList) k) ->
  fromNodeId t = k
  /\ exists edge, In edge edgeList
       /\ (t = forwardOf edge \/ (edge_bidirectional edge = true /\ t = reverseOf edge)).
Proof.
  intros Ht.
  rewrite (outgoingOf_indexes _ _ k (indexes_createRoadGraph nodeList edgeList)) in Ht.
  apply filter_In in Ht. destruct Ht as [Ht Hk]. split.
  - now apply String.eqb_eq.
  - apply in_flat_map in Ht. destruct Ht as (edge & Hedge & Ht).
    exists edge. split; [assumption|]. unfold expand in Ht.
    destruct Ht as [<-|Ht]; [now left|].
    destruct (edge_bidirectional edge); [|now elim Ht].
    destruct Ht as [<-|[]]. right. now split.
Qed.

Lemma createRoadGraph_adjacency_witness :
  fromNodeId (reverseOf danglingEdge) = "B"
  /\ exists edge, In edge [danglingEdge]
       /\ (reverseOf danglingEdge = forwardOf edge
           \/ (edge_bidirectional edge = true /\ reverseOf danglingEdge = reverseOf edge)).
Proof.
  apply (createRoadGraph_adjacency [] [danglingEdge] "B" (reverseOf danglingEdge)).
  simpl. now left.
Defined.

Lemma find_append {A : Type} (f : A -> bool) (l l' : list A) :
  find f (l ++ l') = match find f l with Some x => Some x | None => find f l' end.
Proof.
  induction l as [|a l IH]; simpl; [reflexivity|]. now destruct (f a).
Qed.

Lemma get_ofEntries_last {V : Type} (entries : list (string * V)) (m : Js.Map V)
    (k : string) :
  Js.get (fold_left (fun m kv => Js.set m (fst kv) (snd kv)) entries m) k
  = match find (fun kv => String.eqb (fst kv) k) (rev entries) with
    | Some kv => Some (snd kv)
    | None => Js.get m k
    end.
Proof.
  revert m. induction entries as [|[k' v'] entries IH]; intros m; simpl; [reflexivity|].
  rewrite IH. rewrite find_append.
  destruct (find (fun kv => String.eqb (fst kv) k) (rev entries)); [reflexivity|].
  simpl. destruct (String.eqb k' k) eqn:E.
  - apply String.eqb_eq in E. subst. now rewrite get_set_same.
  - apply String.eqb_neq in E. now rewrite get_set_other.
Qed.

(** X6. Duplicate ids: the last write wins. The node map gives for an id
    the last node of the node list that has it, the edge map the last edge
    of the edge list that has it, and nothing for an id no element has. *)
Theorem createRoadGraph_last_write_wins (nodeList : list RoadNode)
    (edgeList : list RoadEdge) (id : string) :
  Js.get (nodes (createRoadGraph nodeList edgeList)) id
  = find (fun node => String.eqb (node_id node) id) (rev nodeList)
  /\ Js.get (edges (createRoadGraph nodeList edgeList)) id
     = find (fun edge => String.eqb (edge_id edge) id) (rev edgeList).
Proof.
  unfold createRoadGraph, Js.ofEntries. simpl. rewrite !get_ofEntries_last.
  rewrite <- !map_rev. split.
  - induction (rev nodeList) as [|n l IH]; simpl; [reflexivity|].
    destruct (String.eqb (node_id n) id); [reflexivity | exact IH].
  - induction (rev edgeList) as [|e l IH]; simpl; [reflexivity|].
    destruct (String.eqb (edge_id e) id); [reflexivity | exact IH].
Qed.

(* ================================================================== *)
(** ** The street-candidate graph *)

Lemma In_firstn {A : Type} (n : nat) (l : list A) (x : A) :
  In x (firstn n l) -> In x l.
Proof.
  revert l. induction n as [|n IH]; intros [|a l]; simpl; try tauto.
  intros [->|H]; [now left | right; now apply IH].
Qed.

Lemma nearestNeighbors_spec (nodeList : list RoadNode) (fromNode : RoadNode)
    (neighbor : RoadNode * Z) :
  In neighbor (nearestNeighbors nodeList fromNode) ->
  In (fst neighbor) nodeList
  /\ node_id (fst neighbor) <> node_id fromNode
  /\ snd neighbor
     = distanceMeters (node_coordinate fromNode) (node_coordinate (fst neighbor)).
Proof.
  unfold nearestNeighbors. intros H. apply In_firstn in H.
  apply (Permutation_in _ (sort_perm _ _)) in H.
  apply in_map_iff in H. destruct H as (node & <- & Hn).
  apply filter_In in Hn. destruct Hn as [Hin Hne]. simpl.
  split; [assumption|]. split; [|reflexivity].
  intros Heq. rewrite Heq, String.eqb_refl in Hne. discriminate.
Qed.

Lemma nearestNeighbors_length (nodeList : list RoadNode) (fromNode : RoadNode) :
  (length (nearestNeighbors nodeList fromNode) <= 5)%nat.
Proof. unfold nearestNeighbors. apply firstn_le_length. Qed.

Lemma connector_connects (streets : list StreetCandidate) (nodeById : Js.Map RoadNode)
    (nodeList : list RoadNode) (fromNode : RoadNode) (count : nat)
    (neighbor : RoadNode * Z) :
  In fromNode nodeList ->
  In neighbor (nearestNeighbors nodeList fromNode) ->
  connects nodeList (connector streets nodeById count fromNode neighbor).
Proof.
  intros Hfrom Hnb. destruct (nearestNeighbors_spec _ _ _ Hnb) as (Hin & Hne & Hd).
  unfold connects. simpl. repeat split.
  - now apply in_map.
  - now apply in_map.
  - congruence.
  - rewrite Hd. apply IZR_le. apply distanceMeters_nonneg.
Qed.

Lemma numbered_push (es : list RoadEdge) (e : RoadEdge) :
  numberedIds es -> edge_id e = ("s-" ++ decimal (length es))%string ->
  numberedIds (es ++ [e]).
Proof.
  intros Hn He i e' Hi. destruct (Nat.lt_ge_cases i (length es)) as [Hlt|Hge].
  - rewrite nth_error_app1 in Hi by assumption. now apply Hn.
  - rewrite nth_error_app2 in Hi by assumption.
    destruct (i - length es)%nat as [|j] eqn:Ej; simpl in Hi.
    + injection Hi as <-. rewrite He. f_equal. f_equal. lia.
    + now destruct j.
Qed.

Lemma connect_fold (streets : list StreetCandidate) (nodeById : Js.Map RoadNode)
    (nodeList : list RoadNode) (fromNode : RoadNode) (neighbors : list (RoadNode * Z)) :
  In fromNode nodeList ->
  (forall nb, In nb neighbors -> In nb (nearestNeighbors nodeList fromNode)) ->
  forall acc, connected nodeList acc ->
    let r := fold_left (fun acc neighbor =>
                          (fst acc ++ [connector streets nodeById (snd acc) fromNode neighbor],
                           S (snd acc))) neighbors acc in
    connected nodeList r
    /\ length (fst r) = (length (fst acc) + length neighbors)%nat.
Proof.
  intros Hfrom. induction neighbors as [|nb neighbors IH]; intros Hnbs acc Hacc; simpl.
  - split; [assumption | lia].
  - destruct Hacc as (Hc & Hall & Hnum).
    destruct (IH (fun x Hx => Hnbs x (or_intror Hx))
                (fst acc ++ [connector streets nodeById (snd acc) fromNode nb], S (snd acc)))
      as [Hconn Hlen].
    + split; [|split]; simpl.
      * rewrite length_app. simpl. lia.
      * apply Forall_app. split; [assumption|]. constructor; [|constructor].
        apply connector_connects; [assumption|]. apply Hnbs. now left.
      * apply numbered_push; [assumption|]. simpl. now rewrite Hc.
    + split; [exact Hconn|]. rewrite Hlen. simpl. rewrite length_app. simpl. lia.
Qed.

Lemma connectNode_connected (streets : list StreetCandidate) (nodeById : Js.Map RoadNode)
    (nodeList : list RoadNode) (fromNode : RoadNode) (acc : list RoadEdge * nat) :
  In fromNode nodeList -> connected nodeList acc ->
  connected nodeList (connectNode streets nodeById nodeList acc fromNode)
  /\ (length (fst (connectNode streets nodeById nodeList acc fromNode))
      <= length (fst acc) + 5)%nat.
Proof.
  intros Hfrom Hacc. unfold connectNode.
  destruct (connect_fold streets nodeById nodeList fromNode
              (nearestNeighbors nodeList fromNode) Hfrom (fun nb H => H) acc Hacc)
    as [Hconn Hlen].
  split; [exact Hconn|]. rewrite Hlen.
  pose proof (nearestNeighbors_length nodeList fromNode). lia.
Qed.

Lemma connect_all (streets : list StreetCandidate) (nodeById : Js.Map RoadNode)
    (nodeList : list RoadNode) (froms : list RoadNode) :
  (forall n, In n froms -> In n nodeList) ->
  forall acc, connected nodeList acc ->
    let r := fold_left (connectNode streets nodeById nodeList) froms acc in
    connected nodeList r
    /\ (length (fst r) <= length (fst acc) + 5 * length froms)%nat.
Proof.
  induction froms as [|fromNode froms IH]; intros Hfroms acc Hacc; cbv zeta.
  - simpl. split; [assumption | lia].
  - change (fold_left (connectNode streets nodeById nodeList) (fromNode :: froms) acc)
      with (fold_left (connectNode streets nodeById nodeList) froms
              (connectNode streets nodeById nodeList acc fromNode)).
    change (length (fromNode :: froms)) with (S (length froms)).
    destruct (connectNode_connected streets nodeById nodeList fromNode acc
                (Hfroms _ (or_introl eq_refl)) Hacc) as [Hconn Hlen].
    destruct (IH (fun n Hn => Hfroms n (or_intror Hn)) _ Hconn) as [Hconn' Hlen'].
    split; [exact Hconn'|]. cbv zeta in Hlen'. lia.
Qed.

Lemma In_skipn {A : Type} (n : nat) (l : list A) (x : A) :
  In x (skipn n l) -> In x l.
Proof.
  revert l. induction n as [|n IH]; intros [|y l] H; simpl in *; auto.
Qed.

Section SortByKey.

Context {A : Type}.
Variable keyOf : A -> Z.

Let cmp (a b : A) : R := IZR (keyOf a) - IZR (keyOf b).
Let ascending (a b : A) : Prop := (keyOf a <= keyOf b)%Z.

Lemma insertBy_ascending (x : A) (l : list A) :
  StronglySorted ascending l -> StronglySorted ascending (Js.insertBy cmp x l).
Proof.
  induction l as [|y l IH]; intros Hs; simpl.
  - repeat constructor.
  - inversion Hs as [|? ? Hl Hy]; subst.
    destruct (Js.ltb 0 (cmp x y)) eqn:E.
    + apply ltb_true_iff in E. unfold cmp in E.
      assert (keyOf y < keyOf x)%Z by (apply lt_IZR; lra).
      constructor; [now apply IH|].
      eapply Permutation_Forall; [symmetry; apply insertBy_perm|].
      constructor; [unfold ascending; lia | assumption].
    + apply ltb_false_iff in E. unfold cmp in E.
      assert (keyOf x <= keyOf y)%Z by (apply le_IZR; lra).
      constructor; [assumption|].
      constructor; [assumption|].
      eapply Forall_impl; [|exact Hy]. unfold ascending. intros; simpl in *; lia.
Qed.

Lemma sort_ascending (l : list A) : StronglySorted ascending (Js.sort cmp l).
Proof.
  induction l as [|x l IH]; simpl; [constructor|]. now apply insertBy_ascending.
Qed.

Lemma sorted_firstn (n : nat) (l : list A) :
  StronglySorted ascending l ->
  StronglySorted ascending (firstn n l)
  /\ forall a b, In a (firstn n l) -> In b (skipn n l) -> ascending a b.
Proof.
  revert l. induction n as [|n IH]; intros l Hs.
  - split; [constructor | intros a b []].
  - destruct l as [|x l]; [split; [constructor | intros a b []]|].
    inversion Hs as [|? ? Hl Hx]; subst. destruct (IH l Hl) as [Hf Hcut].
    simpl. split.
    + constructor; [assumption|]. rewrite Forall_forall in *.
      intros a Ha. apply Hx. eapply In_firstn; eassumption.
    + intros a b [<-|Ha] Hb; [|now apply Hcut].
      rewrite Forall_forall in Hx. apply Hx. eapply In_skipn; eassumption.
Qed.

End SortByKey.

Lemma nearestNeighbors_nearest (nodeList : list RoadNode) (fromNode : RoadNode) :
  nearestOthers nodeList fromNode (nearestNeighbors nodeList fromNode).
Proof.
  unfold nearestOthers, nearestNeighbors. fold (othersOf nodeList fromNode).
  set (others := othersOf nodeList fromNode).
  set (measured := map (fun node =>
                          (node, distanceMeters (node_coordinate fromNode)
                                   (node_coordinate node))) others).
  set (sorted := Js.sort (fun a b => IZR (snd a) - IZR (snd b)) measured).
  assert (Hperm : Permutation sorted measured) by apply sort_perm.
  assert (Hdist : forall nb, In nb sorted ->
            snd nb = distanceMeters (node_coordinate fromNode) (node_coordinate (fst nb))).
  { intros nb Hnb. apply (Permutation_in _ Hperm) in Hnb.
    apply in_map_iff in Hnb. destruct Hnb as (node & <- & _). reflexivity. }
  destruct (sorted_firstn (@snd RoadNode Z) 5 sorted (sort_ascending _ measured))
    as [Hsorted Hcut].
  split; [|split; [|split]].
  - rewrite length_firstn. f_equal.
    rewrite (Permutation_length Hperm). unfold measured. apply length_map.
  - intros nb Hnb. apply Hdist. eapply In_firstn; eassumption.
  - exact Hsorted.
  - exists (map fst (skipn 5 sorted)). split.
    + rewrite <- map_app, firstn_skipn. rewrite Hperm. unfold measured.
      rewrite map_map. simpl. rewrite map_id. reflexivity.
    + intros nb other Hnb Hother. apply in_map_iff in Hother.
      destruct Hother as (b & <- & Hb).
      rewrite <- (Hdist b) by (eapply In_skipn; eassumption).
      now apply Hcut.
Qed.

Lemma connectNode_ends (streets : list StreetCandidate) (nodeById : Js.Map RoadNode)
    (fromNode : RoadNode) (neighbors : list (RoadNode * Z)) :
  forall acc : list RoadEdge * nat,
    map endsOf
      (fst (fold_left (fun acc neighbor =>
                         (fst acc ++ [connector streets nodeById (snd acc) fromNode neighbor],
                          S (snd acc))) neighbors acc))
    = map endsOf (fst acc)
      ++ map (fun nb => (node_id fromNode, node_id (fst nb), IZR (snd nb))) neighbors.
Proof.
  induction neighbors as [|nb neighbors IH]; intros acc; simpl.
  - now rewrite app_nil_r.
  - rewrite IH. simpl. rewrite map_app, <- app_assoc. reflexivity.
Qed.

Lemma connectAll_ends (streets : list StreetCandidate) (nodeById : Js.Map RoadNode)
    (nodeList froms : list RoadNode) :
  forall acc : list RoadEdge * nat,
    map endsOf (fst (fold_left (connectNode streets nodeById nodeList) froms acc))
    = map endsOf (fst acc)
      ++ flat_map (fun fromNode =>
                     map (fun nb => (node_id fromNode, node_id (fst nb), IZR (snd nb)))
                       (nearestNeighbors nodeList fromNode))
           froms.
Proof.
  induction froms as [|fromNode froms IH]; intros acc; simpl.
  - now rewrite app_nil_r.
  - rewrite IH. unfold connectNode. rewrite connectNode_ends, <- app_assoc. reflexivity.
Qed.

(** X8. For coordinates in degrees, the edges of the street-candidate graph
    are, by their ends and lengths and in order, those from each node in turn
    to each of its nearest neighbors; the neighbors of a node are its five
    nearest other nodes (all of them if there are fewer), each with its
    distance as length, in ascending order of distance, no node left out
    being nearer than one of them. Every edge joins two nodes of the graph
    of different ids, is two-way and has a length of at least 0; the edges
    carry the ids "s-0", "s-1", ... in order. So every edge refers to nodes
    of the node map, and every indexed traversal has a non-negative
    length. *)
Theorem createStreetAreaGraph_mesh (start : Coordinate) (streets : list StreetCandidate) :
  geographic start ->
  (forall street, In street streets -> geographic (street_coordinate street)) ->
  let nodeList := streetAreaNodes start streets in
  let edgeList := streetAreaEdges start streets in
  map endsOf edgeList = meshEnds nodeList
  /\ (forall fromNode, In fromNode nodeList ->
        nearestOthers nodeList fromNode (nearestNeighbors nodeList fromNode))
  /\ Forall (connects nodeList) edgeList
  /\ numberedIds edgeList
  /\ edgesReferToNodes (createStreetAreaGraph start streets) edgeList
  /\ nonnegLengths (createStreetAreaGraph start streets).
Proof.
  intros _ _ nodeList edgeList.
  destruct (connect_all streets
              (Js.ofEntries (map (fun node => (node_id node, node)) nodeList))
              nodeList nodeList (fun n H => H) ([], O)) as [(_ & Hall & Hnum) _].
  { split; [reflexivity|]. split; [constructor|]. intros [|i] e H; discriminate. }
  change (fst (fold_left _ nodeList ([], O))) with edgeList in Hall, Hnum.
  split; [|split; [|split; [exact Hall|split; [exact Hnum|split]]]].
  - unfold edgeList, streetAreaEdges. cbv zeta. fold nodeList.
    rewrite connectAll_ends. reflexivity.
  - intros fromNode _. apply nearestNeighbors_nearest.
  - intros edge Hedge. rewrite Forall_forall in Hall.
    destruct (Hall edge Hedge) as (Hf & Ht & _). unfold createStreetAreaGraph.
    fold nodeList edgeList. split; now apply nodes_createRoadGraph.
  - apply nonnegLengths_createRoadGraph. intros edge Hedge.
    rewrite Forall_forall in Hall. now destruct (Hall edge Hedge) as (_ & _ & _ & _ & H).
Qed.

Lemma createStreetAreaGraph_mesh_witness :
  let nodeList := streetAreaNodes {| lat := 0; lon := 0 |} oneStreet in
  let edgeList := streetAreaEdges {| lat := 0; lon := 0 |} oneStreet in
  map endsOf edgeList = meshEnds nodeList
  /\ (forall fromNode, In fromNode nodeList ->
        nearestOthers nodeList fromNode (nearestNeighbors nodeList fromNode))
  /\ Forall (connects nodeList) edgeList
  /\ numberedIds edgeList
  /\ edgesReferToNodes (createStreetAreaGraph {| lat := 0; lon := 0 |} oneStreet) edgeList
  /\ nonnegLengths (createStreetAreaGraph {| lat := 0; lon := 0 |} oneStreet).
Proof.
  apply (createStreetAreaGraph_mesh {| lat := 0; lon := 0 |} oneStreet).
  - unfold geographic. simpl. lra.
  - intros street [<-|[]]. unfold geographic. simpl. lra.
Defined.


(* ================================================================== *)
(** ** The distance budget of the coverage optimizer *)

Lemma find_none {A : Type} (f : A -> bool) (l : list A) :
  (forall x, In x l -> f x = false) -> find f l = None.
Proof.
  induction l as [|a l IH]; intros H; simpl; [reflexivity|].
  rewrite (H a (or_introl eq_refl)). apply IH. intros x Hx. apply H. now right.
Qed.

Lemma shortlist_subset (graph : RoadGraph) (currentId startId : string)
    (candidates : list TraversableEdge) (strategy : Strategy)
    (letterFrequency used : Js.Map Z) (e : TraversableEdge) :
  In e (shortlistCandidates graph currentId startId candidates strategy
          letterFrequency used) ->
  In e candidates.
Proof.
  unfold shortlistCandidates. intros H. apply in_map_iff in H.
  destruct H as ([e' score] & <- & H). apply In_firstn in H.
  apply (Permutation_in _ (sort_perm _ _)) in H.
  apply in_map_iff in H. destruct H as (e'' & [= <- _] & H). exact H.
Qed.

Lemma approximateNodeDistanceMeters_nonneg (graph : RoadGraph) (a b : string) :
  0 <= IZR (approximateNodeDistanceMeters graph a b).
Proof.
  apply IZR_le. unfold approximateNodeDistanceMeters.
  destruct (Js.get (nodes graph) a); [|lia].
  destruct (Js.get (nodes graph) b); [|lia].
  apply approximateDistanceMeters_nonneg.
Qed.

Lemma truthyNumber_true (c : R) : c <> 0 -> Js.truthyNumber c = true.
Proof.
  intros Hc. unfold Js.truthyNumber. destruct (Js.eqb c 0) eqn:E; [|reflexivity].
  apply eqb_true_iff in E. contradiction.
Qed.

Lemma distanceOf_from (edgeList : list TraversableEdge) (x : R) :
  fold_left (fun sum edge => sum + lengthMeters edge) edgeList x
  = x + distanceOf edgeList.
Proof.
  unfold distanceOf. revert x. induction edgeList as [|e l IH]; intros x; simpl.
  - lra.
  - rewrite IH, (IH (0 + lengthMeters e)). lra.
Qed.

Lemma distanceOf_app (a b : list TraversableEdge) :
  distanceOf (a ++ b) = distanceOf a + distanceOf b.
Proof. unfold distanceOf at 1. rewrite fold_left_app. apply distanceOf_from. Qed.

(** With a cap that is not 0 and below the length of every edge, no
    candidate is within the budget: the selection loop stops at once. *)
Lemma selectionLoop_nothing_fits (shortestPath : FindPathRequest -> Js.outcome PathResult)
    (graph : RoadGraph) (request : CoverageRouteRequest) (c : R) (budget : nat)
    (startId : string) (sel : Selection) :
  cr_maxDistanceMeters request = Some c -> c <> 0 ->
  (forall e, In e (uniqueEdges graph) -> c < lengthMeters e) ->
  0 <= currentDistanceMeters sel ->
  selectionLoop shortestPath graph request budget startId sel = Js.Returns sel.
Proof.
  intros Hcap Hc Hedges Hcur. destruct budget as [|budget]; [reflexivity|].
  rewrite selectionLoop_turn.
  destruct (filter (isCandidate request (remaining sel)) (uniqueEdges graph))
    as [|e0 candidates] eqn:Ef; [reflexivity|].
  rewrite find_none; [reflexivity|].
  intros e He. apply shortlist_subset in He. rewrite <- Ef in He.
  apply filter_In in He. destruct He as [He _].
  unfold withinDistanceBudget. rewrite Hcap, (truthyNumber_true c Hc).
  apply leb_false_iff. specialize (Hedges e He).
  pose proof (approximateNodeDistanceMeters_nonneg graph (currentNodeId sel) (fromNodeId e)).
  pose proof (approximateNodeDistanceMeters_nonneg graph (toNodeId e) startId).
  lra.
Qed.

Lemma findPath_self (fuel : nat) (graph : RoadGraph) (s : string) :
  (1 <= fuel)%nat ->
  findPath fuel {| req_graph := graph; startNodeId := s; endNodeId := s;
                   req_weights := None |}
  = Js.Returns {| nodeIds := [s]; traversedEdges := [];
                  totalDistanceMeters := 0; totalCost := 0 |}.
Proof.
  intros Hfuel. destruct fuel as [|fuel]; [lia|].
  unfold findPath, initialSearch. simpl.
  rewrite String.eqb_refl.
  unfold reconstructPath. simpl walkBack.
  rewrite createKey_truthy, String.eqb_refl. simpl.
  destruct fuel; reflexivity.
Qed.

(** X9. A cap that is not 0 and smaller than every edge of the graph leaves
    the route empty: with the in-memory search, whenever the start snaps to a
    node, the optimizer returns a route without segments and of distance 0
    (no anchor is selected, and the way back from the start to itself has no
    edge). *)
Theorem coverage_cap_below_every_edge (graph : RoadGraph)
    (request : CoverageRouteRequest) (clock : Clock) (c : R) (fuel : nat)
    (startId : string) :
  cr_maxDistanceMeters request = Some c -> c <> 0 ->
  (forall e, In e (uniqueEdges graph) -> c < lengthMeters e) ->
  (1 <= fuel)%nat ->
  findNearestNodeId graph (cr_start request) = Js.Returns startId ->
  exists r,
    optimizeCoverageRoute (findPath fuel) graph request clock = Js.Returns r
    /\ route_segments r = [] /\ route_distanceMeters r = 0.
Proof.
  intros Hcap Hc Hedges Hfuel Hstart. unfold optimizeCoverageRoute.
  rewrite Hstart. cbn [Js.bind].
  rewrite (selectionLoop_nothing_fits _ _ _ c _ _ _ Hcap Hc Hedges)
    by (simpl; lra).
  cbn [Js.bind currentNodeId initialSelection].
  rewrite (findPath_self fuel graph startId Hfuel). cbn [Js.bind].
  eexists. split; [reflexivity|].
  cbn [route_segments route_distanceMeters traversed initialSelection traversedEdges
       appendPath app].
  destruct (returnFits request _ _); split; reflexivity.
Qed.

Section Budget.

Variable shortestPath : FindPathRequest -> Js.outcome PathResult.
Variable graph : RoadGraph.
Variable request : CoverageRouteRequest.
Variable c : R.

(** The node ids the adapter reports its length from. *)
Variable goodStart : string -> Prop.
Hypothesis Hadapter : forall from to result,
  goodStart from ->
  shortestPath {| req_graph := graph; startNodeId := from; endNodeId := to;
                  req_weights := None |} = Js.Returns result ->
  totalDistanceMeters result = distanceOf (traversedEdges result).
Hypothesis Hstarts : forall e, In e (uniqueEdges graph) -> goodStart (fromNodeId e).
Hypothesis Hcap : cr_maxDistanceMeters request = Some c.
Hypothesis Hc : 0 < c.
Hypothesis Hlengths : forall e, In e (uniqueEdges graph) -> 0 <= lengthMeters e.

Lemma selectionLoop_withinCap (budget : nat) (startId : string) :
  forall sel sel',
    withinCap c sel -> goodStart (currentNodeId sel) ->
    selectionLoop shortestPath graph request budget startId sel = Js.Returns sel' ->
    withinCap c sel' /\ goodStart (currentNodeId sel').
Proof.
  induction budget as [|budget IH]; intros sel sel' Hsel Hgood Hrun.
  - injection Hrun as <-. now split.
  - rewrite selectionLoop_turn in Hrun.
    destruct (filter (isCandidate request (remaining sel)) (uniqueEdges graph))
      as [|e0 candidates] eqn:Ef; [injection Hrun as <-; now split|].
    destruct (find _ _) as [selectedEdge|] eqn:Efind;
      [|injection Hrun as <-; now split].
    apply find_some in Efind. destruct Efind as [Hin _].
    apply shortlist_subset in Hin. rewrite <- Ef in Hin.
    apply filter_In in Hin. destruct Hin as [Hin _].
    pose proof (Hlengths _ Hin) as Hlen.
    destruct (shortestPath _) as [toStart|m|] eqn:Epath; simpl in Hrun;
      try discriminate.
    rewrite Hcap in Hrun. rewrite truthyNumber_true in Hrun by lra.
    simpl in Hrun.
    destruct (Js.ltb c _) eqn:Eover; [injection Hrun as <-; now split|].
    apply ltb_false_iff in Eover.
    apply (IH _ _) in Hrun; [exact Hrun | | now apply Hstarts].
    destruct Hsel as [Hcur Hle]. split; simpl; [reflexivity|].
    unfold appendPath. rewrite distanceOf_app.
    rewrite <- (Hadapter _ _ _ Hgood Epath). lra.
Qed.

Lemma coverage_withinCap (clock : Clock) (r : GeneratedRoute) :
  (forall startId, findNearestNodeId graph (cr_start request) = Js.Returns startId ->
     goodStart startId) ->
  optimizeCoverageRoute shortestPath graph request clock = Js.Returns r ->
  route_distanceMeters r <= c.
Proof.
  unfold optimizeCoverageRoute. intros Hnear Hrun.
  destruct (findNearestNodeId graph (cr_start request)) as [startId|m|];
    simpl in Hrun; try discriminate.
  destruct (selectionLoop _ _ _ _ _ _) as [sel|m|] eqn:Eloop;
    simpl in Hrun; try discriminate.
  apply selectionLoop_withinCap in Eloop;
    [|split; simpl; [reflexivity | unfold distanceOf; simpl; lra]
     |now apply Hnear].
  destruct Eloop as [[Hcur Hle] Hgood].
  destruct (shortestPath _) as [returnPath|m|] eqn:Epath; simpl in Hrun;
    try discriminate.
  injection Hrun as <-. simpl.
  unfold returnFits. rewrite Hcap, truthyNumber_true by lra. simpl.
  destruct (Js.leb _ c) eqn:Efits; [|exact Hle].
  apply leb_true_iff in Efits. unfold appendPath. rewrite distanceOf_app.
  rewrite <- (Hadapter _ _ _ Hgood Epath). lra.
Qed.

End Budget.

(** X10. The distance cap is respected where the sums of lengths are exact:
    when the cap is above 0 and at most [Number.MAX_SAFE_INTEGER], the edges
    of the graph and those the search adapter returns have lengths in whole
    meters of at least 0, and the adapter reports as total distance the
    length of the edges it returns, every route the coverage optimizer
    returns has [distanceMeters] of at most the cap. *)
Theorem optimizeCoverageRoute_within_cap
    (shortestPath : FindPathRequest -> Js.outcome PathResult) (graph : RoadGraph)
    (request : CoverageRouteRequest) (c : R)
    (Hadapter : reportsItsLength shortestPath)
    (Hwhole : forall q result, shortestPath q = Js.Returns result ->
              Forall (fun e => wholeMeters (lengthMeters e)) (traversedEdges result))
    (Hcap : cr_maxDistanceMeters request = Some c)
    (Hc : 0 < c)
    (Hsafe : c <= MAX_SAFE_INTEGER)
    (Hlengths : forall e, In e (uniqueEdges graph) -> wholeMeters (lengthMeters e))
    (clock : Clock) (r : GeneratedRoute) :
  optimizeCoverageRoute shortestPath graph request clock = Js.Returns r ->
  route_distanceMeters r <= c.
Proof.
  apply (coverage_withinCap shortestPath graph request c (fun _ => True));
    try assumption; try (intros; exact I).
  - intros from to result _ H. now apply Hadapter in H.
  - intros e He. destruct (Hlengths e He) as (n & Hn & ->). now apply IZR_le.
Qed.

(* ================================================================== *)
(** ** Letters, edges and metrics of the coverage optimizer *)

Lemma has_In (set : list string) (x : string) : has set x = true <-> In x set.
Proof.
  unfold has. rewrite existsb_exists. split.
  - intros (y & Hy & E). apply String.eqb_eq in E. now subst.
  - intros H. exists x. split; [assumption | apply String.eqb_refl].
Qed.

Lemma add_NoDup (set : list string) (x : string) : NoDup set -> NoDup (add set x).
Proof.
  intros H. unfold add. destruct (has set x) eqn:E; [assumption|].
  apply NoDup_app; [assumption | repeat constructor; intros [] | ].
  intros y Hy [<-|[]]. apply has_In in Hy. congruence.
Qed.

Lemma add_In (set : list string) (x y : string) :
  In y (add set x) <-> In y set \/ y = x.
Proof.
  unfold add. destruct (has set x) eqn:E.
  - apply has_In in E. split; [now left | intros [H| ->]; assumption].
  - rewrite in_app_iff. simpl. split; intros [H|H]; auto.
    + destruct H as [<-|[]]. now right.
Qed.

Lemma newSet_fold (items set : list string) :
  NoDup set ->
  NoDup (fold_left add items set)
  /\ forall y, In y (fold_left add items set) <-> In y set \/ In y items.
Proof.
  revert set. induction items as [|x items IH]; intros set Hset; simpl.
  - split; [assumption | intros y; tauto].
  - destruct (IH (add set x) (add_NoDup set x Hset)) as [Hnd Hin].
    split; [assumption|]. intros y. rewrite Hin, add_In.
    split; [intros [[H|H]|H] | intros [H|[H|H]]]; auto.
Qed.

Lemma matchCapital_letter (s l : string) :
  matchCapital s = Some l ->
  exists c, l = String c EmptyString /\ isCapital c = true.
Proof.
  induction s as [|c s IH]; simpl; [discriminate|].
  destruct (isCapital c) eqn:E.
  - intros [= <-]. now exists c.
  - exact IH.
Qed.

Lemma filterDefined_In {A : Type} (l : list (option A)) (a : A) :
  In a (filterDefined l) <-> In (Some a) l.
Proof.
  unfold filterDefined. rewrite in_flat_map. split.
  - intros ([x|] & Hx & Ha); simpl in Ha; [|now elim Ha].
    destruct Ha as [<-|[]]. exact Hx.
  - intros H. exists (Some a). split; [assumption | now left].
Qed.

(** X12. The target letters of a request are distinct single capital
    letters A-Z, each the first letter of an entry of the requested alphabet;
    an absent or empty alphabet asks for the 26 letters in order. *)
Theorem normalizeAlphabet_letters (input : option (list string)) :
  NoDup (normalizeAlphabet input)
  /\ (forall l, In l (normalizeAlphabet input) ->
        exists c, l = String c EmptyString /\ isCapital c = true)
  /\ (forall item items l, input = Some (item :: items) ->
        (In l (normalizeAlphabet input)
         <-> exists entry, In entry (item :: items) /\ firstLetter entry = Some l))
  /\ normalizeAlphabet None = ALPHABET
  /\ normalizeAlphabet (Some []) = ALPHABET.
Proof.
  unfold normalizeAlphabet, newSet. split; [|split; [|split]].
  - apply newSet_fold. constructor.
  - intros l Hl. apply newSet_fold in Hl; [|constructor].
    destruct Hl as [[]|Hl]. apply filterDefined_In in Hl.
    apply in_map_iff in Hl. destruct Hl as (entry & He & _).
    unfold firstLetter in He. now apply matchCapital_letter in He.
  - intros item items l ->. rewrite (proj2 (newSet_fold _ [] (NoDup_nil _))).
    rewrite filterDefined_In, in_map_iff. split.
    + intros [[]|(entry & He & Hin)]. now exists entry.
    + intros (entry & Hin & He). right. now exists entry.
  - split; vm_compute; reflexivity.
Qed.

Lemma upper_lower (c : ascii) : upperChar (lowerChar c) = upperChar c.
Proof.
  destruct c as [[] [] [] [] [] [] [] []]; reflexivity.
Qed.

(** X13. Letter matching does not look at the case: a street name and its
    lower-case form have the same first letter. *)
Theorem firstLetter_ignores_case (name : string) :
  firstLetter (toLowerCase name) = firstLetter name.
Proof.
  unfold firstLetter. f_equal. unfold toUpperCase, toLowerCase.
  induction name as [|c name IH]; simpl; [reflexivity|].
  now rewrite upper_lower, IH.
Qed.

Lemma uniqueStep_deduped (visited : list TraversableEdge)
    (acc : list string * list TraversableEdge) (e : TraversableEdge) :
  deduped visited acc -> deduped (visited ++ [e]) (uniqueStep acc e).
Proof.
  intros (Hkeys & Hnd & Hsub & Hcov). unfold uniqueStep.
  destruct (has (fst acc) (uniqueKey e)) eqn:E.
  - apply has_In in E. split; [assumption|]. split; [assumption|]. split.
    + intros e' He'. apply in_or_app. left. now apply Hsub.
    + intros e' He'. apply in_app_or in He'. destruct He' as [He'|[<-|[]]]; auto.
  - unfold deduped. cbn [fst snd]. unfold add. rewrite E. split; [|split; [|split]].
    + rewrite map_app, Hkeys. reflexivity.
    + apply NoDup_app; [assumption | repeat constructor; intros [] |].
      intros y Hy [<-|[]]. apply has_In in Hy. congruence.
    + intros e' He'. apply in_app_or in He'. apply in_or_app.
      destruct He' as [He'|He']; [left; now apply Hsub | now right].
    + intros e' He'. apply in_app_or in He'. apply in_or_app.
      destruct He' as [He'|[<-|[]]]; [left; now apply Hcov | right; now left].
Qed.

Lemma uniqueStep_fold (outgoing visited : list TraversableEdge)
    (acc : list string * list TraversableEdge) :
  deduped visited acc ->
  deduped (visited ++ outgoing) (fold_left uniqueStep outgoing acc).
Proof.
  revert visited acc. induction outgoing as [|e outgoing IH]; intros visited acc H; simpl.
  - now rewrite app_nil_r.
  - replace (visited ++ e :: outgoing) with ((visited ++ [e]) ++ outgoing)
      by (now rewrite <- app_assoc).
    apply IH. now apply uniqueStep_deduped.
Qed.

Lemma uniqueEdges_fold (lists : list (list TraversableEdge))
    (visited : list TraversableEdge) (acc : list string * list TraversableEdge) :
  deduped visited acc ->
  deduped (visited ++ concat lists)
    (fold_left (fun acc outgoing => fold_left uniqueStep outgoing acc) lists acc).
Proof.
  revert visited acc. induction lists as [|l lists IH]; intros visited acc H; simpl.
  - now rewrite app_nil_r.
  - rewrite app_assoc. apply IH. now apply uniqueStep_fold.
Qed.

(** X14. [uniqueEdges] keeps one edge per key
    [from->to->edgeId]: its edges are edges of the adjacency index, no two of
    them have the same key, and every indexed edge has its key among
    them. *)
Theorem uniqueEdges_deduped (graph : RoadGraph) :
  NoDup (map uniqueKey (uniqueEdges graph))
  /\ (forall e, In e (uniqueEdges graph) -> In e (indexedEdges graph))
  /\ (forall e, In e (indexedEdges graph) ->
        exists e', In e' (uniqueEdges graph) /\ uniqueKey e' = uniqueKey e).
Proof.
  destruct (uniqueEdges_fold (Js.values (traversableFrom graph)) [] ([], []))
    as (Hkeys & Hnd & Hsub & Hcov).
  { split; [reflexivity|]. split; [constructor|]. split; intros e []. }
  simpl in Hsub, Hcov. fold (indexedEdges graph) in Hsub, Hcov.
  unfold uniqueEdges. split; [now rewrite <- Hkeys|]. split; [exact Hsub|].
  intros e He. specialize (Hcov e He). rewrite Hkeys in Hcov.
  apply in_map_iff in Hcov. destruct Hcov as (e' & Hk & He'). now exists e'.
Qed.

(* ---------------------------------------------------------------- *)

Lemma penalty_from (l : list Z) (x : Z) :
  fold_left (fun sum count => (sum + Z.max 0 (count - 1))%Z) l x
  = (x + fold_left (fun sum count => (sum + Z.max 0 (count - 1))%Z) l 0)%Z.
Proof.
  revert x. induction l as [|a l IH]; intros x; simpl; [lia|].
  rewrite (IH (x + Z.max 0 (a - 1))%Z), (IH (Z.max 0 (a - 1))%Z). lia.
Qed.

Lemma penalty_cons (k : string) (v : Z) (m : Js.Map Z) :
  penaltyOf ((k, v) :: m) = (Z.max 0 (v - 1) + penaltyOf m)%Z.
Proof. unfold penaltyOf. simpl. rewrite penalty_from. lia. Qed.

(** Counting one more occurrence of [k]: the penalty and the number of
    names go up by one between them. *)
Lemma count_one_more (m : Js.Map Z) (k : string) :
  Forall (fun kv => (1 <= snd kv)%Z) m ->
  let m' := Js.set m k (countOr m k 0 + 1)%Z in
  Forall (fun kv => (1 <= snd kv)%Z) m'
  /\ (penaltyOf m' + Z.of_nat (length m') = penaltyOf m + Z.of_nat (length m) + 1)%Z.
Proof.
  induction m as [|[k' v] m IH]; intros Hall; simpl.
  - split; [repeat constructor; simpl; lia|]. unfold penaltyOf, countOr. simpl. lia.
  - inversion Hall as [|? ? Hv Hm]; subst. simpl in Hv. unfold countOr. simpl.
    destruct (String.eqb k' k) eqn:E.
    + split; [constructor; simpl; [lia | assumption]|].
      rewrite !penalty_cons. simpl length. lia.
    + destruct (IH Hm) as [Hall' Hsum]. unfold countOr in Hall', Hsum.
      split; [constructor; assumption|].
      rewrite !penalty_cons. simpl length. lia.
Qed.

Lemma countStreet_fold (edgeList : list TraversableEdge) (m : Js.Map Z) :
  Forall (fun kv => (1 <= snd kv)%Z) m ->
  let m' := fold_left countStreet edgeList m in
  (penaltyOf m' + Z.of_nat (length m')
   = penaltyOf m + Z.of_nat (length m) + Z.of_nat (length edgeList))%Z.
Proof.
  revert m. induction edgeList as [|e l IH]; intros m Hm; cbv zeta;
    [simpl; lia|]. simpl fold_left.
  destruct (count_one_more m (toLowerCase (streetName e)) Hm) as [Hall Hsum].
  specialize (IH _ Hall). cbv zeta in IH, Hsum.
  change (countStreet m e)
    with (Js.set m (toLowerCase (streetName e))
            (countOr m (toLowerCase (streetName e)) 0 + 1)%Z).
  rewrite length_cons. lia.
Qed.

(** X15. The duplicate-street penalty and the number of distinct street
    names of a route add up to the number of its edges: every traversal
    either meets a new street name (compared in lower case) or counts as a
    duplicate. *)
Theorem quality_metrics_partition (edgeList : list TraversableEdge) :
  let quality := calculateCoverageQualityMetrics edgeList in
  (duplicateStreetPenalty quality + Z.of_nat (uniqueStreetCount quality)
   = Z.of_nat (length edgeList))%Z
  /\ (0 <= duplicateStreetPenalty quality)%Z.
Proof.
  unfold calculateCoverageQualityMetrics. simpl.
  pose proof (countStreet_fold edgeList [] (Forall_nil _)) as H. cbv zeta in H.
  unfold penaltyOf in H at 2. simpl in H. unfold penaltyOf in H. split; [lia|].
  generalize (Js.values (fold_left countStreet edgeList [])) as l. intros l.
  rewrite penalty_from.
  assert (forall x, (0 <= x)%Z ->
            (0 <= fold_left (fun sum count => (sum + Z.max 0 (count - 1))%Z) l x)%Z) as Hpos.
  { induction l as [|a l IHl]; intros x Hx; simpl; [assumption | apply IHl; lia]. }
  specialize (Hpos 0%Z). lia.
Qed.

(* ================================================================== *)
(** ** Segments *)

(** X16. Segments follow the traversed edges: there are never more segments
    than edges, every segment carries a street name, and when both ends of
    every edge are nodes of the graph there is exactly one segment per edge,
    in order, between the coordinates of the two nodes (the coordinates the
    edge itself carries are not used then). *)
Theorem traversalsToSegments_shape (graph : RoadGraph) (traversals : list TraversableEdge) :
  (length (traversalsToSegments graph traversals) <= length traversals)%nat
  /\ (forall s, In s (traversalsToSegments graph traversals) -> seg_streetName s <> None)
  /\ ((forall e, In e traversals ->
         Js.get (nodes graph) (fromNodeId e) <> None
         /\ Js.get (nodes graph) (toNodeId e) <> None) ->
      map Some (traversalsToSegments graph traversals) = map (segmentOf graph) traversals).
Proof.
  unfold traversalsToSegments. split; [|split].
  - induction traversals as [|e l IH]; simpl; [lia|].
    rewrite length_app.
    destruct (resolveCoordinate graph (fromNodeId e) (fromCoordinate e));
      [destruct (resolveCoordinate graph (toNodeId e) (toCoordinate e))|]; simpl; lia.
  - intros s Hs. apply in_flat_map in Hs. destruct Hs as (e & _ & Hs).
    destruct (resolveCoordinate graph (fromNodeId e) (fromCoordinate e));
      [destruct (resolveCoordinate graph (toNodeId e) (toCoordinate e))|];
      simpl in Hs; try contradiction.
    destruct Hs as [<-|[]]. discriminate.
  - induction traversals as [|e l IH]; intros H; simpl; [reflexivity|].
    destruct (H e (or_introl eq_refl)) as [Hf Ht].
    unfold resolveCoordinate at 1 2, segmentOf at 1.
    destruct (Js.get (nodes graph) (fromNodeId e)); [|now elim Hf].
    destruct (Js.get (nodes graph) (toNodeId e)); [|now elim Ht].
    simpl. f_equal. apply IH. intros e' He'. apply H. now right.
Qed.

(* ================================================================== *)
(** ** An empty graph *)

(** X11. On a graph without nodes both optimizers throw "Graph has no
    nodes.", whatever the request and the search adapter: the start (or the
    first point, or the origin for a shape without points) cannot be
    snapped. *)
Theorem optimizers_need_a_node
    (shortestPath : FindPathRequest -> Js.outcome PathResult) (graph : RoadGraph)
    (coverage : CoverageRouteRequest) (shape : ShapeRouteRequest) (clock : Clock) :
  nodes graph = [] ->
  optimizeCoverageRoute shortestPath graph coverage clock = Js.Throws "Graph has no nodes."
  /\ optimizeShapeRoute shortestPath graph shape clock = Js.Throws "Graph has no nodes.".
Proof.
  intros Hnodes.
  assert (Hsnap : forall c, findNearestNodeId graph c = Js.Throws "Graph has no nodes.")
    by (intros c; unfold findNearestNodeId; now rewrite Hnodes).
  split.
  - unfold optimizeCoverageRoute. now rewrite Hsnap.
  - unfold optimizeShapeRoute.
    destruct (2 <=? length (sr_points shape))%nat eqn:E.
    + destruct (sr_points shape) as [|p l]; [discriminate|]. simpl. now rewrite Hsnap.
    + simpl. now rewrite Hsnap.
Qed.

Lemma optimizers_need_a_node_witness :
  optimizeCoverageRoute (findPath 1) (createRoadGraph [] [danglingEdge])
    digitsOnlyRequest {| dateNow := 0; isoString := "" |}
  = Js.Throws "Graph has no nodes."
  /\ optimizeShapeRoute (findPath 1) (createRoadGraph [] [danglingEdge])
       {| sr_name := "Shape"; sr_points := [] |} {| dateNow := 0; isoString := "" |}
     = Js.Throws "Graph has no nodes.".
Proof. apply optimizers_need_a_node. reflexivity. Defined.

(* ================================================================== *)
(** ** The shape optimizer *)

Lemma dedupeConsecutive_same (id : string) (n : nat) :
  dedupeConsecutive (repeat id (S n)) = [id].
Proof.
  unfold dedupeConsecutive. simpl. f_equal.
  induction n as [|n IH]; simpl; [reflexivity|].
  rewrite String.eqb_refl. simpl. exact IH.
Qed.

Lemma mapOutcome_same {A B : Type} (f : A -> Js.outcome B) (l : list A) (b : B) :
  (forall a, In a l -> f a = Js.Returns b) ->
  mapOutcome f l = Js.Returns (repeat b (length l)).
Proof.
  induction l as [|a l IH]; intros H; simpl; [reflexivity|].
  rewrite (H a (or_introl eq_refl)). simpl.
  rewrite IH by (intros a' Ha'; apply H; now right). reflexivity.
Qed.

(** X17. A shape whose points all snap to the same node gives a route
    without segments and of distance 0, and the search adapter is not asked:
    so it is for two identical points, for a single point, and for every
    shape on a graph of one node. *)
Theorem optimizeShapeRoute_single_node
    (shortestPath : FindPathRequest -> Js.outcome PathResult) (graph : RoadGraph)
    (request : ShapeRouteRequest) (clock : Clock) (id : string) :
  (forall p, In p (effectivePoints request) ->
     findNearestNodeId graph p = Js.Returns id) ->
  exists r,
    optimizeShapeRoute shortestPath graph request clock = Js.Returns r
    /\ route_segments r = [] /\ route_distanceMeters r = 0
    /\ route_mode r = ShapeMode /\ route_coverage r = None.
Proof.
  intros Hsnap. unfold optimizeShapeRoute. fold (effectivePoints request).
  rewrite (mapOutcome_same _ _ id Hsnap). cbn [Js.bind].
  assert (Hlen : exists n, length (effectivePoints request) = S n).
  { unfold effectivePoints. destruct (2 <=? length (sr_points request))%nat eqn:E.
    - destruct (sr_points request); [discriminate | now eexists].
    - now exists O. }
  destruct Hlen as [n ->]. rewrite dedupeConsecutive_same. cbn [stitch Js.bind].
  eexists. split; [reflexivity|]. repeat split.
Qed.

Lemma islandGraph_nearest_origin :
  findNearestNodeId islandGraph {| lat := 0; lon := 0 |} = Js.Returns "A".
Proof.
  unfold findNearestNodeId, islandGraph. cbn -[distanceMeters Z.ltb].
  unfold nearestStep. cbn -[distanceMeters Z.ltb]. rewrite distanceMeters_self.
  repeat (match goal with
          | |- context [(?d <? 0)%Z] =>
              replace (d <? 0)%Z with false
                by (symmetry; apply Z.ltb_ge; apply distanceMeters_nonneg)
          end; cbn -[distanceMeters Z.ltb]).
  reflexivity.
Qed.

Lemma optimizeShapeRoute_single_node_witness :
  exists r,
    optimizeShapeRoute (fun _ => Js.Throws "offline") islandGraph
      {| sr_name := "Dot"; sr_points := [{| lat := 0; lon := 0 |}; {| lat := 0; lon := 0 |}] |}
      {| dateNow := 0; isoString := "" |} = Js.Returns r
    /\ route_segments r = [] /\ route_distanceMeters r = 0
    /\ route_mode r = ShapeMode /\ route_coverage r = None.
Proof.
  apply (optimizeShapeRoute_single_node _ islandGraph _ _ "A").
  intros p [<-|[<-|[]]]; exact islandGraph_nearest_origin.
Defined.

(** X18. A shape of two points that snap to different nodes is the search
    adapter's path between the two: the route's distance is the length of
    the path's edges, its segments are those of the path's edges, and an
    error of the adapter is the error of the optimizer. *)
Theorem optimizeShapeRoute_two_points
    (shortestPath : FindPathRequest -> Js.outcome PathResult) (graph : RoadGraph)
    (name : string) (p q : Coordinate) (clock : Clock) (a b : string) :
  findNearestNodeId graph p = Js.Returns a ->
  findNearestNodeId graph q = Js.Returns b ->
  a <> b ->
  match shortestPath {| req_graph := graph; startNodeId := a; endNodeId := b;
                        req_weights := None |} with
  | Js.Returns path =>
      exists r,
        optimizeShapeRoute shortestPath graph {| sr_name := name; sr_points := [p; q] |} clock
        = Js.Returns r
        /\ route_distanceMeters r = distanceOf (traversedEdges path)
        /\ route_segments r = traversalsToSegments graph (traversedEdges path)
  | Js.Throws message =>
      optimizeShapeRoute shortestPath graph {| sr_name := name; sr_points := [p; q] |} clock
      = Js.Throws message
  | Js.OutOfFuel =>
      optimizeShapeRoute shortestPath graph {| sr_name := name; sr_points := [p; q] |} clock
      = Js.OutOfFuel
  end.
Proof.
  intros Hp Hq Hne. unfold optimizeShapeRoute. simpl.
  rewrite Hp, Hq. simpl. unfold dedupeConsecutive. simpl.
  replace (String.eqb b a) with false
    by (symmetry; apply String.eqb_neq; congruence).
  simpl. destruct (shortestPath _) as [path|m|]; simpl; [|reflexivity|reflexivity].
  eexists. split; [reflexivity|]. split; reflexivity.
Qed.

(* ================================================================== *)
(** ** The remote search adapter *)

Lemma osrmLegs_chained (request : FindPathRequest) (count : nat)
    (coordinates : list (R * R)) :
  forall i,
    (2 <= length coordinates)%nat ->
    (count = i + (length coordinates - 1))%nat ->
    chained (if (i =? 0)%nat then startNodeId request
             else ("osrm-node-" ++ decimal i)%string)
            (endNodeId request)
            (osrmLegs request count i coordinates)
    /\ length (osrmLegs request count i coordinates) = (length coordinates - 1)%nat
    /\ Forall (fun e => 0 <= lengthMeters e) (osrmLegs request count i coordinates).
Proof.
  induction coordinates as [|a coordinates IH]; intros i Hlen Hcount; [simpl in Hlen; lia|].
  destruct coordinates as [|b coordinates]; [simpl in Hlen; lia|].
  destruct coordinates as [|c coordinates].
  - simpl in *. replace (i =? count - 1)%nat with true
      by (symmetry; apply Nat.eqb_eq; lia).
    split; [|split; [reflexivity|]].
    + pose proof (chained_last (osrmEdge request count i (osrmToCoordinate a)
                                  (osrmToCoordinate b))) as H.
      simpl in H. replace (i =? count - 1)%nat with true in H
        by (symmetry; apply Nat.eqb_eq; lia).
      exact H.
    + constructor; [|constructor]. simpl. apply IZR_le.
      apply round_sqrt_nonneg.
  - destruct (IH (S i)) as (Hchain & Hlength & Hall).
    { simpl. lia. } { simpl in *. lia. }
    change (osrmLegs request count i (a :: b :: c :: coordinates))
      with (osrmEdge request count i (osrmToCoordinate a) (osrmToCoordinate b)
            :: osrmLegs request count (S i) (b :: c :: coordinates)).
    split; [|split].
    + pose proof (chained_next (osrmEdge request count i (osrmToCoordinate a)
                                  (osrmToCoordinate b)) (endNodeId request)
                    (osrmLegs request count (S i) (b :: c :: coordinates))) as H.
      simpl fromNodeId in H. simpl toNodeId in H.
      replace (i =? count - 1)%nat with false in H
        by (symmetry; apply Nat.eqb_neq; simpl in Hcount; lia).
      replace (i + 1)%nat with (S i) in H by lia.
      apply H. exact Hchain.
    + simpl length in *. lia.
    + constructor; [|exact Hall]. simpl. apply IZR_le. apply round_sqrt_nonneg.
Qed.

(** X19. What the remote adapter returns on an answer with at least two
    coordinates: a chain of edges from the start node to the end node, one
    per pair of consecutive coordinates and of non-negative length, under the
    node ids [start, end] alone, with the rounded [distance] of the answer as
    total distance and as cost. *)
Theorem osrmParse_chain (request : FindPathRequest) (route : OsrmRoute)
    (others : list OsrmRoute) (coordinates : list (R * R)) :
  osrm_coordinates route = Some coordinates ->
  (2 <= length coordinates)%nat ->
  exists result,
    osrmParse request (Some (route :: others)) = Js.Returns result
    /\ nodeIds result = [startNodeId request; endNodeId request]
    /\ chained (startNodeId request) (endNodeId request) (traversedEdges result)
    /\ length (traversedEdges result) = (length coordinates - 1)%nat
    /\ Forall (fun e => 0 <= lengthMeters e) (traversedEdges result)
    /\ totalCost result = totalDistanceMeters result.
Proof.
  intros Hcoords Hlen. unfold osrmParse. rewrite Hcoords.
  replace (length coordinates <? 2)%nat with false
    by (symmetry; apply Nat.ltb_ge; exact Hlen).
  eexists. split; [reflexivity|]. simpl.
  destruct (osrmLegs_chained request (length coordinates - 1) coordinates O Hlen)
    as (Hchain & Hlength & Hall); [lia|].
  repeat split; assumption.
Qed.

Lemma osrmParse_chain_witness :
  exists result,
    osrmParse {| req_graph := islandGraph; startNodeId := "A"; endNodeId := "B";
                 req_weights := None |}
      (Some [{| osrm_distance := Some 100;
                osrm_coordinates := Some [(0, 0); (1, 0); (1, 1)] |}])
    = Js.Returns result
    /\ nodeIds result = ["A"; "B"]
    /\ chained "A" "B" (traversedEdges result)
    /\ length (traversedEdges result) = 2%nat
    /\ Forall (fun e => 0 <= lengthMeters e) (traversedEdges result)
    /\ totalCost result = totalDistanceMeters result.
Proof.
  apply (osrmParse_chain
           {| req_graph := islandGraph; startNodeId := "A"; endNodeId := "B";
              req_weights := None |}
           {| osrm_distance := Some 100;
              osrm_coordinates := Some [(0, 0); (1, 0); (1, 1)] |} []
           [(0, 0); (1, 0); (1, 1)]).
  - reflexivity.
  - simpl. lia.
Defined.

(** X20. Failures of the remote adapter. A start or end id that is not a
    node of the graph is an error of its own, thrown before the service is
    asked and not handed to the fallback. Once both are nodes, any failure
    of the request or of reading the answer (no route, no geometry, fewer
    than two coordinates) goes to the fallback adapter when there is one,
    whose outcome is then the outcome, and is thrown on when there is none.
    The adapter the factory builds for the provider "osrm" and a non-empty
    base URL has the in-memory search as fallback; for any other
    configuration the factory gives the in-memory search itself. *)
Theorem osrmFindPath_failures
    (fetched : FindPathRequest -> Js.outcome (option (list OsrmRoute)))
    (fallback : FindPathRequest -> Js.outcome PathResult)
    (request : FindPathRequest) (fuel : nat) (url : string) :
  ((Js.get (nodes (req_graph request)) (startNodeId request) = None
    \/ Js.get (nodes (req_graph request)) (endNodeId request) = None) ->
   osrmFindPath fetched (Some fallback) request
   = Js.Throws "Start or end node not found in graph.")
  /\ (Js.get (nodes (req_graph request)) (startNodeId request) <> None ->
      Js.get (nodes (req_graph request)) (endNodeId request) <> None ->
      forall error,
        (routes <- fetched request ;; osrmParse request routes) = Js.Throws error ->
        osrmFindPath fetched (Some fallback) request = fallback request
        /\ osrmFindPath fetched None request = Js.Throws error)
  /\ (forall others, osrmParse request None = Js.Throws "OSRM route has no geometry."
        /\ osrmParse request (Some []) = Js.Throws "OSRM route has no geometry."
        /\ osrmParse request
             (Some ({| osrm_distance := Some 0; osrm_coordinates := None |} :: others))
           = Js.Throws "OSRM route has no geometry.")
  /\ (url <> "" ->
      createShortestPathAdapter fetched fuel
        {| provider := Some Osrm; osrmBaseUrl := Some url |}
      = osrmFindPath fetched (Some (findPath fuel)))
  /\ createShortestPathAdapter fetched fuel {| provider := None; osrmBaseUrl := Some url |}
     = findPath fuel
  /\ createShortestPathAdapter fetched fuel {| provider := Some Osrm; osrmBaseUrl := None |}
     = findPath fuel.
Proof.
  split; [|split; [|split; [|split; [|split]]]].
  - unfold osrmFindPath. intros [H|H]; rewrite H; [reflexivity|].
    now destruct (Js.get (nodes (req_graph request)) (startNodeId request)).
  - intros Hs He error Hfail. unfold osrmFindPath.
    destruct (Js.get (nodes (req_graph request)) (startNodeId request)); [|now elim Hs].
    destruct (Js.get (nodes (req_graph request)) (endNodeId request)); [|now elim He].
    rewrite Hfail. now split.
  - intros others. repeat split.
  - intros Hurl. unfold createShortestPathAdapter. simpl.
    unfold Js.truthy. destruct (String.eqb url "") eqn:E; [|reflexivity].
    apply String.eqb_eq in E. contradiction.
  - reflexivity.
  - reflexivity.
Qed.

(* ================================================================== *)
(** ** Instances of the further properties *)


Lemma coverage_cap_below_every_edge_witness :
  exists r,
    optimizeCoverageRoute (findPath 1)
      (loopGraph {| lat := 0; lon := 0 |} {| lat := 0; lon := 1 |})
      (smallCapRequest {| lat := 0; lon := 0 |}) {| dateNow := 0; isoString := "" |}
    = Js.Returns r
    /\ route_segments r = [] /\ route_distanceMeters r = 0.
Proof.
  apply (coverage_cap_below_every_edge _ _ _ 50 1 "S").
  - reflexivity.
  - lra.
  - rewrite loopGraph_uniqueEdges. intros e [<-|[<-|[<-|[]]]]; simpl; lra.
  - lia.
  - apply loopGraph_nearest.
Defined.

Lemma approximateDistanceMeters_self (a : Coordinate) :
  approximateDistanceMeters a a = 0%Z.
Proof. exact (distanceMeters_self a). Qed.

Lemma approximateDistanceMeters_corners :
  approximateDistanceMeters corner nextCorner = 85%Z.
Proof.
  unfold approximateDistanceMeters, corner, nextCorner. simpl.
  replace ((0 - 0) * 111000 * ((0 - 0) * 111000)
           + (0 - 0.001) * 85000 * ((0 - 0.001) * 85000)) with (85 * 85) by lra.
  rewrite sqrt_square by lra. unfold Js.round. symmetry. apply Int_part_spec.
  simpl. lra.
Qed.

Lemma kilometre_candidates (cS : Coordinate) :
  filter (isCandidate (kilometreRequest cS)
            (remaining (initialSelection (kilometreRequest cS) "S")))
    [forwardOf numbered; reverseOf numbered; forwardOf alpha] = [forwardOf alpha].
Proof. reflexivity. Qed.

Lemma truthyNumber_kilometre : Js.truthyNumber 1000 = true.
Proof. apply truthyNumber_true. lra. Qed.

(** On the loop graph, with a cap of 1000 meters and an adapter that goes
    from S to T and back along one edge of 100 meters each way, the
    optimizer returns the round trip of 200 meters. *)
Lemma loopGraph_round_trip (shortestPath : FindPathRequest -> Js.outcome PathResult)
    (cS cT : Coordinate) (clock : Clock) (out back : PathResult)
    (eo eb : TraversableEdge) :
  IZR (approximateDistanceMeters cS cT) <= 900 ->
  shortestPath {| req_graph := loopGraph cS cT; startNodeId := "S";
                  endNodeId := "T"; req_weights := None |} = Js.Returns out ->
  traversedEdges out = [eo] -> lengthMeters eo = 100 ->
  totalDistanceMeters out = 100 ->
  shortestPath {| req_graph := loopGraph cS cT; startNodeId := "T";
                  endNodeId := "S"; req_weights := None |} = Js.Returns back ->
  traversedEdges back = [eb] -> lengthMeters eb = 100 ->
  totalDistanceMeters back = 100 ->
  exists r,
    optimizeCoverageRoute shortestPath (loopGraph cS cT) (kilometreRequest cS) clock
    = Js.Returns r
    /\ route_segments r = traversalsToSegments (loopGraph cS cT) [eo; eb]
    /\ route_distanceMeters r = 200.
Proof.
  intros Hnear Hout Hout_edges Hout_len Hout_total Hback Hback_edges Hback_len Hback_total.
  unfold optimizeCoverageRoute. rewrite loopGraph_nearest. cbn [Js.bind].
  set (budget := Z.to_nat _).
  assert (Hbudget : exists b, budget = S b).
  { unfold budget. cbn [chooseCoverageStrategy kilometreRequest cr_strategy
                        cr_targetStreets cr_maxDistanceMeters].
    unfold maxSelections.
    destruct (Z.to_nat (Z.max 1 _)) as [|b] eqn:E; [lia | now exists b]. }
  destruct Hbudget as [b ->].
  rewrite selectionLoop_turn, loopGraph_uniqueEdges, kilometre_candidates.
  unfold shortlistCandidates. cbn [map Js.sort fold_right Js.insertBy firstn fst find].
  unfold withinDistanceBudget. cbn [cr_maxDistanceMeters kilometreRequest].
  rewrite truthyNumber_kilometre.
  cbn [currentNodeId currentDistanceMeters initialSelection fromNodeId toNodeId
       lengthMeters forwardOf alpha flatEdge edge_fromNodeId edge_toNodeId
       edge_lengthMeters].
  replace (approximateNodeDistanceMeters (loopGraph cS cT) "S" "T")
    with (approximateDistanceMeters cS cT) by reflexivity.
  replace (approximateNodeDistanceMeters (loopGraph cS cT) "S" "S")
    with (approximateDistanceMeters cS cS) by reflexivity.
  rewrite approximateDistanceMeters_self.
  replace (Js.leb (0 + IZR (approximateDistanceMeters cS cT) + 100 + 0) 1000)
    with true by (symmetry; apply leb_true_iff; lra).
  cbn [find fromNodeId lengthMeters forwardOf alpha flatEdge edge_fromNodeId
       edge_lengthMeters].
  rewrite Hout. cbn [Js.bind]. rewrite Hout_total.
  replace (Js.ltb 1000 (0 + 100 + 100)) with false
    by (symmetry; apply ltb_false_iff; lra).
  cbn [andb].
  assert (Hrest : forall sel,
            remaining sel = delete (remaining (initialSelection (kilometreRequest cS) "S")) "A" ->
            selectionLoop shortestPath (loopGraph cS cT) (kilometreRequest cS) b "S" sel
            = Js.Returns sel).
  { intros sel Hsel. destruct b as [|b]; [reflexivity|].
    rewrite selectionLoop_turn, loopGraph_uniqueEdges, Hsel. reflexivity. }
  rewrite Hrest by reflexivity. cbn [Js.bind currentNodeId].
  rewrite Hback. cbn [Js.bind].
  eexists. split; [reflexivity|]. cbn [route_segments route_distanceMeters].
  unfold returnFits. cbn [cr_maxDistanceMeters kilometreRequest].
  rewrite truthyNumber_kilometre. cbn [negb orb currentDistanceMeters traversed].
  unfold appendPath. rewrite Hout_edges, Hback_edges, Hback_total.
  cbn [app traversed initialSelection]. unfold distanceOf. cbn [fold_left app].
  rewrite Hout_len.
  replace (Js.leb (0 + 100 + 100) 1000) with true
    by (symmetry; apply leb_true_iff; lra).
  split; [reflexivity|]. cbn [fold_left]. rewrite Hout_len, Hback_len. lra.
Qed.

Lemma hopAdapter_reports : reportsItsLength hopAdapter.
Proof.
  intros request result H. injection H as <-. unfold distanceOf. simpl. lra.
Qed.

Lemma loopGraph_whole (cS cT : Coordinate) (e : TraversableEdge) :
  In e (uniqueEdges (loopGraph cS cT)) -> wholeMeters (lengthMeters e).
Proof.
  rewrite loopGraph_uniqueEdges.
  intros [<-|[<-|[<-|[]]]]; exists 100%Z; (split; [lia | reflexivity]).
Qed.

Lemma optimizeCoverageRoute_within_cap_witness :
  exists r,
    optimizeCoverageRoute hopAdapter (loopGraph corner nextCorner)
      (kilometreRequest corner) {| dateNow := 0; isoString := "" |} = Js.Returns r
    /\ route_segments r <> []
    /\ route_distanceMeters r = 200
    /\ route_distanceMeters r <= 1000.
Proof.
  destruct (loopGraph_round_trip hopAdapter corner nextCorner
              {| dateNow := 0; isoString := "" |} _ _ _ _
              ltac:(rewrite approximateDistanceMeters_corners; lra)
              eq_refl eq_refl eq_refl eq_refl eq_refl eq_refl eq_refl eq_refl)
    as (r & Hr & Hseg & Hdist).
  exists r. split; [exact Hr|]. split; [rewrite Hseg; discriminate|].
  split; [exact Hdist|].
  apply (optimizeCoverageRoute_within_cap hopAdapter (loopGraph corner nextCorner)
           (kilometreRequest corner) 1000 hopAdapter_reports)
    with (clock := {| dateNow := 0; isoString := "" |}).
  - intros q result H. injection H as <-. constructor; [|constructor].
    exists 100%Z. split; [lia | reflexivity].
  - reflexivity.
  - lra.
  - unfold MAX_SAFE_INTEGER. lra.
  - apply loopGraph_whole.
  - exact Hr.
Defined.

Lemma distance_A_B :
  distanceMeters {| lat := 0; lon := 0 |} {| lat := 0; lon := 1 |} = 85000%Z.
Proof.
  unfold distanceMeters, Js.round. simpl.
  replace ((0 - 0) * 111000 * ((0 - 0) * 111000) + (0 - 1) * 85000 * ((0 - 1) * 85000))
    with (85000 * 85000) by ring.
  rewrite sqrt_square by lra. symmetry. apply Int_part_spec. lra.
Qed.

Lemma islandGraph_nearest_B :
  findNearestNodeId islandGraph {| lat := 0; lon := 1 |} = Js.Returns "B".
Proof.
  unfold findNearestNodeId, islandGraph. cbn -[distanceMeters Z.ltb].
  unfold nearestStep. cbn -[distanceMeters Z.ltb].
  rewrite distanceMeters_self, distance_A_B.
  cbn -[distanceMeters Z.ltb]. change (0 <? 85000)%Z with true.
  cbn -[distanceMeters Z.ltb].
  match goal with
  | |- context [(?d <? 0)%Z] =>
      replace (d <? 0)%Z with false
        by (symmetry; apply Z.ltb_ge; apply distanceMeters_nonneg)
  end.
  reflexivity.
Qed.

Lemma optimizeShapeRoute_two_points_witness :
  optimizeShapeRoute (fun _ => Js.Throws "offline") islandGraph
    {| sr_name := "Line"; sr_points := [{| lat := 0; lon := 0 |}; {| lat := 0; lon := 1 |}] |}
    {| dateNow := 0; isoString := "" |} = Js.Throws "offline".
Proof.
  apply (optimizeShapeRoute_two_points (fun _ => Js.Throws "offline") islandGraph "Line"
           {| lat := 0; lon := 0 |} {| lat := 0; lon := 1 |}
           {| dateNow := 0; isoString := "" |} "A" "B").
  - apply islandGraph_nearest_origin.
  - apply islandGraph_nearest_B.
  - discriminate.
Defined.
(* ================================================================== *)
(** ** The search returns a cheapest walk *)

Lemma relax_eq (graph : RoadGraph) (weights : RouteObjectiveWeights)
    (current : PathState) (s : Search) (e : TraversableEdge) :
  relax graph weights current s e
  = if match Js.get (bestCostByState s) (key (nextStateOf graph weights current e)) with
       | Some knownBest => Js.leb knownBest (cost (nextStateOf graph weights current e))
       | None => false
       end
    then s
    else {| open := open s ++ [nextStateOf graph weights current e];
            bestCostByState :=
              Js.set (bestCostByState s) (key (nextStateOf graph weights current e))
                (cost (nextStateOf graph weights current e));
            stateMap :=
              Js.set (stateMap s) (key (nextStateOf graph weights current e))
                (nextStateOf graph weights current e) |}.
Proof. reflexivity. Qed.

Lemma nextCostOf_step (graph : RoadGraph) (weights : RouteObjectiveWeights)
    (current : PathState) (e : TraversableEdge) :
  nextCostOf graph weights current e
  = cost current + stepCost graph weights (previousNodeId current) (nodeId current) e.
Proof.
  unfold nextCostOf, stepCost, turnCost.
  destruct (previousNodeId current) as [p|]; [|lra].
  destruct (Js.truthy p); [|lra].
  destruct (Js.get (nodes graph) p); [|lra].
  destruct (Js.get (nodes graph) (nodeId current)); [|lra].
  destruct (Js.get (nodes graph) (toNodeId e)); lra.
Qed.

Lemma walkBack_more_fuel (stateMap : Js.Map PathState) (fuel : nat) :
  forall (fuel' : nat) (k : option string) (acc reversed : list PathState),
    walkBack fuel stateMap k acc = Some reversed -> (fuel <= fuel')%nat ->
    walkBack fuel' stateMap k acc = Some reversed.
Proof.
  induction fuel as [|fuel IH]; intros fuel' k acc reversed H Hle.
  - destruct k as [k|]; [|destruct fuel'; exact H].
    destruct fuel'; [exact H|]. simpl in *.
    destruct (Js.truthy k); [|exact H].
    destruct (Js.get stateMap k); [discriminate | exact H].
  - destruct fuel' as [|fuel']; [lia|].
    destruct k as [k|]; [|exact H]. simpl in *.
    destruct (Js.truthy k); [|exact H].
    destruct (Js.get stateMap k); [|exact H].
    apply IH; [exact H | lia].
Qed.

Lemma searchLoop_more_turns (graph : RoadGraph) (weights : RouteObjectiveWeights)
    (startId endId : string) (rfuel fuel : nat) :
  forall (s : Search) (fuel' : nat) (r : PathResult),
    searchLoop fuel rfuel graph weights startId endId s = Js.Returns r ->
    (fuel <= fuel')%nat ->
    searchLoop fuel' rfuel graph weights startId endId s = Js.Returns r.
Proof.
  induction fuel as [|fuel IH]; intros s fuel' r H Hle; [discriminate|].
  destruct fuel' as [|fuel']; [lia|]. simpl in *.
  destruct (Js.sort byCost (open s)) as [|current rest]; [assumption|].
  destruct (String.eqb (nodeId current) endId); [assumption|].
  apply IH; [assumption | lia].
Qed.

Lemma sort_nil {A : Type} (cmp : A -> A -> R) (l : list A) :
  Js.sort cmp l = [] -> l = [].
Proof.
  intros H. pose proof (sort_perm cmp l) as Hp. rewrite H in Hp.
  destruct l; [reflexivity|].
  exfalso. eapply Permutation_nil_cons.
  first [exact Hp | exact (Permutation_sym Hp)].
Qed.

Section Cheapest.

Variable graph : RoadGraph.
Variable weights : RouteObjectiveWeights.
Variables startId endId : string.
Hypothesis Hweights : nonnegWeights weights.
Hypothesis Hlengths : nonnegLengths graph.
Hypothesis Hkeys : distinctKeys graph startId.

Lemma turnCost_nonneg (prev : option string) (here next : string) :
  0 <= turnCost graph weights prev here next.
Proof.
  unfold turnCost. destruct prev as [p|]; [|lra].
  destruct (Js.truthy p); [|lra].
  destruct (Js.get (nodes graph) p); [|lra].
  destruct (Js.get (nodes graph) here); [|lra].
  destruct (Js.get (nodes graph) next); [|lra].
  now apply scoreTurn_nonneg.
Qed.

Lemma stepCost_nonneg (prev : option string) (here : string) (e : TraversableEdge) :
  In e (outgoingOf graph here) -> 0 <= stepCost graph weights prev here e.
Proof.
  intros He. unfold stepCost.
  pose proof (turnCost_nonneg prev here (toNodeId e)).
  pose proof (scoreEdgeTraversal_nonneg e weights Hweights (Hlengths _ _ He)). lra.
Qed.

Lemma walkTo_nonneg (es : list TraversableEdge) (here : string)
    (prev : option string) (c : R) :
  walkTo graph weights startId es here prev c -> 0 <= c.
Proof.
  induction 1 as [|es here prev c e _ IH He]; [lra|].
  pose proof (stepCost_nonneg prev here e He). lra.
Qed.

Lemma reachable_walkTo (y : string) :
  reachable graph startId y ->
  exists es prev c, walkTo graph weights startId es y prev c.
Proof.
  induction 1 as [|y e _ (es & prev & c & Hw) He].
  - exists [], None, 0. constructor.
  - eexists _, _, _. exact (walk_on _ _ _ _ _ _ _ e Hw He).
Qed.

Lemma rooted_mono (E E' : list PathState) (x : PathState) (l : list PathState) :
  incl E E' -> rooted graph weights startId E x l -> rooted graph weights startId E' x l.
Proof.
  intros Hincl. induction 1 as [|p l e _ IH Hp He]; constructor; auto.
Qed.

Lemma rooted_facts (E : list PathState) (x : PathState) (l : list PathState) :
  rooted graph weights startId E x l ->
  key x = createKey (nodeId x) (previousNodeId x)
  /\ walkTo graph weights startId (filterDefined (map viaEdge l))
       (nodeId x) (previousNodeId x) (cost x)
  /\ ps_distanceMeters x = distanceOf (filterDefined (map viaEdge l))
  /\ map nodeId l = startId :: map toNodeId (filterDefined (map viaEdge l))
  /\ last (map Some l) None = Some x
  /\ length l = S (length (filterDefined (map viaEdge l))).
Proof.
  induction 1 as [|p l e _ (Hk & Hw & Hd & Hn & Hl & Hlen) Hp He].
  - repeat split; try reflexivity; try constructor.
  - assert (Hes : filterDefined (map viaEdge (l ++ [nextStateOf graph weights p e]))
                  = filterDefined (map viaEdge l) ++ [e]).
    { unfold filterDefined. rewrite map_app, flat_map_app. reflexivity. }
    rewrite Hes. split; [reflexivity|]. split; [|split; [|split; [|split]]].
    + simpl. rewrite nextCostOf_step. now constructor.
    + cbn [ps_distanceMeters nextStateOf]. rewrite distanceOf_app, Hd.
      replace (distanceOf [e]) with (lengthMeters e); [reflexivity|].
      unfold distanceOf. cbn [fold_left]. lra.
    + rewrite !map_app, Hn. reflexivity.
    + rewrite map_app. simpl. apply last_last.
    + rewrite !length_app, Hlen. simpl. lia.
Qed.

Lemma rooted_nonneg (E : list PathState) (x : PathState) (l : list PathState) :
  rooted graph weights startId E x l -> 0 <= cost x.
Proof.
  intros H. apply rooted_facts in H. destruct H as (_ & Hw & _).
  now apply walkTo_nonneg in Hw.
Qed.

Lemma stepCost_start (prev : option string) (here : string) (e : TraversableEdge) :
  stepCost graph weights None here e <= stepCost graph weights prev here e.
Proof.
  unfold stepCost. pose proof (turnCost_nonneg prev here (toNodeId e)).
  simpl. lra.
Qed.

Lemma rooted_cases (E : list PathState) (x : PathState) (l : list PathState) :
  rooted graph weights startId E x l ->
  x = initialState startId
  \/ exists p e, In e (outgoingOf graph (nodeId p)) /\ x = nextStateOf graph weights p e.
Proof.
  destruct 1 as [|p l e _ _ He]; [now left|]. right. now exists p, e.
Qed.

Lemma rooted_same_key (E E' : list PathState) (x y : PathState) (l l' : list PathState) :
  rooted graph weights startId E x l -> rooted graph weights startId E' y l' ->
  key x = key y -> key x <> createKey startId None ->
  nodeId x = nodeId y /\ previousNodeId x = previousNodeId y.
Proof.
  intros Hx Hy Heq Hne.
  destruct (rooted_cases _ _ _ Hx) as [->|(p & e & He & ->)]; [now elim Hne|].
  destruct (rooted_cases _ _ _ Hy) as [->|(p' & e' & He' & ->)].
  - now elim Hne.
  - simpl in *. destruct (proj1 Hkeys _ _ _ _ He He' Heq) as [Hn Hp].
    split; [exact Hn | now rewrite Hp].
Qed.

(** *** One turn of the inner loop *)

Section Relax.

Variables E C : list PathState.
Variable current : PathState.
Hypothesis Hcurrent : In current E.
Hypothesis Hmin : forall x, In x E -> cost x <= cost current.

Lemma relax_inv (s : Search) (e : TraversableEdge) :
  searchInv graph weights startId endId E C s ->
  In e (outgoingOf graph (nodeId current)) ->
  searchInv graph weights startId endId E C (relax graph weights current s e)
  /\ relaxedEdge graph weights (relax graph weights current s e) current e
  /\ (forall k b, Js.get (bestCostByState s) k = Some b ->
        exists b', Js.get (bestCostByState (relax graph weights current s e)) k = Some b'
                   /\ b' <= b).
Proof.
  intros Hinv He. unfold relaxedEdge. rewrite relax_eq.
  set (z := nextStateOf graph weights current e).
  assert (Hz : cost current <= cost z)
    by (apply (nextCostOf_ge graph weights Hweights Hlengths); exact He).
  destruct (inv_expanded _ _ _ _ _ _ _ Hinv current Hcurrent) as ([lc Hrc] & _).
  assert (H0 : 0 <= cost current) by (eapply rooted_nonneg; exact Hrc).
  assert (Hskip : forall b, Js.get (bestCostByState s) (key z) = Some b ->
            Js.leb b (cost z) = true ->
            searchInv graph weights startId endId E C s
            /\ (exists b0, Js.get (bestCostByState s) (key z) = Some b0 /\ b0 <= cost z)
            /\ (forall k b1, Js.get (bestCostByState s) k = Some b1 ->
                  exists b', Js.get (bestCostByState s) k = Some b' /\ b' <= b1)).
  { intros b Hb Hle. split; [exact Hinv|]. split.
    - exists b. split; [exact Hb | now apply leb_true_iff].
    - intros k b1 Hk. exists b1. split; [exact Hk | lra]. }
  assert (Hpush : (forall b, Js.get (bestCostByState s) (key z) = Some b -> cost z < b) ->
            let s' := {| open := open s ++ [z];
                         bestCostByState := Js.set (bestCostByState s) (key z) (cost z);
                         stateMap := Js.set (stateMap s) (key z) z |} in
            searchInv graph weights startId endId E C s'
            /\ (exists b0, Js.get (bestCostByState s') (key z) = Some b0 /\ b0 <= cost z)
            /\ (forall k b1, Js.get (bestCostByState s) k = Some b1 ->
                  exists b', Js.get (bestCostByState s') k = Some b' /\ b' <= b1)).
  { intros Hlow s'. split; [|split].
    - constructor; simpl.
      + intros y Hy. apply in_app_or in Hy. destruct Hy as [Hy|[<-|[]]].
        * destruct (inv_open _ _ _ _ _ _ _ Hinv y Hy) as [Hr (b & Hb & Hle)].
          split; [exact Hr|].
          destruct (string_dec (key z) (key y)) as [Heq|Hne].
          -- rewrite <- Heq, get_set_same. exists (cost z). split; [reflexivity|].
             rewrite <- Heq in Hb. specialize (Hlow _ Hb). lra.
          -- rewrite get_set_other by assumption. eauto.
        * split.
          -- exists (lc ++ [z]). now constructor.
          -- rewrite get_set_same. exists (cost z). split; [reflexivity | lra].
      + intros y Hy Hbest. apply in_app_or in Hy. destruct Hy as [Hy|[<-|[]]].
        * destruct (string_dec (key z) (key y)) as [Heq|Hne].
          -- exfalso. rewrite <- Heq, get_set_same in Hbest.
             destruct (inv_open _ _ _ _ _ _ _ Hinv y Hy) as [_ (b & Hb & Hle)].
             rewrite <- Heq in Hb. specialize (Hlow _ Hb).
             assert (cost z = cost y) by (injection Hbest as Hbest; exact Hbest). lra.
          -- rewrite get_set_other in Hbest by assumption.
             rewrite get_set_other by assumption.
             now apply (inv_fresh _ _ _ _ _ _ _ Hinv).
        * apply get_set_same.
      + intros k x Hget. destruct (string_dec (key z) k) as [Heq|Hne].
        * rewrite <- Heq, get_set_same in Hget. injection Hget as <-.
          rewrite <- Heq, get_set_same.
          split; [reflexivity|]. split; [reflexivity|]. right.
          apply in_or_app. right. now left.
        * rewrite get_set_other in Hget by assumption.
          rewrite get_set_other by assumption.
          destruct (inv_map _ _ _ _ _ _ _ Hinv k x Hget) as (Hk & Hb & Hin).
          split; [exact Hk|]. split; [exact Hb|].
          destruct Hin as [Hin|Hin]; [now left|]. right. apply in_or_app. now left.
      + intros k b Hb. destruct (string_dec (key z) k) as [Heq|Hne].
        * exists z. rewrite <- Heq. apply get_set_same.
        * rewrite get_set_other in Hb by assumption.
          rewrite get_set_other by assumption.
          now apply (inv_best _ _ _ _ _ _ _ Hinv) with b.
      + intros x Hx.
        destruct (inv_expanded _ _ _ _ _ _ _ Hinv x Hx) as (Hr & Hm & Hn & Hc).
        split; [exact Hr|]. split; [|split; [exact Hn|]].
        * rewrite get_set_other; [exact Hm|]. intros Heq.
          destruct (inv_map _ _ _ _ _ _ _ Hinv _ _ Hm) as (_ & Hb & _).
          rewrite <- Heq in Hb. specialize (Hlow _ Hb).
          specialize (Hmin x Hx). lra.
        * intros y Hy. apply in_app_or in Hy. destruct Hy as [Hy|[<-|[]]].
          -- now apply Hc.
          -- specialize (Hmin x Hx). lra.
      + intros x e' Hx He'.
        destruct (inv_closed _ _ _ _ _ _ _ Hinv x e' Hx He') as (b & Hb & Hle).
        unfold relaxedEdge. simpl bestCostByState.
        destruct (string_dec (key z) (key (nextStateOf graph weights x e'))) as [Heq|Hne].
        * rewrite <- Heq, get_set_same. exists (cost z). split; [reflexivity|].
          rewrite <- Heq in Hb. specialize (Hlow _ Hb). lra.
        * rewrite get_set_other by assumption. eauto.
      + rewrite get_set_other; [exact (inv_start _ _ _ _ _ _ _ Hinv)|]. intros Heq.
        destruct (inv_map _ _ _ _ _ _ _ Hinv _ _ (inv_start _ _ _ _ _ _ _ Hinv))
          as (_ & Hb & _).
        rewrite <- Heq in Hb. specialize (Hlow _ Hb).
        change (cost (initialState startId)) with 0 in Hlow. lra.
      + intros y Hy Hk. apply in_app_or in Hy. destruct Hy as [Hy|[<-|[]]].
        * now apply (inv_first _ _ _ _ _ _ _ Hinv).
        * exfalso.
          destruct (inv_map _ _ _ _ _ _ _ Hinv _ _ (inv_start _ _ _ _ _ _ _ Hinv))
            as (_ & Hb & _).
          rewrite <- Hk in Hb. specialize (Hlow _ Hb).
          change (cost (initialState startId)) with 0 in Hlow. lra.
    - subst s'. cbn [bestCostByState]. rewrite get_set_same.
      exists (cost z). split; [reflexivity | lra].
    - intros k b1 Hk. subst s'. cbn [bestCostByState]. destruct (string_dec (key z) k) as [Heq|Hne].
      + rewrite <- Heq, get_set_same. exists (cost z). split; [reflexivity|].
        rewrite <- Heq in Hk. specialize (Hlow _ Hk). lra.
      + rewrite get_set_other by assumption. exists b1. split; [exact Hk | lra]. }
  remember (Js.get (bestCostByState s) (key z)) as known eqn:Eb in |- *.
  symmetry in Eb. destruct known as [b|].
  - destruct (Js.leb b (cost z)) eqn:El.
    + now apply Hskip with b.
    + apply Hpush. intros b0 Hb0. rewrite Eb in Hb0. injection Hb0 as <-.
      now apply leb_false_iff.
  - apply Hpush. intros b0 Hb0. rewrite Eb in Hb0. discriminate.
Qed.

Lemma relaxedEdge_lower (s s' : Search) (x : PathState) (e : TraversableEdge) :
  (forall k b, Js.get (bestCostByState s) k = Some b ->
     exists b', Js.get (bestCostByState s') k = Some b' /\ b' <= b) ->
  relaxedEdge graph weights s x e -> relaxedEdge graph weights s' x e.
Proof.
  intros Hlow (b & Hb & Hle). destruct (Hlow _ _ Hb) as (b' & Hb' & Hle').
  exists b'. split; [exact Hb' | lra].
Qed.

Lemma fold_inv (es : list TraversableEdge) :
  forall s : Search,
    searchInv graph weights startId endId E C s ->
    (forall e, In e es -> In e (outgoingOf graph (nodeId current))) ->
    searchInv graph weights startId endId E C (fold_left (relax graph weights current) es s)
    /\ (forall e, In e es ->
          relaxedEdge graph weights (fold_left (relax graph weights current) es s) current e)
    /\ (forall k b, Js.get (bestCostByState s) k = Some b ->
          exists b', Js.get (bestCostByState (fold_left (relax graph weights current) es s)) k
                     = Some b' /\ b' <= b).
Proof.
  induction es as [|e es IH]; intros s Hinv Hes; simpl.
  - split; [exact Hinv|]. split; [intros e []|].
    intros k b Hb. exists b. split; [exact Hb | lra].
  - destruct (relax_inv s e Hinv (Hes e (or_introl eq_refl))) as (Hinv1 & Hrel & Hlow).
    destruct (IH _ Hinv1 (fun e' H => Hes e' (or_intror H))) as (Hinv2 & Hrel2 & Hlow2).
    split; [exact Hinv2|]. split.
    + intros e' [<-|He']; [|now apply Hrel2].
      now apply relaxedEdge_lower with (relax graph weights current s e).
    + intros k b Hb. destruct (Hlow _ _ Hb) as (b1 & Hb1 & Hle1).
      destruct (Hlow2 _ _ Hb1) as (b2 & Hb2 & Hle2). exists b2. split; [exact Hb2 | lra].
Qed.

End Relax.

Lemma fold_skip (current : PathState) (es : list TraversableEdge) (s : Search) :
  (forall e, In e es -> relax graph weights current s e = s) ->
  fold_left (relax graph weights current) es s = s.
Proof.
  induction es as [|e es IH]; intros H; simpl; [reflexivity|].
  rewrite (H e (or_introl eq_refl)). apply IH. intros e' He'. apply H. now right.
Qed.

Lemma initialSearch_inv :
  searchInv graph weights startId endId [] [] (initialSearch startId).
Proof.
  constructor; simpl.
  - intros y [<-|[]]. split; [exists [initialState startId]; constructor|].
    simpl. rewrite String.eqb_refl. exists 0. split; [reflexivity | lra].
  - intros y [<-|[]] _. simpl. now rewrite String.eqb_refl.
  - intros k x. destruct (String.eqb (createKey startId None) k) eqn:Ek; [|discriminate].
    apply String.eqb_eq in Ek. intros [= <-]. split; [exact Ek|].
    split; [reflexivity|]. right. now left.
  - intros k b. destruct (String.eqb (createKey startId None) k); [|discriminate].
    intros _. now exists (initialState startId).
  - intros x [].
  - intros x e [].
  - now rewrite String.eqb_refl.
  - now intros y [<-|[]] _.
Qed.

Lemma stored_same (E C : list PathState) (s : Search) (current x : PathState)
    (lc lx : list PathState) :
  searchInv graph weights startId endId E C s ->
  In current (open s) ->
  Js.get (stateMap s) (key current) = Some x ->
  rooted graph weights startId E current lc ->
  rooted graph weights startId E x lx ->
  nodeId x = nodeId current /\ previousNodeId x = previousNodeId current.
Proof.
  intros Hinv Hcur Hx Hrc Hrx.
  destruct (inv_map _ _ _ _ _ _ _ Hinv _ _ Hx) as (Hkx & _).
  destruct (string_dec (key current) (createKey startId None)) as [Heq|Hne].
  - rewrite Heq, (inv_start _ _ _ _ _ _ _ Hinv) in Hx. injection Hx as <-.
    rewrite (inv_first _ _ _ _ _ _ _ Hinv _ Hcur Heq). now split.
  - apply (rooted_same_key _ _ _ _ _ _ Hrx Hrc Hkx). congruence.
Qed.

(** *** One turn of the outer loop *)

Lemma turn_inv (E : list PathState) (s : Search) (current : PathState)
    (rest : list PathState) :
  searchInv graph weights startId endId E E s ->
  Js.sort byCost (open s) = current :: rest ->
  nodeId current <> endId ->
  exists E', searchInv graph weights startId endId E' E'
               (expandCurrent graph weights current rest s).
Proof.
  intros Hinv Hsort Hgoal.
  destruct (sort_head _ _ _ Hsort) as [Hperm Hleast].
  assert (Hcur : In current (open s))
    by (apply (Permutation_in _ Hperm); now left).
  assert (Hrest : forall y, In y rest -> In y (open s))
    by (intros y Hy; apply (Permutation_in _ Hperm); now right).
  assert (Hsplit : forall y, In y (open s) -> y = current \/ In y rest).
  { intros y Hy. apply (Permutation_in _ (Permutation_sym Hperm)) in Hy.
    destruct Hy as [<-|Hy]; auto. }
  destruct (inv_open _ _ _ _ _ _ _ Hinv current Hcur) as ([lc Hrc] & b & Hb & Hle).
  destruct (inv_best _ _ _ _ _ _ _ Hinv _ _ Hb) as [x Hx].
  destruct (inv_map _ _ _ _ _ _ _ Hinv _ _ Hx) as (Hkx & Hbx & Hin).
  assert (Hcx : cost x = b) by congruence.
  unfold expandCurrent.
  set (s0 := {| open := rest; bestCostByState := bestCostByState s;
                stateMap := stateMap s |}).
  destruct Hin as [Hin|Hin].
  - (* the key of [current] was expanded before: nothing is pushed *)
    exists E.
    destruct (inv_expanded _ _ _ _ _ _ _ Hinv x Hin) as ([lx Hrx] & _).
    destruct (stored_same _ _ _ _ _ _ _ Hinv Hcur Hx Hrc Hrx) as [Hn Hp].
    rewrite fold_skip.
    + constructor; simpl.
      * intros y Hy. apply (inv_open _ _ _ _ _ _ _ Hinv). now apply Hrest.
      * intros y Hy. apply (inv_fresh _ _ _ _ _ _ _ Hinv). now apply Hrest.
      * intros k y Hy. destruct (inv_map _ _ _ _ _ _ _ Hinv k y Hy) as (Hk & Hby & Hiny).
        split; [exact Hk|]. split; [exact Hby|].
        destruct Hiny as [Hiny|Hiny]; [now left|].
        destruct (Hsplit _ Hiny) as [->|Hy']; [|now right].
        left. rewrite <- Hk in Hy. rewrite Hx in Hy. now injection Hy as <-.
      * apply (inv_best _ _ _ _ _ _ _ Hinv).
      * intros y Hy. destruct (inv_expanded _ _ _ _ _ _ _ Hinv y Hy) as (A & B & D & F).
        split; [exact A|]. split; [exact B|]. split; [exact D|].
        intros y' Hy'. apply F. now apply Hrest.
      * apply (inv_closed _ _ _ _ _ _ _ Hinv).
      * apply (inv_start _ _ _ _ _ _ _ Hinv).
      * intros y Hy. apply (inv_first _ _ _ _ _ _ _ Hinv). now apply Hrest.
    + intros e He. rewrite relax_eq.
      rewrite <- Hn in He.
      destruct (inv_closed _ _ _ _ _ _ _ Hinv x e Hin He) as (b' & Hb' & Hle').
      assert (Hkey : key (nextStateOf graph weights current e)
                     = key (nextStateOf graph weights x e))
        by (simpl; now rewrite Hn).
      simpl bestCostByState. rewrite Hkey, Hb'.
      replace (Js.leb b' (cost (nextStateOf graph weights current e))) with true;
        [reflexivity|].
      symmetry. apply leb_true_iff. simpl in *.
      rewrite nextCostOf_step in *. rewrite <- Hn, <- Hp. lra.
  - (* [current] is the state stored for its key: it is expanded *)
    assert (Hcost : cost current = b).
    { destruct (Hsplit _ Hin) as [->|Hxr]; [lra|].
      specialize (Hleast _ Hxr). lra. }
    assert (Hstored : Js.get (stateMap s) (key current) = Some current).
    { apply (inv_fresh _ _ _ _ _ _ _ Hinv); [exact Hcur|]. now rewrite Hcost. }
    exists (current :: E).
    assert (Hmin : forall y, In y (current :: E) -> cost y <= cost current).
    { intros y [<-|Hy]; [lra|].
      destruct (inv_expanded _ _ _ _ _ _ _ Hinv y Hy) as (_ & _ & _ & F). now apply F. }
    assert (Hinv0 : searchInv graph weights startId endId (current :: E) E s0).
    { constructor; simpl.
      - intros y Hy.
        destruct (inv_open _ _ _ _ _ _ _ Hinv y (Hrest _ Hy)) as ([l Hr] & Hbest).
        split; [|exact Hbest]. exists l.
        apply rooted_mono with E; [|exact Hr]. intros a Ha. now right.
      - intros y Hy. apply (inv_fresh _ _ _ _ _ _ _ Hinv). now apply Hrest.
      - intros k y Hy. destruct (inv_map _ _ _ _ _ _ _ Hinv k y Hy) as (Hk & Hby & Hiny).
        split; [exact Hk|]. split; [exact Hby|].
        destruct Hiny as [Hiny|Hiny]; [left; now right|].
        destruct (Hsplit _ Hiny) as [->|Hy']; [left; now left | now right].
      - apply (inv_best _ _ _ _ _ _ _ Hinv).
      - intros y [<-|Hy].
        + split; [|split; [exact Hstored | split; [exact Hgoal | exact Hleast]]].
          exists lc. apply rooted_mono with E; [|exact Hrc]. intros a Ha. now right.
        + destruct (inv_expanded _ _ _ _ _ _ _ Hinv y Hy) as ([l Hr] & B & D & F).
          split; [|split; [exact B | split; [exact D|]]].
          * exists l. apply rooted_mono with E; [|exact Hr]. intros a Ha. now right.
          * intros y' Hy'. apply F. now apply Hrest.
      - apply (inv_closed _ _ _ _ _ _ _ Hinv).
      - apply (inv_start _ _ _ _ _ _ _ Hinv).
      - intros y Hy. apply (inv_first _ _ _ _ _ _ _ Hinv). now apply Hrest. }
    destruct (fold_inv (current :: E) E current (or_introl eq_refl) Hmin
                (outgoingOf graph (nodeId current)) s0 Hinv0 (fun e H => H))
      as (Hinv1 & Hrel & Hlow).
    destruct Hinv1 as [I1 I2 I3 I4 I5 I6 I7 I8].
    constructor; try assumption.
    intros y e [<-|Hy] He; [now apply Hrel | now apply I6].
Qed.

(** *** What the invariant says of walks *)

Lemma walk_bound (E : list PathState) (s : Search) (es : list TraversableEdge)
    (here : string) (prev : option string) (c : R) :
  searchInv graph weights startId endId E E s ->
  walkTo graph weights startId es here prev c ->
  (exists x, In x E /\ nodeId x = here
             /\ (previousNodeId x = prev \/ previousNodeId x = None) /\ cost x <= c)
  \/ (exists y, In y (open s) /\ cost y <= c).
Proof.
  intros Hinv. induction 1 as [|es here prev c e Hw IH He].
  - destruct (inv_map _ _ _ _ _ _ _ Hinv _ _ (inv_start _ _ _ _ _ _ _ Hinv))
      as (_ & _ & [Hin|Hin]).
    + left. exists (initialState startId).
      split; [assumption|]. split; [reflexivity|]. split; [now left | simpl; lra].
    + right. exists (initialState startId). split; [assumption | simpl; lra].
  - pose proof (stepCost_nonneg prev here e He) as Hstep.
    destruct IH as [(x & Hx & Hn & Hp & Hc)|(y & Hy & Hc)].
    + rewrite <- Hn in He.
      destruct (inv_closed _ _ _ _ _ _ _ Hinv x e Hx He) as (b & Hb & Hle).
      destruct (inv_best _ _ _ _ _ _ _ Hinv _ _ Hb) as [w Hget].
      destruct (inv_map _ _ _ _ _ _ _ Hinv _ _ Hget) as (Hkw & Hbw & Hin).
      assert (Hcw : cost w <= c + stepCost graph weights prev here e).
      { assert (cost w = b) by congruence.
        simpl in Hle. rewrite nextCostOf_step, Hn in Hle.
        pose proof (stepCost_start prev here e).
        destruct Hp as [Hp|Hp]; rewrite Hp in Hle; lra. }
      destruct Hin as [Hin|Hin].
      * left. exists w. split; [exact Hin|].
        destruct (string_dec (key w) (createKey startId None)) as [Heq|Hne].
        -- rewrite Hkw in Heq.
           pose proof (inv_start _ _ _ _ _ _ _ Hinv) as Hs.
           rewrite <- Heq, Hget in Hs. injection Hs as ->.
           split; [|split; [now right | exact Hcw]].
           simpl. symmetry. apply (proj2 Hkeys (nodeId x) e He Heq).
        -- destruct (inv_expanded _ _ _ _ _ _ _ Hinv w Hin) as ([lw Hrw] & _).
           destruct (inv_expanded _ _ _ _ _ _ _ Hinv x Hx) as ([lx Hrx] & _).
           pose proof (rooted_next graph weights startId E x lx e Hrx Hx He) as Hrz.
           destruct (rooted_same_key _ _ _ _ _ _ Hrw Hrz Hkw Hne) as [Hnw Hpw].
           simpl in Hnw, Hpw. rewrite Hn in Hpw.
           split; [exact Hnw|]. split; [now left | exact Hcw].
      * right. exists w. split; assumption.
    + right. exists y. split; [exact Hy | lra].
Qed.

Lemma walkBack_rooted (E : list PathState) (sm : Js.Map PathState)
    (x : PathState) (l : list PathState) :
  rooted graph weights startId E x l ->
  (forall p, In p E -> Js.get sm (key p) = Some p) ->
  Js.get sm (createKey startId None) = Some (initialState startId) ->
  Js.get sm (key x) = Some x ->
  forall (fuel : nat) (acc : list PathState),
    (length l <= fuel)%nat ->
    walkBack fuel sm (Some (key x)) acc = Some (acc ++ rev l).
Proof.
  intros Hr HE Hinit. induction Hr as [|p l e Hr IH Hp He]; intros Hx fuel acc Hfuel.
  - destruct fuel as [|fuel]; [simpl in Hfuel; lia|].
    cbn [walkBack key initialState]. rewrite createKey_truthy, Hinit.
    cbn [parentKey]. destruct fuel; reflexivity.
  - rewrite length_app in Hfuel. simpl in Hfuel.
    destruct fuel as [|fuel]; [lia|].
    cbn [walkBack]. rewrite Hx.
    change (Js.truthy (key (nextStateOf graph weights p e)))
      with (Js.truthy (createKey (toNodeId e) (Some (nodeId p)))).
    rewrite createKey_truthy. cbn [parentKey nextStateOf].
    rewrite (IH (HE _ Hp) fuel (acc ++ [nextStateOf graph weights p e])) by lia.
    rewrite rev_app_distr. simpl. now rewrite <- app_assoc.
Qed.

(** The state stored for the key of a state taken from the frontier at the
    goal is the end of a walk that no walk to the goal undercuts. *)
Lemma goal_state (E : list PathState) (s : Search) (current : PathState)
    (rest : list PathState) :
  searchInv graph weights startId endId E E s ->
  Js.sort byCost (open s) = current :: rest ->
  nodeId current = endId ->
  exists x l,
    Js.get (stateMap s) (key current) = Some x
    /\ rooted graph weights startId E x l
    /\ nodeId x = endId
    /\ (forall es prev c, walkTo graph weights startId es endId prev c -> cost x <= c).
Proof.
  intros Hinv Hsort Hgoal.
  destruct (sort_head _ _ _ Hsort) as [Hperm Hleast].
  assert (Hcur : In current (open s))
    by (apply (Permutation_in _ Hperm); now left).
  destruct (inv_open _ _ _ _ _ _ _ Hinv current Hcur) as ([lc Hrc] & b & Hb & Hle).
  destruct (inv_best _ _ _ _ _ _ _ Hinv _ _ Hb) as [x Hx].
  destruct (inv_map _ _ _ _ _ _ _ Hinv _ _ Hx) as (Hkx & Hbx & Hin).
  assert (Hcx : cost x = b) by congruence.
  assert (Hrx : exists l, rooted graph weights startId E x l).
  { destruct Hin as [Hin|Hin].
    - now destruct (inv_expanded _ _ _ _ _ _ _ Hinv x Hin) as (Hr & _).
    - now destruct (inv_open _ _ _ _ _ _ _ Hinv x Hin) as (Hr & _). }
  destruct Hrx as [l Hrx]. exists x, l.
  destruct (stored_same _ _ _ _ _ _ _ Hinv Hcur Hx Hrc Hrx) as [Hn _].
  split; [exact Hx|]. split; [exact Hrx|]. split; [congruence|].
  intros es prev c Hw.
  destruct (walk_bound E s es endId prev c Hinv Hw) as [(w & Hw1 & Hw2 & _)|(y & Hy & Hc)].
  - destruct (inv_expanded _ _ _ _ _ _ _ Hinv w Hw1) as (_ & _ & Hne & _). contradiction.
  - apply (Permutation_in _ (Permutation_sym Hperm)) in Hy.
    destruct Hy as [<-|Hy]; [lra|]. specialize (Hleast _ Hy). lra.
Qed.

Lemma goal_result (E : list PathState) (s : Search) (current : PathState)
    (rest : list PathState) :
  searchInv graph weights startId endId E E s ->
  Js.sort byCost (open s) = current :: rest ->
  nodeId current = endId ->
  exists r bound,
    (forall rfuel, (bound <= rfuel)%nat ->
       reconstructPath rfuel (stateMap s) (key current) = Js.Returns r)
    /\ pathOf graph weights startId endId r
    /\ (forall es prev c, walkTo graph weights startId es endId prev c -> totalCost r <= c).
Proof.
  intros Hinv Hsort Hgoal.
  destruct (goal_state E s current rest Hinv Hsort Hgoal) as (x & l & Hx & Hrx & Hn & Hbest).
  destruct (inv_map _ _ _ _ _ _ _ Hinv _ _ Hx) as (Hkx & _).
  destruct (rooted_facts _ _ _ Hrx) as (_ & Hw & Hd & Hids & Hlast & _).
  exists {| nodeIds := map nodeId l;
            traversedEdges := filterDefined (map viaEdge l);
            totalDistanceMeters := ps_distanceMeters x;
            totalCost := cost x |}, (length l).
  split; [|split].
  - intros rfuel Hfuel. unfold reconstructPath.
    rewrite <- Hkx.
    rewrite (walkBack_rooted E (stateMap s) x l Hrx); try assumption.
    + simpl. rewrite rev_involutive, Hlast. reflexivity.
    + intros p Hp. now destruct (inv_expanded _ _ _ _ _ _ _ Hinv p Hp) as (_ & H & _).
    + apply (inv_start _ _ _ _ _ _ _ Hinv).
    + now rewrite Hkx.
  - unfold pathOf. simpl. split; [exact Hids|]. split; [|exact Hd].
    exists (previousNodeId x). now rewrite <- Hn.
  - exact Hbest.
Qed.

(** *** The loop *)

Lemma search_returns (n m : nat) (E : list PathState) (s : Search) :
  searchInv graph weights startId endId E E s ->
  frontierSound graph startId s ->
  unsettledKeys graph startId s = n -> settledStates s = m ->
  reachable graph startId endId ->
  exists fuel bound r,
    (forall rfuel, (bound <= rfuel)%nat ->
       searchLoop fuel rfuel graph weights startId endId s = Js.Returns r)
    /\ pathOf graph weights startId endId r
    /\ (forall es prev c, walkTo graph weights startId es endId prev c -> totalCost r <= c).
Proof.
  intros Hinv Hs Hn Hm Hreach. revert m E s Hinv Hs Hn Hm.
  induction n as [n IHn] using lt_wf_ind.
  induction m as [m IHm] using lt_wf_ind. intros E s Hinv Hs Hn Hm.
  destruct (Js.sort byCost (open s)) as [|current rest] eqn:Es.
  - exfalso. apply sort_nil in Es.
    destruct (reachable_walkTo _ Hreach) as (es & prev & c & Hw).
    destruct (walk_bound E s es endId prev c Hinv Hw) as [(w & Hw1 & Hw2 & _)|(y & Hy & _)].
    + destruct (inv_expanded _ _ _ _ _ _ _ Hinv w Hw1) as (_ & _ & Hne & _). contradiction.
    + rewrite Es in Hy. destruct Hy.
  - destruct (String.eqb (nodeId current) endId) eqn:Egoal.
    + apply String.eqb_eq in Egoal.
      destruct (goal_result E s current rest Hinv Es Egoal) as (r & bound & Hr & Hpath & Hbest).
      exists 1%nat, bound, r. split; [|split; assumption].
      intros rfuel Hfuel. simpl. rewrite Es.
      replace (String.eqb (nodeId current) endId) with true
        by (symmetry; now apply String.eqb_eq).
      now apply Hr.
    + assert (Hne : nodeId current <> endId) by now apply String.eqb_neq.
      destruct (turn_inv E s current rest Hinv Es Hne) as [E' Hinv1].
      pose proof (turn_sound graph weights startId Hweights Hlengths
                    s current rest Hs Es _ eq_refl) as Hs1.
      assert (Hrec : exists fuel bound r,
                (forall rfuel, (bound <= rfuel)%nat ->
                   searchLoop fuel rfuel graph weights startId endId
                     (expandCurrent graph weights current rest s) = Js.Returns r)
                /\ pathOf graph weights startId endId r
                /\ (forall es prev c,
                      walkTo graph weights startId es endId prev c -> totalCost r <= c)).
      { destruct (turn_decreases graph weights startId Hweights Hlengths
                    s current rest Hs Es _ eq_refl) as [Hlt|[Heq Hlt]].
        - apply (IHn _ ltac:(rewrite <- Hn; exact Hlt) _ E' _ Hinv1 Hs1 eq_refl eq_refl).
        - apply (IHm _ ltac:(rewrite <- Hm; exact Hlt) E' _ Hinv1 Hs1);
            [congruence | reflexivity]. }
      destruct Hrec as (fuel & bound & r & Hr & Hpath & Hbest).
      exists (S fuel), bound, r. split; [|split; assumption].
      intros rfuel Hfuel. simpl. rewrite Es, Egoal. now apply Hr.
Qed.

Lemma search_partial (fuel rfuel : nat) :
  forall (E : list PathState) (s : Search) (r : PathResult),
    searchInv graph weights startId endId E E s ->
    searchLoop fuel rfuel graph weights startId endId s = Js.Returns r ->
    pathOf graph weights startId endId r
    /\ (forall es prev c, walkTo graph weights startId es endId prev c -> totalCost r <= c).
Proof.
  induction fuel as [|fuel IH]; intros E s r Hinv H; [discriminate|].
  simpl in H. destruct (Js.sort byCost (open s)) as [|current rest] eqn:Es; [discriminate|].
  destruct (String.eqb (nodeId current) endId) eqn:Egoal.
  - apply String.eqb_eq in Egoal.
    destruct (goal_result E s current rest Hinv Es Egoal) as (r' & bound & Hr & Hgood).
    enough (r = r') by now subst.
    specialize (Hr (Nat.max bound rfuel) (Nat.le_max_l _ _)).
    unfold reconstructPath in H, Hr.
    destruct (walkBack rfuel (stateMap s) (Some (key current)) []) as [reversed|] eqn:Ew;
      [|discriminate].
    rewrite (walkBack_more_fuel _ _ _ _ _ _ Ew (Nat.le_max_r _ _)) in Hr.
    congruence.
  - assert (Hne : nodeId current <> endId) by now apply String.eqb_neq.
    destruct (turn_inv E s current rest Hinv Es Hne) as [E' Hinv1].
    now apply (IH E' _ r Hinv1).
Qed.

End Cheapest.

(** *** Keys of ids without the separator *)

Lemma split_at (c : ascii) (a : string) :
  forall (a' b b' : string),
    hasChar c a = false -> hasChar c a' = false ->
    (a ++ String c b)%string = (a' ++ String c b')%string -> a = a' /\ b = b'.
Proof.
  induction a as [|c0 a IH]; intros [|c' a'] b b' Ha Ha' H; simpl in *.
  - injection H as ->. now split.
  - injection H as <- _. rewrite Ascii.eqb_refl in Ha'. discriminate.
  - injection H as -> _. rewrite Ascii.eqb_refl in Ha. discriminate.
  - injection H as -> H.
    apply orb_false_elim in Ha. apply orb_false_elim in Ha'.
    destruct (IH a' b b' (proj2 Ha) (proj2 Ha') H) as [-> ->]. now split.
Qed.

Lemma key_split (a a' b b' : string) :
  hasBar a = false -> hasBar a' = false ->
  (a ++ "|" ++ b)%string = (a' ++ "|" ++ b')%string -> a = a' /\ b = b'.
Proof. apply split_at. Qed.

Lemma plainIds_distinctKeys (graph : RoadGraph) (startId : string) :
  plainIds graph startId -> distinctKeys graph startId.
Proof.
  intros [Hs He]. split.
  - intros m e m' e' Hin Hin' Hk. unfold createKey in Hk.
    apply key_split in Hk; [exact Hk | now apply He with m | now apply He with m'].
  - intros m e Hin Hk. unfold createKey in Hk.
    apply key_split in Hk; [apply Hk | now apply He with m | exact Hs].
Qed.


(** X21. For node ids without the separator "|", two keys are equal only for
    the same node id and, the node before it apart, only when one state has
    no node before it and the other comes from a node with the id "start". *)
Theorem createKey_plain_ids (n n' : string) (p p' : option string) :
  hasBar n = false -> hasBar n' = false ->
  createKey n p = createKey n' p' ->
  n = n'
  /\ (p = p' \/ (p = None /\ p' = Some "start") \/ (p = Some "start" /\ p' = None)).
Proof.
  intros Hn Hn' Hk. unfold createKey in Hk.
  apply key_split in Hk; [|assumption..]. destruct Hk as [-> Hp]. split; [reflexivity|].
  destruct p as [p|], p' as [p'|]; subst; auto.
Qed.

Lemma createKey_plain_ids_witness :
  "A" = "A"
  /\ (@None string = Some "start" \/ (@None string = None /\ Some "start" = Some "start")
      \/ (@None string = Some "start" /\ Some "start" = @None string)).
Proof.
  apply (createKey_plain_ids "A" "A" None (Some "start")); reflexivity.
Defined.

(** *** The search *)










(** *** The coverage optimizer over the in-memory search *)

Lemma outgoingOf_indexed (graph : RoadGraph) (k : string) (e : TraversableEdge) :
  In e (outgoingOf graph k) -> In e (indexedEdges graph).
Proof.
  unfold outgoingOf, indexedEdges, Js.values. intros He.
  destruct (Js.get (traversableFrom graph) k) as [l|] eqn:Eg; [|now elim He].
  apply get_In in Eg. apply in_concat. exists l. split; [|exact He].
  apply in_map_iff. now exists (k, l).
Qed.

Lemma uniqueEdges_indexed (graph : RoadGraph) (e : TraversableEdge) :
  In e (uniqueEdges graph) -> In e (indexedEdges graph).
Proof.
  destruct (uniqueEdges_fold (Js.values (traversableFrom graph)) [] ([], []))
    as (_ & _ & Hsub & _).
  { split; [reflexivity|]. split; [constructor|]. split; intros e' []. }
  exact (Hsub e).
Qed.

Lemma findNearestNodeId_node (graph : RoadGraph) (c : Coordinate) (id : string) :
  findNearestNodeId graph c = Js.Returns id ->
  exists node, In node (Js.values (nodes graph)) /\ node_id node = id.
Proof.
  unfold findNearestNodeId. pose proof (nearest_scan c (Js.values (nodes graph))) as H.
  destruct (Js.values (nodes graph)) as [|n l] eqn:El.
  - rewrite H. simpl. discriminate.
  - destruct H as (node & (before & after & Hl & _) & ->). simpl fst.
    destruct (Js.truthy (node_id node)); [|discriminate].
    intros [= <-]. exists node. split; [|reflexivity].
    rewrite Hl. apply in_or_app. right. now left.
Qed.

Lemma plainGraph_keys (graph : RoadGraph) (startId : string) :
  plainGraph graph -> hasBar startId = false -> distinctKeys graph startId.
Proof.
  intros [_ He] Hs. apply plainIds_distinctKeys. split; [exact Hs|].
  intros m e Hin. apply He. now apply outgoingOf_indexed with m.
Qed.

Lemma coverage_plain_graph (graph : RoadGraph)
    (request : CoverageRouteRequest) (c : R) (fuel : nat) (clock : Clock)
    (r : GeneratedRoute) :
  plainGraph graph ->
  (forall e, In e (indexedEdges graph) -> 0 <= lengthMeters e) ->
  cr_maxDistanceMeters request = Some c ->
  0 < c ->
  optimizeCoverageRoute (findPath fuel) graph request clock = Js.Returns r ->
  route_distanceMeters r <= c.
Proof.
  intros Hplain Hlen Hcap Hc.
  apply (coverage_withinCap (findPath fuel) graph request c
           (fun id => hasBar id = false)); try assumption.
  - intros from to result Hfrom Hrun.
    assert (Hlengths : nonnegLengths graph)
      by (intros k e He; apply Hlen; now apply outgoingOf_indexed with k).
    apply (search_partial graph DEFAULT_ROUTE_OBJECTIVE_WEIGHTS from to
             default_weights_nonneg Hlengths (plainGraph_keys graph from Hplain Hfrom)
             fuel fuel [] _ result (initialSearch_inv _ _ _ _) Hrun).
  - intros e He. now apply (proj2 Hplain), uniqueEdges_indexed.
  - intros e He. now apply Hlen, uniqueEdges_indexed.
  - intros startId Hnear. apply findNearestNodeId_node in Hnear.
    destruct Hnear as (node & Hin & <-). now apply (proj1 Hplain).
Qed.




(* ================================================================== *)
(** ** The seed graph *)

Lemma seedSize_bounds (radiusMeters : option R) :
  (7 <= seedSize radiusMeters <= 27)%nat
  /\ exists k, seedSize radiusMeters = (2 * k + 1)%nat.
Proof.
  unfold seedSize.
  set (q := match radiusMeters with
            | Some r => if Js.truthyNumber r then (ceil (r / 175) * 2 + 1)%Z else 7%Z
            | None => 7%Z
            end).
  assert (Hq : exists c, q = (2 * c + 1)%Z).
  { unfold q. destruct radiusMeters as [r|]; [|now exists 3%Z].
    destruct (Js.truthyNumber r); [|now exists 3%Z].
    exists (ceil (r / 175)). lia. }
  destruct Hq as [c Hc]. clearbody q. subst q. split; [lia|].
  destruct (Z.le_gt_cases (2 * c + 1) 7) as [Hlow|Hlow];
    [exists 3%nat; lia|].
  destruct (Z.le_gt_cases 27 (2 * c + 1)) as [Hhigh|Hhigh];
    [exists 13%nat; lia|].
  exists (Z.to_nat c). lia.
Qed.

Lemma forEach_nil {A S : Type} (body : A -> S -> Js.outcome S) (s : S) :
  forEach [] body s = Js.Returns s.
Proof. reflexivity. Qed.

Lemma fold_stuck {A S : Type} (body : A -> S -> Js.outcome S) (l : list A) (m : string) :
  fold_left (fun acc a => s' <- acc ;; body a s') l (Js.Throws m) = Js.Throws m.
Proof. induction l as [|a l IH]; simpl; auto. Qed.

Lemma fold_starved {A S : Type} (body : A -> S -> Js.outcome S) (l : list A) :
  fold_left (fun acc a => s' <- acc ;; body a s') l Js.OutOfFuel = Js.OutOfFuel.
Proof. induction l as [|a l IH]; simpl; auto. Qed.

Lemma forEach_cons {A S : Type} (body : A -> S -> Js.outcome S) (a : A) (l : list A) (s : S) :
  forEach (a :: l) body s = (s' <- body a s ;; forEach l body s').
Proof.
  unfold forEach. simpl. destruct (body a s) as [s'|m|]; simpl.
  - reflexivity.
  - apply fold_stuck.
  - apply fold_starved.
Qed.

Lemma forEach_app {A S : Type} (body : A -> S -> Js.outcome S) (l l' : list A) (s : S) :
  forEach (l ++ l') body s = (s' <- forEach l body s ;; forEach l' body s').
Proof.
  revert s. induction l as [|a l IH]; intros s; [reflexivity|].
  simpl app. rewrite !forEach_cons. destruct (body a s) as [s'|m|]; cbn [Js.bind]; auto.
Qed.

Lemma forEach_map {A B S : Type} (f : A -> B) (body : B -> S -> Js.outcome S)
    (l : list A) (s : S) :
  forEach (map f l) body s = forEach l (fun a => body (f a)) s.
Proof.
  revert s. induction l as [|a l IH]; intros s; [reflexivity|].
  simpl map. rewrite !forEach_cons. destruct (body (f a) s); cbn [Js.bind]; auto.
Qed.

(** Nested loops are one loop over the pairs. *)
Lemma forEach_nested {A B S : Type} (outer : list A) (inner : list B)
    (body : A -> B -> S -> Js.outcome S) (s : S) :
  forEach outer (fun a => forEach inner (body a)) s
  = forEach (flat_map (fun a => map (pair a) inner) outer)
      (fun ab => body (fst ab) (snd ab)) s.
Proof.
  revert s. induction outer as [|a outer IH]; intros s; [reflexivity|].
  simpl flat_map. rewrite forEach_cons, forEach_app, forEach_map. cbn [fst snd].
  change (fun b => body a b) with (body a).
  destruct (forEach inner (body a) s); cbn [Js.bind]; auto.
Qed.

Lemma getNode_seedNodes (center : Coordinate) (size y x : nat) :
  onGrid size y x ->
  getNode (seedNodes center size) size y x = Some (seedNode center (size / 2) y x).
Proof.
  intros [Hy Hx]. unfold getNode, seedNodes.
  generalize (size / 2)%nat as half. intros half.
  assert (H : forall rows start y,
            (y < rows)%nat ->
            nth_error
              (flat_map (fun y => map (fun x => seedNode center half y x) (seq 0 size))
                 (seq start rows)) (y * size + x)
            = Some (seedNode center half (start + y) x)).
  { induction rows as [|rows IH]; intros start y0 Hy0; [lia|].
    simpl. destruct y0 as [|y0].
    - rewrite nth_error_app1 by (rewrite length_map, length_seq; simpl; lia).
      simpl. rewrite nth_error_map, nth_error_seq.
      replace (x <? size)%nat with true by (symmetry; now apply Nat.ltb_lt).
      simpl. now rewrite Nat.add_0_r.
    - rewrite nth_error_app2 by (rewrite length_map, length_seq; simpl; lia).
      rewrite length_map, length_seq.
      replace (S y0 * size + x - size)%nat with (y0 * size + x)%nat by (simpl; lia).
      rewrite IH by lia. f_equal. f_equal. lia. }
  now apply (H size 0%nat y).
Qed.

Lemma flat_map_pairs {A B C : Type} (g : A -> B -> C) (outer : list A) (inner : list B) :
  flat_map (fun a => map (g a) inner) outer
  = map (fun ab => g (fst ab) (snd ab)) (flat_map (fun a => map (pair a) inner) outer).
Proof.
  induction outer as [|a outer IH]; [reflexivity|].
  simpl. now rewrite map_app, map_map, IH.
Qed.

Lemma rowEdges_tasks (nodeList : list RoadNode) (size : nat) (rows : list string)
    (acc : list RoadEdge * nat) :
  rowEdges nodeList size rows acc
  = forEach (rowTasks size rows) (runTask nodeList size) acc.
Proof.
  unfold rowEdges, rowTasks. rewrite forEach_nested.
  rewrite (flat_map_pairs
             (fun y x => {| task_from := (y, x); task_to := (y, (x + 1)%nat);
                            task_name := nth y rows "undefined";
                            task_sidewalk := true;
                            task_lit := negb (y mod 4 =? 0)%nat;
                            task_stress := stressOf y |})).
  now rewrite forEach_map.
Qed.

Lemma columnEdges_tasks (nodeList : list RoadNode) (size : nat) (cols : list string)
    (acc : list RoadEdge * nat) :
  columnEdges nodeList size cols acc
  = forEach (columnTasks size cols) (runTask nodeList size) acc.
Proof.
  unfold columnEdges, columnTasks. rewrite forEach_nested.
  rewrite (flat_map_pairs
             (fun x y => {| task_from := (y, x); task_to := ((y + 1)%nat, x);
                            task_name := nth x cols "undefined";
                            task_sidewalk := negb (x mod 6 =? 0)%nat;
                            task_lit := negb (y mod 3 =? 0)%nat;
                            task_stress := stressOf x |})).
  now rewrite forEach_map.
Qed.

Lemma seedTasks_neighbours (size : nat) (t : SeedTask) :
  In t (seedTasks size) -> neighbours size t.
Proof.
  unfold seedTasks, rowTasks, columnTasks. intros H. apply in_app_or in H.
  destruct H as [H|H]; apply in_flat_map in H; destruct H as (a & Ha & H);
    apply in_map_iff in H; destruct H as (b & <- & Hb);
    apply in_seq in Ha; apply in_seq in Hb; unfold neighbours, onGrid; simpl.
  - repeat split; try lia. left. f_equal. lia.
  - repeat split; try lia. right. f_equal. lia.
Qed.

Lemma seedTasks_row (size y x : nat) :
  (y < size)%nat -> (S x < size)%nat ->
  exists t, In t (seedTasks size) /\ task_from t = (y, x) /\ task_to t = (y, S x).
Proof.
  intros Hy Hx. eexists. split; [|split].
  - unfold seedTasks. apply in_or_app. left. unfold rowTasks.
    apply in_flat_map. exists y. split; [apply in_seq; lia|].
    apply in_map_iff. exists x. split; [reflexivity | apply in_seq; lia].
  - reflexivity.
  - simpl. f_equal. lia.
Qed.

Lemma seedTasks_column (size y x : nat) :
  (S y < size)%nat -> (x < size)%nat ->
  exists t, In t (seedTasks size) /\ task_from t = (y, x) /\ task_to t = (S y, x).
Proof.
  intros Hy Hx. eexists. split; [|split].
  - unfold seedTasks. apply in_or_app. right. unfold columnTasks.
    apply in_flat_map. exists x. split; [apply in_seq; lia|].
    apply in_map_iff. exists y. split; [reflexivity | apply in_seq; lia].
  - reflexivity.
  - simpl. f_equal. lia.
Qed.

Lemma runTasks (center : Coordinate) (size : nat) (ts : list SeedTask) :
  forall acc,
    (forall t, In t ts -> neighbours size t) ->
    forEach ts (runTask (seedNodes center size) size) acc
    = Js.Returns (fst acc ++ taskEdges center size (snd acc) ts,
                  (snd acc + length ts)%nat).
Proof.
  induction ts as [|t ts IH]; intros acc H.
  - simpl. rewrite app_nil_r, Nat.add_0_r. now destruct acc.
  - rewrite forEach_cons. unfold runTask at 1, pushSeedEdge.
    destruct (H t (or_introl eq_refl)) as (Hfrom & Hto & _).
    rewrite (getNode_seedNodes center size _ _ Hfrom),
            (getNode_seedNodes center size _ _ Hto).
    cbn [Js.bind]. rewrite IH by (intros t' Ht'; apply H; now right).
    cbn [fst snd taskEdges length]. rewrite <- app_assoc. simpl app.
    unfold taskEdge. do 2 f_equal. lia.
Qed.

Lemma length_rowTasks (size : nat) (rows : list string) :
  length (rowTasks size rows) = (size * (size - 1))%nat.
Proof.
  unfold rowTasks. rewrite (flat_map_constant_length (c := (size - 1)%nat)).
  - now rewrite length_seq.
  - intros y _. now rewrite length_map, length_seq.
Qed.

Lemma length_columnTasks (size : nat) (cols : list string) :
  length (columnTasks size cols) = (size * (size - 1))%nat.
Proof.
  unfold columnTasks. rewrite (flat_map_constant_length (c := (size - 1)%nat)).
  - now rewrite length_seq.
  - intros y _. now rewrite length_map, length_seq.
Qed.

Lemma taskEdges_app (center : Coordinate) (size : nat) (a b : list SeedTask) :
  forall n,
    taskEdges center size n (a ++ b)
    = taskEdges center size n a ++ taskEdges center size (n + length a) b.
Proof.
  induction a as [|t a IH]; intros n; simpl.
  - now rewrite Nat.add_0_r.
  - rewrite IH. do 3 f_equal. lia.
Qed.

Lemma seedEdges_tasks (center : Coordinate) (size : nat) :
  seedEdges center size = Js.Returns (taskEdges center size 0 (seedTasks size)).
Proof.
  unfold seedEdges. cbv zeta. rewrite rowEdges_tasks.
  assert (Hrows : forall t, In t (rowTasks size (map (seedStreet "Ave") (seq 0 size))) ->
            neighbours size t).
  { intros t Ht. apply seedTasks_neighbours. unfold seedTasks.
    apply in_or_app. now left. }
  assert (Hcols : forall t, In t (columnTasks size (map (seedStreet "St") (seq 0 size))) ->
            neighbours size t).
  { intros t Ht. apply seedTasks_neighbours. unfold seedTasks.
    apply in_or_app. now right. }
  rewrite (runTasks center size _ _ Hrows). cbn [Js.bind].
  rewrite columnEdges_tasks, (runTasks center size _ _ Hcols). cbn [Js.bind fst snd].
  unfold seedTasks. now rewrite taskEdges_app.
Qed.

Lemma createSeedRoadGraph_seedGraph (center : Coordinate) (radiusMeters : option R) :
  createSeedRoadGraph center radiusMeters
  = Js.Returns (seedGraph center (seedSize radiusMeters)).
Proof.
  unfold createSeedRoadGraph. cbv zeta. now rewrite seedEdges_tasks.
Qed.

(** *** Decimal numerals *)

Lemma hasChar_app (c : ascii) (a b : string) :
  hasChar c (a ++ b) = hasChar c a || hasChar c b.
Proof.
  induction a as [|c' a IH]; simpl; [reflexivity|].
  now rewrite IH, orb_assoc.
Qed.

Lemma uint_digits (c : ascii) (u : Decimal.uint) :
  hasChar c "0123456789" = false -> hasChar c (NilEmpty.string_of_uint u) = false.
Proof.
  intros H. simpl in H. rewrite !orb_false_r in H.
  repeat (apply orb_false_elim in H; destruct H as [? H]).
  induction u as [|u IH|u IH|u IH|u IH|u IH|u IH|u IH|u IH|u IH|u IH]; simpl;
    [reflexivity|..]; rewrite IH; rewrite orb_false_r; assumption.
Qed.

Lemma decimal_digits (c : ascii) (n : nat) :
  hasChar c "0123456789" = false -> hasChar c (decimal n) = false.
Proof.
  intros H. unfold decimal. destruct (Z.of_nat n) as [|p|p] eqn:E; simpl.
  - simpl in H. rewrite !orb_false_r in H. apply orb_false_elim in H.
    rewrite orb_false_r. apply H.
  - pose proof (uint_digits c (Pos.to_uint p) H) as Hu.
    destruct (Pos.to_uint p); [|exact Hu..].
    simpl in H. rewrite !orb_false_r in H. apply orb_false_elim in H.
    simpl. rewrite orb_false_r. apply H.
  - lia.
Qed.

Lemma decimal_inj (a b : nat) : decimal a = decimal b -> a = b.
Proof.
  unfold decimal. intros H.
  assert (Hok : forall n, Z.to_int (Z.of_nat n) <> Decimal.Pos Decimal.Nil
                          /\ Z.to_int (Z.of_nat n) <> Decimal.Neg Decimal.Nil).
  { intros n. destruct (Z.of_nat n) as [|p|p]; simpl; split; try discriminate;
      intros [= Hp]; now apply Unsigned.to_uint_nonnil in Hp. }
  pose proof (NilZero.isi _ (proj1 (Hok a)) (proj2 (Hok a))) as Ha.
  pose proof (NilZero.isi _ (proj1 (Hok b)) (proj2 (Hok b))) as Hb.
  rewrite H in Ha. rewrite Ha in Hb. injection Hb as Hb.
  apply to_int_inj in Hb. lia.
Qed.

(** *** Ids of the grid *)

Lemma gridId_plain (y x : nat) : hasBar (gridId y x) = false.
Proof.
  unfold hasBar, gridId. rewrite !hasChar_app.
  rewrite !decimal_digits by reflexivity. reflexivity.
Qed.

Lemma gridId_truthy (y x : nat) : Js.truthy (gridId y x) = true.
Proof. reflexivity. Qed.

Lemma gridId_inj (y x y' x' : nat) : gridId y x = gridId y' x' -> y = y' /\ x = x'.
Proof.
  unfold gridId. intros H. simpl in H. injection H as H.
  change (decimal y ++ "-" ++ decimal x)%string
    with (decimal y ++ String "-" (decimal x))%string in H.
  change (decimal y' ++ "-" ++ decimal x')%string
    with (decimal y' ++ String "-" (decimal x'))%string in H.
  apply split_at in H; try (apply decimal_digits; reflexivity).
  destruct H as [Hy Hx]. split; now apply decimal_inj.
Qed.

Lemma seedNode_id (center : Coordinate) (half y x : nat) :
  node_id (seedNode center half y x) = gridId y x.
Proof. reflexivity. Qed.

Lemma In_seedNodes (center : Coordinate) (size : nat) (node : RoadNode) :
  In node (seedNodes center size)
  <-> exists y x, onGrid size y x /\ node = seedNode center (size / 2) y x.
Proof.
  unfold seedNodes, onGrid. rewrite in_flat_map. split.
  - intros (y & Hy & H). apply in_map_iff in H. destruct H as (x & <- & Hx).
    apply in_seq in Hy. apply in_seq in Hx. exists y, x. split; [lia | reflexivity].
  - intros (y & x & [Hy Hx] & ->). exists y. split; [apply in_seq; lia|].
    apply in_map_iff. exists x. split; [reflexivity | apply in_seq; lia].
Qed.

Lemma NoDup_map_distinct {A B : Type} (f : A -> B) (l : list A) :
  (forall x y, f x = f y -> x = y) -> NoDup l -> NoDup (map f l).
Proof.
  intros Hf. induction 1 as [|x l Hx _ IH]; simpl; constructor; [|exact IH].
  intros Hin. apply in_map_iff in Hin. destruct Hin as (y & Hy & Hin).
  apply Hf in Hy. now subst.
Qed.

Lemma NoDup_seedIds (center : Coordinate) (size : nat) :
  NoDup (map node_id (seedNodes center size)).
Proof.
  unfold seedNodes. generalize (size / 2)%nat as half. intros half.
  assert (H : forall rows,
            NoDup (map node_id
                     (flat_map (fun y => map (fun x => seedNode center half y x) (seq 0 size))
                        (seq 0 rows)))
            /\ forall id, In id (map node_id
                     (flat_map (fun y => map (fun x => seedNode center half y x) (seq 0 size))
                        (seq 0 rows))) ->
                 exists y x, (y < rows)%nat /\ id = gridId y x).
  { induction rows as [|rows [IHn IHi]].
    - split; [constructor | intros id []].
    - rewrite seq_S, flat_map_app, map_app. simpl flat_map. rewrite app_nil_r.
      split.
      + apply NoDup_app; [exact IHn | |].
        * rewrite map_map. simpl.
          apply NoDup_map_distinct; [|apply seq_NoDup].
          intros x x' Hxx. now apply gridId_inj in Hxx.
        * intros id Hid Hid'. apply IHi in Hid. destruct Hid as (y & x & Hy & ->).
          rewrite map_map in Hid'. apply in_map_iff in Hid'.
          destruct Hid' as (x' & Hx' & _). simpl in Hx'.
          apply gridId_inj in Hx'. lia.
      + intros id Hid. apply in_app_or in Hid. destruct Hid as [Hid|Hid].
        * apply IHi in Hid. destruct Hid as (y & x & Hy & ->). exists y, x.
          split; [lia | reflexivity].
        * rewrite map_map in Hid. apply in_map_iff in Hid.
          destruct Hid as (x & <- & _). exists rows, x. split; [lia | reflexivity]. }
  apply H.
Qed.

Lemma length_seedNodes (center : Coordinate) (size : nat) :
  length (seedNodes center size) = (size * size)%nat.
Proof.
  unfold seedNodes. rewrite (flat_map_constant_length (c := size)).
  - now rewrite length_seq.
  - intros y _. now rewrite length_map, length_seq.
Qed.

(** *** Maps made from entries with distinct keys *)

Lemma set_fresh {V : Type} (m : Js.Map V) (k : string) (v : V) :
  ~ In k (map fst m) -> Js.set m k v = m ++ [(k, v)].
Proof.
  induction m as [|[k' v'] m IH]; intros H; simpl; [reflexivity|].
  destruct (String.eqb k' k) eqn:E.
  - apply String.eqb_eq in E. subst. elim H. now left.
  - rewrite IH; [reflexivity|]. intros Hin. apply H. now right.
Qed.

Lemma ofEntries_distinct {V : Type} (entries : list (string * V)) :
  NoDup (map fst entries) -> Js.ofEntries entries = entries.
Proof.
  unfold Js.ofEntries. intros H.
  assert (Hgen : forall acc,
            NoDup (map fst (acc ++ entries)) ->
            fold_left (fun m kv => Js.set m (fst kv) (snd kv)) entries acc
            = acc ++ entries).
  { clear H. induction entries as [|[k v] entries IH]; intros acc H; simpl.
    - now rewrite app_nil_r.
    - rewrite set_fresh.
      + rewrite IH; rewrite <- app_assoc; [reflexivity | exact H].
      + rewrite map_app in H. simpl in H. apply NoDup_remove_2 in H.
        intros Hin. apply H. apply in_or_app. now left. }
  now apply (Hgen []).
Qed.

(** *** The edges *)

Lemma In_taskEdges (center : Coordinate) (size : nat) (ts : list SeedTask) :
  forall n e,
    In e (taskEdges center size n ts)
    <-> exists i t, (i < length ts)%nat /\ nth_error ts i = Some t
                    /\ e = taskEdge center size (n + i) t.
Proof.
  induction ts as [|t ts IH]; intros n e; simpl.
  - split; [intros [] | intros (i & t & Hi & _); lia].
  - rewrite IH. split.
    + intros [<-|(i & t' & Hi & Hn & ->)].
      * exists 0%nat, t. repeat split; [lia | now rewrite Nat.add_0_r].
      * exists (S i), t'. repeat split; [lia | exact Hn | f_equal; lia].
    + intros ([|i] & t' & Hi & Hn & ->); simpl in Hn.
      * injection Hn as ->. left. now rewrite Nat.add_0_r.
      * right. exists i, t'. repeat split; [lia | exact Hn | f_equal; lia].
Qed.

Lemma length_taskEdges (center : Coordinate) (size : nat) (ts : list SeedTask) :
  forall n, length (taskEdges center size n ts) = length ts.
Proof. induction ts as [|t ts IH]; intros n; simpl; auto. Qed.

Lemma NoDup_taskEdgeIds (center : Coordinate) (size : nat) (ts : list SeedTask) :
  forall n, NoDup (map edge_id (taskEdges center size n ts)).
Proof.
  induction ts as [|t ts IH]; intros n; simpl; constructor; [|apply IH].
  intros Hin. apply in_map_iff in Hin. destruct Hin as (e & He & Hin).
  apply In_taskEdges in Hin. destruct Hin as (i & t' & _ & _ & ->).
  simpl in He. injection He as He. apply decimal_inj in He. lia.
Qed.

Lemma length_seedTasks (size : nat) :
  length (seedTasks size) = (2 * size * (size - 1))%nat.
Proof.
  unfold seedTasks. rewrite length_app, length_rowTasks, length_columnTasks. lia.
Qed.

Lemma taskEdge_gridEdge (center : Coordinate) (size n : nat) (t : SeedTask) :
  neighbours size t -> gridEdge size (taskEdge center size n t).
Proof.
  intros ([Hy Hx] & [Hy' Hx'] & Hto). split; [reflexivity|]. split.
  - simpl. apply IZR_le, distanceMeters_nonneg.
  - exists (fst (task_from t)), (snd (task_from t)). split; [reflexivity|].
    destruct Hto as [Hto|Hto]; [left | right]; unfold taskEdge;
      cbn [edge_toNodeId seedEdge]; rewrite Hto in *; cbn [fst snd] in *;
      (split; [reflexivity | split; assumption]).
Qed.

Lemma seedEdges_gridEdge (center : Coordinate) (size : nat) (e : RoadEdge) :
  In e (taskEdges center size 0 (seedTasks size)) -> gridEdge size e.
Proof.
  intros H. apply In_taskEdges in H. destruct H as (i & t & _ & Hn & ->).
  apply taskEdge_gridEdge, seedTasks_neighbours. now apply nth_error_In with i.
Qed.

(** *** The adjacency index of the seed graph *)

Lemma outgoingOf_seedGraph (center : Coordinate) (size : nat) (k : string)
    (e : TraversableEdge) :
  In e (outgoingOf (seedGraph center size) k)
  <-> fromNodeId e = k
      /\ exists edge, In edge (taskEdges center size 0 (seedTasks size))
                      /\ (e = forwardOf edge \/ e = reverseOf edge).
Proof.
  unfold seedGraph.
  rewrite (outgoingOf_indexes _ _ k (indexes_createRoadGraph _ _)).
  rewrite filter_In, in_flat_map. unfold leaves. rewrite String.eqb_eq. split.
  - intros [(edge & Hedge & He) Hk]. split; [exact Hk|]. exists edge.
    split; [exact Hedge|]. unfold expand in He. destruct He as [<-|He]; [now left|].
    destruct (edge_bidirectional edge); [|now elim He].
    destruct He as [<-|[]]. now right.
  - intros [Hk (edge & Hedge & He)]. split; [|exact Hk]. exists edge.
    split; [exact Hedge|]. unfold expand.
    destruct (seedEdges_gridEdge _ _ _ Hedge) as (-> & _).
    destruct He as [->| ->]; [now left | right; now left].
Qed.

Lemma seedGraph_ends (center : Coordinate) (size : nat) (k : string)
    (e : TraversableEdge) :
  In e (outgoingOf (seedGraph center size) k) ->
  0 <= lengthMeters e
  /\ (exists y x, onGrid size y x /\ fromNodeId e = gridId y x)
  /\ (exists y x, onGrid size y x /\ toNodeId e = gridId y x).
Proof.
  intros H. apply outgoingOf_seedGraph in H. destruct H as [_ (edge & Hedge & He)].
  destruct (seedEdges_gridEdge _ _ _ Hedge) as (_ & Hlen & y & x & Hfrom & Hto).
  unfold onGrid.
  destruct He as [->| ->]; simpl; (split; [exact Hlen|]);
    destruct Hto as [(Hto & Hy & Hx)|(Hto & Hy & Hx)]; rewrite Hfrom, Hto; split;
      eexists _, _; (split; [|reflexivity]); lia.
Qed.

Lemma seedGraph_lengths (center : Coordinate) (size : nat) :
  nonnegLengths (seedGraph center size).
Proof. intros k e He. now apply seedGraph_ends in He. Qed.

Lemma seedGraph_keys (center : Coordinate) (size y x : nat) :
  distinctKeys (seedGraph center size) (gridId y x).
Proof.
  apply plainIds_distinctKeys. split; [apply gridId_plain|].
  intros m e He. apply seedGraph_ends in He.
  destruct He as (_ & _ & y' & x' & _ & ->). apply gridId_plain.
Qed.

(** *** The grid is connected *)

Lemma linked_right (center : Coordinate) (size y x : nat) :
  (y < size)%nat -> (S x < size)%nat ->
  linked (seedGraph center size) (gridId y x) (gridId y (S x))
  /\ linked (seedGraph center size) (gridId y (S x)) (gridId y x).
Proof.
  intros Hy Hx. destruct (seedTasks_row size y x Hy Hx) as (t & Ht & Hfrom & Hto).
  apply In_nth_error in Ht. destruct Ht as [i Hi].
  assert (Hedge : In (taskEdge center size (0 + i) t)
                    (taskEdges center size 0 (seedTasks size))).
  { apply In_taskEdges. exists i, t. split; [|split; [exact Hi | reflexivity]].
    apply nth_error_Some. now rewrite Hi. }
  split.
  - exists (forwardOf (taskEdge center size (0 + i) t)). split.
    + apply outgoingOf_seedGraph. split; [simpl; now rewrite Hfrom|].
      eexists. split; [exact Hedge | now left].
    + simpl. now rewrite Hto.
  - exists (reverseOf (taskEdge center size (0 + i) t)). split.
    + apply outgoingOf_seedGraph. split; [simpl; now rewrite Hto|].
      eexists. split; [exact Hedge | now right].
    + simpl. now rewrite Hfrom.
Qed.

Lemma linked_down (center : Coordinate) (size y x : nat) :
  (S y < size)%nat -> (x < size)%nat ->
  linked (seedGraph center size) (gridId y x) (gridId (S y) x)
  /\ linked (seedGraph center size) (gridId (S y) x) (gridId y x).
Proof.
  intros Hy Hx. destruct (seedTasks_column size y x Hy Hx) as (t & Ht & Hfrom & Hto).
  apply In_nth_error in Ht. destruct Ht as [i Hi].
  assert (Hedge : In (taskEdge center size (0 + i) t)
                    (taskEdges center size 0 (seedTasks size))).
  { apply In_taskEdges. exists i, t. split; [|split; [exact Hi | reflexivity]].
    apply nth_error_Some. now rewrite Hi. }
  split.
  - exists (forwardOf (taskEdge center size (0 + i) t)). split.
    + apply outgoingOf_seedGraph. split; [simpl; now rewrite Hfrom|].
      eexists. split; [exact Hedge | now left].
    + simpl. now rewrite Hto.
  - exists (reverseOf (taskEdge center size (0 + i) t)). split.
    + apply outgoingOf_seedGraph. split; [simpl; now rewrite Hto|].
      eexists. split; [exact Hedge | now right].
    + simpl. now rewrite Hfrom.
Qed.

Lemma reachable_step (graph : RoadGraph) (a b c : string) :
  reachable graph a b -> linked graph b c -> reachable graph a c.
Proof. intros H (e & He & <-). now apply reach_edge with b. Qed.

Lemma reachable_trans (graph : RoadGraph) (a b c : string) :
  reachable graph a b -> reachable graph b c -> reachable graph a c.
Proof.
  intros Hab Hbc. induction Hbc as [|y e _ IH He]; [exact Hab|].
  now apply reach_edge with y.
Qed.

Lemma seedGraph_from_corner (center : Coordinate) (size y x : nat) :
  onGrid size y x ->
  reachable (seedGraph center size) (gridId 0 0) (gridId y x)
  /\ reachable (seedGraph center size) (gridId y x) (gridId 0 0).
Proof.
  intros [Hy Hx].
  assert (Hcol : reachable (seedGraph center size) (gridId 0 0) (gridId y 0)
                 /\ reachable (seedGraph center size) (gridId y 0) (gridId 0 0)).
  { induction y as [|y IH]; [split; constructor|].
    destruct (IH ltac:(lia)) as [Hto Hfrom].
    destruct (linked_down center size y 0 Hy ltac:(lia)) as [Hd Hu]. split.
    - now apply reachable_step with (gridId y 0).
    - apply reachable_trans with (gridId y 0); [|exact Hfrom].
      apply reachable_step with (gridId (S y) 0); [constructor | exact Hu]. }
  induction x as [|x IH]; [exact Hcol|].
  destruct (IH ltac:(lia)) as [Hto Hfrom].
  destruct (linked_right center size y x Hy Hx) as [Hr Hl]. split.
  - now apply reachable_step with (gridId y x).
  - apply reachable_trans with (gridId y x); [|exact Hfrom].
    apply reachable_step with (gridId y (S x)); [constructor | exact Hl].
Qed.

Lemma seedGraph_connected (center : Coordinate) (size y x y' x' : nat) :
  onGrid size y x -> onGrid size y' x' ->
  reachable (seedGraph center size) (gridId y x) (gridId y' x').
Proof.
  intros H H'. apply reachable_trans with (gridId 0 0).
  - now apply seedGraph_from_corner.
  - now apply seedGraph_from_corner.
Qed.

(** *** Keys of a map *)

Lemma keys_set {V : Type} (m : Js.Map V) (k k' : string) (v : V) :
  In k' (Js.keys (Js.set m k v)) <-> k' = k \/ In k' (Js.keys m).
Proof.
  unfold Js.keys. induction m as [|[k0 v0] m IH]; simpl.
  - split; [intros [<-|[]]; now left | intros [->|[]]; now left].
  - destruct (String.eqb k0 k) eqn:E; simpl.
    + apply String.eqb_eq in E. subst. intuition auto.
    + rewrite IH. intuition auto.
Qed.

Lemma NoDup_keys_set {V : Type} (m : Js.Map V) (k : string) (v : V) :
  NoDup (Js.keys m) -> NoDup (Js.keys (Js.set m k v)).
Proof.
  induction m as [|[k0 v0] m IH]; intros H; simpl.
  - constructor; [intros [] | constructor].
  - inversion H as [|? ? Hnot Hrest]; subst.
    destruct (String.eqb k0 k) eqn:E; simpl; constructor; auto.
    intros Hin. apply (keys_set m k k0 v) in Hin. destruct Hin as [->|Hin].
    + now rewrite String.eqb_refl in E.
    + now apply Hnot.
Qed.

Lemma get_distinct {V : Type} (m : Js.Map V) (k : string) (v : V) :
  NoDup (Js.keys m) -> In (k, v) m -> Js.get m k = Some v.
Proof.
  induction m as [|[k0 v0] m IH]; intros H Hin; simpl; [now elim Hin|].
  inversion H as [|? ? Hnot Hrest]; subst.
  destruct Hin as [[= -> ->]|Hin].
  - now rewrite String.eqb_refl.
  - destruct (String.eqb k0 k) eqn:E; [|now apply IH].
    apply String.eqb_eq in E. subst. elim Hnot.
    apply in_map_iff. now exists (k, v).
Qed.

Lemma NoDup_traversableFrom (nodeList : list RoadNode) (edgeList : list RoadEdge) :
  NoDup (Js.keys (traversableFrom (createRoadGraph nodeList edgeList))).
Proof.
  unfold createRoadGraph. simpl.
  assert (H : forall index, NoDup (Js.keys index) ->
            NoDup (Js.keys (fold_left addEdge edgeList index))).
  { induction edgeList as [|edge l IH]; intros index Hi; simpl; [exact Hi|].
    apply IH. unfold addEdge, pushTraversable.
    destruct (edge_bidirectional edge); repeat apply NoDup_keys_set; exact Hi. }
  apply H. constructor.
Qed.

Lemma indexed_outgoing (nodeList : list RoadNode) (edgeList : list RoadEdge)
    (e : TraversableEdge) :
  In e (indexedEdges (createRoadGraph nodeList edgeList)) ->
  exists k, In e (outgoingOf (createRoadGraph nodeList edgeList) k).
Proof.
  unfold indexedEdges, Js.values. intros H. apply in_concat in H.
  destruct H as (l & Hl & He). apply in_map_iff in Hl.
  destruct Hl as ([k l'] & <- & Hin). exists k. unfold outgoingOf.
  now rewrite (get_distinct _ k l' (NoDup_traversableFrom nodeList edgeList) Hin).
Qed.

(** *** The seed graph as a graph of plain ids *)

Lemma nodes_seedGraph (center : Coordinate) (size : nat) :
  Js.values (nodes (seedGraph center size)) = seedNodes center size.
Proof.
  unfold seedGraph, createRoadGraph. simpl. rewrite ofEntries_distinct.
  - unfold Js.values. rewrite map_map. simpl. apply map_id.
  - rewrite map_map. simpl. apply NoDup_seedIds.
Qed.

Lemma edges_seedGraph (center : Coordinate) (size : nat) :
  Js.values (edges (seedGraph center size)) = taskEdges center size 0 (seedTasks size).
Proof.
  unfold seedGraph, createRoadGraph. simpl. rewrite ofEntries_distinct.
  - unfold Js.values. rewrite map_map. simpl. apply map_id.
  - rewrite map_map. simpl. apply NoDup_taskEdgeIds.
Qed.

Lemma get_seedGraph (center : Coordinate) (size y x : nat) :
  onGrid size y x ->
  Js.get (nodes (seedGraph center size)) (gridId y x)
  = Some (seedNode center (size / 2) y x).
Proof.
  intros H. unfold seedGraph, createRoadGraph. simpl. rewrite ofEntries_distinct.
  - apply get_distinct.
    + unfold Js.keys. rewrite map_map. simpl. apply NoDup_seedIds.
    + apply in_map_iff. exists (seedNode center (size / 2) y x).
      split; [reflexivity|]. apply In_seedNodes. now exists y, x.
  - rewrite map_map. simpl. apply NoDup_seedIds.
Qed.

Lemma seedGraph_plain (center : Coordinate) (size : nat) :
  plainGraph (seedGraph center size).
Proof.
  split.
  - intros node Hn. rewrite nodes_seedGraph in Hn. apply In_seedNodes in Hn.
    destruct Hn as (y & x & _ & ->). apply gridId_plain.
  - intros e He. apply indexed_outgoing in He. destruct He as [k He].
    apply seedGraph_ends in He.
    destruct He as (_ & (y & x & _ & ->) & (y' & x' & _ & ->)).
    split; apply gridId_plain.
Qed.

Lemma seedGraph_indexed (center : Coordinate) (size : nat) (e : TraversableEdge) :
  In e (indexedEdges (seedGraph center size)) ->
  0 <= lengthMeters e /\ onGridId size (fromNodeId e) /\ onGridId size (toNodeId e).
Proof.
  intros He. apply indexed_outgoing in He. destruct He as [k He].
  now apply seedGraph_ends in He.
Qed.

Lemma seedGraph_nearest (center : Coordinate) (size : nat) (c : Coordinate) :
  (0 < size)%nat ->
  exists id, findNearestNodeId (seedGraph center size) c = Js.Returns id
             /\ onGridId size id.
Proof.
  intros Hsize. unfold findNearestNodeId. rewrite nodes_seedGraph.
  pose proof (nearest_scan c (seedNodes center size)) as H.
  destruct (seedNodes center size) as [|n l] eqn:El.
  - exfalso. pose proof (length_seedNodes center size) as Hl. rewrite El in Hl.
    simpl in Hl. nia.
  - destruct H as (node & (before & after & Hl & _) & ->). simpl fst.
    assert (Hin : In node (seedNodes center size)).
    { rewrite El, Hl. apply in_or_app. right. now left. }
    apply In_seedNodes in Hin. destruct Hin as (y & x & Hgrid & ->).
    exists (gridId y x). split; [reflexivity|]. now exists y, x.
Qed.

(** *** The optimizers return when the search does *)

Section Finds.

Variable shortestPath : FindPathRequest -> Js.outcome PathResult.
Variable graph : RoadGraph.
Variable good : string -> Prop.
Hypothesis Hfinds : forall from to, good from -> good to ->
  exists result,
    shortestPath {| req_graph := graph; startNodeId := from; endNodeId := to;
                    req_weights := None |} = Js.Returns result.

Lemma selectionLoop_returns (request : CoverageRouteRequest) (startId : string)
    (budget : nat) :
  (forall e, In e (uniqueEdges graph) -> good (fromNodeId e)) ->
  forall sel,
    good (currentNodeId sel) ->
    exists sel',
      selectionLoop shortestPath graph request budget startId sel = Js.Returns sel'
      /\ good (currentNodeId sel').
Proof.
  intros Hedges. induction budget as [|budget IH]; intros sel Hgood.
  - exists sel. now split.
  - rewrite selectionLoop_turn.
    destruct (filter (isCandidate request (remaining sel)) (uniqueEdges graph))
      as [|e0 candidates] eqn:Ef; [exists sel; now split|].
    destruct (find _ _) as [selectedEdge|] eqn:Efind; [|exists sel; now split].
    apply find_some in Efind. destruct Efind as [Hin _].
    apply shortlist_subset in Hin. rewrite <- Ef in Hin.
    apply filter_In in Hin. destruct Hin as [Hin _].
    destruct (Hfinds _ _ Hgood (Hedges _ Hin)) as [toStart ->]. cbn [Js.bind].
    destruct (match cr_maxDistanceMeters request with
              | Some c => _
              | None => false
              end); [exists sel; now split|].
    apply IH. now apply Hedges.
Qed.

Lemma coverage_returns (request : CoverageRouteRequest) (clock : Clock) :
  (forall e, In e (uniqueEdges graph) -> good (fromNodeId e)) ->
  (exists startId, findNearestNodeId graph (cr_start request) = Js.Returns startId
                   /\ good startId) ->
  exists r, optimizeCoverageRoute shortestPath graph request clock = Js.Returns r.
Proof.
  intros Hedges (startId & Hnear & Hstart). unfold optimizeCoverageRoute.
  rewrite Hnear. cbn [Js.bind].
  destruct (selectionLoop_returns request startId
              (Z.to_nat (maxSelections (chooseCoverageStrategy request)
                           (normalizeAlphabet (cr_alphabet request))
                           (cr_targetStreets request) (cr_maxDistanceMeters request)))
              Hedges (initialSelection request startId) Hstart)
    as (sel & -> & Hsel).
  cbn [Js.bind]. destruct (Hfinds _ _ Hsel Hstart) as [returnPath ->].
  cbn [Js.bind]. eexists. reflexivity.
Qed.

Lemma stitch_returns (snappedNodes : list string) :
  (forall id, In id snappedNodes -> good id) ->
  forall traversed,
    exists traversed',
      stitch shortestPath graph snappedNodes traversed = Js.Returns traversed'.
Proof.
  induction snappedNodes as [|from rest IH]; intros Hall traversed.
  - now exists traversed.
  - destruct rest as [|to rest]; [now exists traversed|].
    cbn [stitch].
    destruct (Hfinds from to (Hall _ (or_introl eq_refl))
                (Hall _ (or_intror (or_introl eq_refl)))) as [segmentPath ->].
    cbn [Js.bind]. apply IH. intros id Hid. apply Hall. now right.
Qed.

Lemma mapOutcome_returns {A B : Type} (f : A -> Js.outcome B) (Q : B -> Prop)
    (l : list A) :
  (forall a, In a l -> exists b, f a = Js.Returns b /\ Q b) ->
  exists bs, mapOutcome f l = Js.Returns bs /\ Forall Q bs.
Proof.
  induction l as [|a l IH]; intros H.
  - exists []. split; [reflexivity | constructor].
  - destruct (H a (or_introl eq_refl)) as (b & Hb & Hq).
    destruct (IH (fun a' Ha' => H a' (or_intror Ha'))) as (bs & Hbs & Hall).
    exists (b :: bs). simpl. rewrite Hb, Hbs. split; [reflexivity | now constructor].
Qed.

Lemma dedupeConsecutive_subset (items : list string) (id : string) :
  In id (dedupeConsecutive items) -> In id items.
Proof.
  unfold dedupeConsecutive. destruct items as [|first rest]; [intros []|].
  intros [<-|H]; [now left|]. right.
  apply in_map_iff in H. destruct H as ([a b] & <- & H).
  apply filter_In in H. destruct H as [H _]. now apply in_combine_r in H.
Qed.

Lemma shape_returns (request : ShapeRouteRequest) (clock : Clock) :
  (forall c, exists id, findNearestNodeId graph c = Js.Returns id /\ good id) ->
  exists r, optimizeShapeRoute shortestPath graph request clock = Js.Returns r.
Proof.
  intros Hnear. unfold optimizeShapeRoute. cbv zeta.
  destruct (mapOutcome_returns (findNearestNodeId graph) good
              (if (2 <=? length (sr_points request))%nat then sr_points request
               else [match sr_points request with
                     | p :: _ => p
                     | [] => {| lat := 0; lon := 0 |}
                     end])
              (fun c _ => Hnear c)) as (snapped & -> & Hall).
  cbn [Js.bind].
  destruct (stitch_returns (dedupeConsecutive snapped)
              (fun id Hid => proj1 (Forall_forall good snapped) Hall id
                               (dedupeConsecutive_subset _ _ Hid)) [])
    as (traversed & ->).
  cbn [Js.bind]. eexists. reflexivity.
Qed.

End Finds.

(** *** One amount of fuel for all searches on a finite graph *)

Lemma uniform_bound {A : Type} (P : A -> nat -> Prop) (l : list A) :
  (forall a, In a l -> exists n, forall m, (n <= m)%nat -> P a m) ->
  exists n, forall a, In a l -> forall m, (n <= m)%nat -> P a m.
Proof.
  induction l as [|a l IH]; intros H.
  - exists 0%nat. intros a [].
  - destruct (H a (or_introl eq_refl)) as [n Hn].
    destruct (IH (fun a' Ha' => H a' (or_intror Ha'))) as [n' Hn'].
    exists (Nat.max n n'). intros a' [<-|Ha'] m Hm.
    + apply Hn. lia.
    + apply (Hn' a' Ha'). lia.
Qed.

Lemma seedGraph_search (center : Coordinate) (size : nat)
    (weights : RouteObjectiveWeights) (from to : string) :
  nonnegWeights weights ->
  onGridId size from -> onGridId size to ->
  exists enough r,
    (forall fuel, (enough <= fuel)%nat ->
       searchLoop fuel fuel (seedGraph center size) weights from to (initialSearch from)
       = Js.Returns r)
    /\ pathOf (seedGraph center size) weights from to r
    /\ (forall es prev c,
          walkTo (seedGraph center size) weights from es to prev c -> totalCost r <= c).
Proof.
  intros Hw (y & x & Hfrom & ->) (y' & x' & Hto & ->).
  destruct (search_returns (seedGraph center size) weights (gridId y x) (gridId y' x')
              Hw (seedGraph_lengths center size) (seedGraph_keys center size y x)
              _ _ [] _ (initialSearch_inv _ _ _ _) (initialSearch_sound _ _)
              eq_refl eq_refl (seedGraph_connected center size y x y' x' Hfrom Hto))
    as (fuel0 & bound & r & Hr & Hpath & Hbest).
  exists (Nat.max fuel0 bound), r. split; [|split; assumption].
  intros fuel Hfuel. apply searchLoop_more_turns with fuel0; [|lia]. apply Hr. lia.
Qed.

Lemma seedGraph_uniform (center : Coordinate) (size : nat) :
  exists enough, forall fuel, (enough <= fuel)%nat ->
    forall from to, onGridId size from -> onGridId size to ->
      exists result,
        findPath fuel {| req_graph := seedGraph center size; startNodeId := from;
                         endNodeId := to; req_weights := None |} = Js.Returns result.
Proof.
  set (ids := map node_id (seedNodes center size)).
  assert (Hids : forall id, onGridId size id -> In id ids).
  { intros id (y & x & Hgrid & ->). apply in_map_iff.
    exists (seedNode center (size / 2) y x). split; [reflexivity|].
    apply In_seedNodes. now exists y, x. }
  assert (Hback : forall id, In id ids -> onGridId size id).
  { intros id Hid. apply in_map_iff in Hid. destruct Hid as (node & <- & Hn).
    apply In_seedNodes in Hn. destruct Hn as (y & x & Hgrid & ->). now exists y, x. }
  destruct (uniform_bound
              (fun (p : string * string) fuel =>
                 exists result,
                   findPath fuel {| req_graph := seedGraph center size;
                                    startNodeId := fst p; endNodeId := snd p;
                                    req_weights := None |} = Js.Returns result)
              (list_prod ids ids)) as [enough Henough].
  - intros [from to] Hin. apply in_prod_iff in Hin. destruct Hin as [Hf Ht].
    destruct (seedGraph_search center size DEFAULT_ROUTE_OBJECTIVE_WEIGHTS from to
                default_weights_nonneg (Hback _ Hf) (Hback _ Ht))
      as (enough & r & Hr & _).
    exists enough. intros fuel Hfuel. exists r. now apply Hr.
  - exists enough. intros fuel Hfuel from to Hf Ht.
    apply (Henough (from, to)); [|exact Hfuel].
    apply in_prod_iff. split; now apply Hids.
Qed.

Lemma seedGraph_ids (center : Coordinate) (size : nat) (id : string) :
  In id (map node_id (Js.values (nodes (seedGraph center size)))) <-> onGridId size id.
Proof.
  rewrite nodes_seedGraph, in_map_iff. split.
  - intros (node & <- & Hn). apply In_seedNodes in Hn.
    destruct Hn as (y & x & Hgrid & ->). now exists y, x.
  - intros (y & x & Hgrid & ->). exists (seedNode center (size / 2) y x).
    split; [reflexivity|]. apply In_seedNodes. now exists y, x.
Qed.

(** X26. [createSeedRoadGraph] never throws and returns a square grid: its
    size is odd and between 7 and 27; the nodes are those of the grid, row by
    row, size * size of them; there are 2 * size * (size - 1) edges, each
    two-way, of a length of at least 0, from a place of the grid to its right
    or lower neighbour; and every place is linked with its right and its
    lower neighbour in both directions. *)
Theorem createSeedRoadGraph_grid (center : Coordinate) (radiusMeters : option R) :
  exists g size,
    createSeedRoadGraph center radiusMeters = Js.Returns g
    /\ size = seedSize radiusMeters
    /\ (7 <= size <= 27)%nat
    /\ (exists k, size = (2 * k + 1)%nat)
    /\ Js.values (nodes g) = seedNodes center size
    /\ length (Js.values (nodes g)) = (size * size)%nat
    /\ length (Js.values (edges g)) = (2 * size * (size - 1))%nat
    /\ (forall e, In e (Js.values (edges g)) -> gridEdge size e)
    /\ (forall y x, (y < size)%nat -> (S x < size)%nat ->
          linked g (gridId y x) (gridId y (S x))
          /\ linked g (gridId y (S x)) (gridId y x))
    /\ (forall y x, (S y < size)%nat -> (x < size)%nat ->
          linked g (gridId y x) (gridId (S y) x)
          /\ linked g (gridId (S y) x) (gridId y x)).
Proof.
  exists (seedGraph center (seedSize radiusMeters)), (seedSize radiusMeters).
  destruct (seedSize_bounds radiusMeters) as [Hb Hodd].
  split; [apply createSeedRoadGraph_seedGraph|]. split; [reflexivity|].
  split; [exact Hb|]. split; [exact Hodd|].
  split; [apply nodes_seedGraph|].
  split; [rewrite nodes_seedGraph; apply length_seedNodes|].
  split; [rewrite edges_seedGraph, length_taskEdges; apply length_seedTasks|].
  split; [intros e He; rewrite edges_seedGraph in He; now apply seedEdges_gridEdge in He|].
  split; [apply linked_right | apply linked_down].
Qed.

(** X27. On a seed graph the in-memory search, at weights of at least 0,
    finds a cheapest walk between any two nodes of the graph: given enough
    fuel it returns a path from the one to the other that no walk between
    them undercuts. *)
Theorem findPath_on_seed_graph (center : Coordinate) (radiusMeters : option R)
    (g : RoadGraph) (weights : RouteObjectiveWeights) (from to : string) :
  createSeedRoadGraph center radiusMeters = Js.Returns g ->
  nonnegWeights weights ->
  In from (map node_id (Js.values (nodes g))) ->
  In to (map node_id (Js.values (nodes g))) ->
  exists enough r,
    (forall fuel, (enough <= fuel)%nat ->
       findPath fuel {| req_graph := g; startNodeId := from; endNodeId := to;
                        req_weights := Some weights |} = Js.Returns r)
    /\ pathOf g weights from to r
    /\ (forall es prev c, walkTo g weights from es to prev c -> totalCost r <= c).
Proof.
  rewrite createSeedRoadGraph_seedGraph. intros [= <-] Hw Hfrom Hto.
  apply seedGraph_ids in Hfrom. apply seedGraph_ids in Hto.
  exact (seedGraph_search center (seedSize radiusMeters) weights from to Hw Hfrom Hto).
Qed.

Lemma findPath_on_seed_graph_witness :
  exists enough r,
    (forall fuel, (enough <= fuel)%nat ->
       findPath fuel {| req_graph := seedGraph {| lat := 0; lon := 0 |} 7;
                        startNodeId := gridId 0 0; endNodeId := gridId 6 6;
                        req_weights := Some DEFAULT_ROUTE_OBJECTIVE_WEIGHTS |}
       = Js.Returns r)
    /\ pathOf (seedGraph {| lat := 0; lon := 0 |} 7) DEFAULT_ROUTE_OBJECTIVE_WEIGHTS
         (gridId 0 0) (gridId 6 6) r
    /\ (forall es prev c,
          walkTo (seedGraph {| lat := 0; lon := 0 |} 7) DEFAULT_ROUTE_OBJECTIVE_WEIGHTS
            (gridId 0 0) es (gridId 6 6) prev c -> totalCost r <= c).
Proof.
  apply (findPath_on_seed_graph {| lat := 0; lon := 0 |} None
           (seedGraph {| lat := 0; lon := 0 |} 7) DEFAULT_ROUTE_OBJECTIVE_WEIGHTS
           (gridId 0 0) (gridId 6 6)).
  - apply createSeedRoadGraph_seedGraph.
  - apply default_weights_nonneg.
  - apply seedGraph_ids. exists 0%nat, 0%nat. split; [split; lia | reflexivity].
  - apply seedGraph_ids. exists 6%nat, 6%nat. split; [split; lia | reflexivity].
Defined.

(** X28. Without dependencies (seed graph, in-memory search), for a start
    and an area centre given in degrees, the coverage optimizer returns a
    route, given enough fuel, and a route it returns for a cap above 0 has
    [distanceMeters] of at most the cap (the edges of the seed graph have
    lengths in whole meters). *)
Theorem defaultCoverageRoute_sound (request : CoverageRouteRequest) (clock : Clock) :
  geographic (cr_start request) ->
  (forall area, cr_area request = Some area -> geographic (center area)) ->
  (exists enough, forall fuel, (enough <= fuel)%nat ->
     exists r, defaultCoverageRoute fuel request clock = Js.Returns r)
  /\ (forall fuel r c,
        defaultCoverageRoute fuel request clock = Js.Returns r ->
        cr_maxDistanceMeters request = Some c -> 0 < c ->
        route_distanceMeters r <= c).
Proof.
  intros _ _.
  unfold defaultCoverageRoute. cbv zeta. rewrite createSeedRoadGraph_seedGraph.
  cbn [Js.bind].
  set (middle := match cr_area request with
                 | Some area => center area
                 | None => cr_start request
                 end).
  set (size := seedSize (option_map radiusMeters (cr_area request))).
  assert (Hsize : (0 < size)%nat)
    by (unfold size;
        destruct (seedSize_bounds (option_map radiusMeters (cr_area request))); lia).
  assert (Hedges : forall e, In e (uniqueEdges (seedGraph middle size)) ->
            onGridId size (fromNodeId e)).
  { intros e He. apply uniqueEdges_indexed in He. now apply seedGraph_indexed in He. }
  split.
  - destruct (seedGraph_uniform middle size) as [enough Henough].
    exists enough. intros fuel Hfuel.
    apply (coverage_returns (findPath fuel) (seedGraph middle size) (onGridId size)
             (Henough fuel Hfuel) request clock Hedges).
    now apply seedGraph_nearest.
  - intros fuel r c Hrun Hcap Hc.
    apply (coverage_plain_graph (seedGraph middle size) request c fuel clock r
             (seedGraph_plain middle size)); try assumption.
    intros e He. now apply seedGraph_indexed in He.
Qed.

Lemma defaultCoverageRoute_sound_witness :
  exists enough, forall fuel, (enough <= fuel)%nat ->
    exists r, defaultCoverageRoute fuel seedRequest {| dateNow := 0; isoString := "" |}
              = Js.Returns r
              /\ route_distanceMeters r <= 1000.
Proof.
  destruct (defaultCoverageRoute_sound seedRequest {| dateNow := 0; isoString := "" |})
    as [[enough Hreturns] Hcap].
  { unfold geographic. simpl. lra. }
  { intros area H. discriminate. }
  exists enough. intros fuel Hfuel. destruct (Hreturns fuel Hfuel) as [r Hr].
  exists r. split; [exact Hr|].
  apply (Hcap fuel r 1000 Hr eq_refl). lra.
Defined.

(** X29. Without dependencies, for points given in degrees, the shape
    optimizer returns a route, given enough fuel: every point snaps to a node
    of the seed graph and every leg between two of them is found. *)
Theorem defaultShapeRoute_returns (request : ShapeRouteRequest) (clock : Clock) :
  (forall p, In p (sr_points request) -> geographic p) ->
  exists enough, forall fuel, (enough <= fuel)%nat ->
    exists r, defaultShapeRoute fuel request clock = Js.Returns r.
Proof.
  intros _.
  unfold defaultShapeRoute. cbv zeta. rewrite createSeedRoadGraph_seedGraph.
  cbn [Js.bind].
  set (first := match sr_points request with
                | p :: _ => p
                | [] => {| lat := 0; lon := 0 |}
                end).
  set (size := seedSize None).
  destruct (seedGraph_uniform first size) as [enough Henough].
  exists enough. intros fuel Hfuel.
  apply (shape_returns (findPath fuel) (seedGraph first size) (onGridId size)
           (Henough fuel Hfuel) request clock).
  intros c. apply seedGraph_nearest. unfold size. vm_compute. lia.
Qed.

Lemma defaultShapeRoute_returns_witness :
  exists enough, forall fuel, (enough <= fuel)%nat ->
    exists r, defaultShapeRoute fuel cornerShape {| dateNow := 0; isoString := "" |}
              = Js.Returns r.
Proof.
  apply (defaultShapeRoute_returns cornerShape {| dateNow := 0; isoString := "" |}).
  intros p [<-|[<-|[]]]; unfold geographic; simpl; lra.
Defined.

(* ================================================================== *)
(** ** The search on a street-area graph *)





(* ================================================================== *)
(** ** The search when no path exists *)















(* ================================================================== *)
(** ** Two runs of the coverage optimizer *)

Section InState.

Context {W : Type}.
Variable shortestPath : W -> FindPathRequest -> Js.outcome PathResult * W.
Variable graph : RoadGraph.
Variable request : CoverageRouteRequest.
Hypothesis Hdet : deterministicAdapter shortestPath.

(** On a deterministic adapter the run in a state is the run over the
    function of the request the adapter computes. *)
Lemma selectionLoopIn_answers (w0 : W) (startId : string) (budget : nat) :
  forall (sel : Selection) (w : W),
    fst (selectionLoopIn shortestPath graph request budget startId sel w)
    = selectionLoop (fun q => fst (shortestPath w0 q)) graph request budget startId sel.
Proof.
  induction budget as [|budget IH]; intros sel w; [reflexivity|].
  cbn [selectionLoopIn selectionLoop]. unfold chosenEdge.
  destruct (filter (isCandidate request (remaining sel)) (uniqueEdges graph))
    as [|c cs]; [reflexivity|].
  destruct (find _ _) as [selectedEdge|]; [|reflexivity].
  rewrite (Hdet w0 w).
  destruct (shortestPath w _) as [[toStart|m|] w']; cbn [fst andThen Js.bind];
    [|reflexivity|reflexivity].
  unfold overCap.
  destruct (match cr_maxDistanceMeters request with Some _ => _ | None => _ end);
    [reflexivity|].
  apply IH.
Qed.

Lemma optimizeCoverageRouteIn_answers (w0 w : W) (clock : Clock) :
  fst (optimizeCoverageRouteIn shortestPath graph request clock w)
  = optimizeCoverageRoute (fun q => fst (shortestPath w0 q)) graph request clock.
Proof.
  unfold optimizeCoverageRouteIn, optimizeCoverageRoute.
  destruct (findNearestNodeId graph (cr_start request)) as [startId|m|];
    cbn [andThen Js.bind fst]; [|reflexivity|reflexivity].
  rewrite <- (selectionLoopIn_answers w0 startId _ (initialSelection request startId) w).
  destruct (selectionLoopIn _ _ _ _ _ _ _) as [[sel|m|] w1];
    cbn [andThen Js.bind fst]; [|reflexivity|reflexivity].
  rewrite (Hdet w0 w1).
  destruct (shortestPath w1 _) as [[returnPath|m|] w2];
    cbn [andThen Js.bind fst]; reflexivity.
Qed.

End InState.

Lemma optimizeCoverageRoute_clock
    (shortestPath : FindPathRequest -> Js.outcome PathResult)
    (graph : RoadGraph) (request : CoverageRouteRequest) (clock1 clock2 : Clock) :
  sameOutcome geometry
    (optimizeCoverageRoute shortestPath graph request clock1)
    (optimizeCoverageRoute shortestPath graph request clock2)
  /\ sameOutcome (fun r => (route_name r, route_mode r, route_coverage r))
       (optimizeCoverageRoute shortestPath graph request clock1)
       (optimizeCoverageRoute shortestPath graph request clock2)
  /\ stampedBy clock1 (optimizeCoverageRoute shortestPath graph request clock1).
Proof.
  unfold stampedBy, optimizeCoverageRoute.
  destruct (findNearestNodeId graph (cr_start request)) as [startId|m|]; simpl;
    [|repeat split; discriminate|repeat split; discriminate].
  destruct (selectionLoop shortestPath graph request _ startId _) as [sel|m|]; simpl;
    [|repeat split; discriminate|repeat split; discriminate].
  destruct (shortestPath _) as [returnPath|m|]; simpl;
    [|repeat split; discriminate|repeat split; discriminate].
  split; [reflexivity|]. split; [reflexivity|].
  intros r Hr. injection Hr as <-. split; reflexivity.
Qed.

Lemma adapterOf_deterministic {W : Type} (fuel : nat) (dependencies : Dependencies W) :
  (forall adapter, dep_shortestPath dependencies = Some adapter ->
     deterministicAdapter adapter) ->
  deterministicAdapter (adapterOf fuel dependencies).
Proof.
  intros H. unfold adapterOf.
  destruct (dep_shortestPath dependencies) as [adapter|]; [now apply H|].
  intros w w' q. reflexivity.
Qed.

(** With a supplied graph and no street catalog the working graph is the
    supplied one, and no state changes. *)
Lemma workingGraph_supplied {W : Type} (dependencies : Dependencies W)
    (request : CoverageRouteRequest) (graph : RoadGraph) (w : W) :
  dep_graph dependencies = Some graph ->
  dep_streetCatalog dependencies = None ->
  workingGraph dependencies request w = (Js.Returns graph, w).
Proof. intros Hg Hc. unfold workingGraph. rewrite Hg, Hc. reflexivity. Qed.

(** With a street catalog that returns more than two streets the supplied
    graph is set aside for the graph of those streets. *)
Lemma workingGraph_catalog {W : Type} (dependencies : Dependencies W)
    (request : CoverageRouteRequest) (graph : RoadGraph)
    (fetchStreetCandidates : W -> CoverageRouteRequest
                             -> Js.outcome (list StreetCandidate) * W)
    (streets : list StreetCandidate) (w w' : W) :
  dep_graph dependencies = Some graph ->
  dep_streetCatalog dependencies = Some fetchStreetCandidates ->
  fetchStreetCandidates w request = (Js.Returns streets, w') ->
  (2 < length streets)%nat ->
  workingGraph dependencies request w
  = (Js.Returns (createStreetAreaGraph (cr_start request) streets), w').
Proof.
  intros Hg Hc Hfetch Hlen. unfold workingGraph. rewrite Hg, Hc. cbn [andThen].
  rewrite Hfetch. replace (2 <? length streets)%nat with true; [reflexivity|].
  symmetry. now apply Nat.ltb_lt.
Qed.

(** Without dependencies the exported optimizer is the run on the seed graph
    over the in-memory search. *)
Lemma optimizeCoverageRouteWith_default {W : Type} (fuel : nat)
    (request : CoverageRouteRequest) (clock : Clock) (w : W) :
  fst (optimizeCoverageRouteWith fuel request
         {| dep_graph := None; dep_shortestPath := None; dep_streetCatalog := None |}
         clock w)
  = defaultCoverageRoute fuel request clock.
Proof.
  unfold optimizeCoverageRouteWith, workingGraph, defaultCoverageRoute.
  cbn [dep_graph dep_streetCatalog].
  destruct (createSeedRoadGraph _ _) as [graph|m|]; cbn [andThen Js.bind fst];
    [|reflexivity|reflexivity].
  assert (Hdet : deterministicAdapter
                   (adapterOf fuel {| dep_graph := None; dep_shortestPath := None;
                                      dep_streetCatalog := @None
                                        (W -> CoverageRouteRequest
                                         -> Js.outcome (list StreetCandidate) * W) |}))
    by (intros w1 w2 q; reflexivity).
  apply (optimizeCoverageRouteIn_answers _ graph request Hdet w w clock).
Qed.

(** C9. Two invocations of the coverage optimizer on the same request, with
    the same supplied graph, no street catalog and a deterministic search
    adapter (what a call returns does not depend on the state the adapter is
    in; the in-memory search when none is supplied), from any two states of
    the adapter and at any two readings of the clock, end alike, and when
    they return, the routes have the same segments and the same
    [distanceMeters]; the same holds of the name, the mode and the coverage
    block. The id and the creation time are those of the clock of each
    invocation. Each invocation is the run on the supplied graph over the
    function of the request that the adapter computes. *)
Theorem optimizeCoverageRoute_deterministic {W : Type} (fuel : nat)
    (request : CoverageRouteRequest) (dependencies : Dependencies W)
    (graph : RoadGraph) (clock1 clock2 : Clock) (w1 w2 : W) :
  dep_graph dependencies = Some graph ->
  dep_streetCatalog dependencies = None ->
  (forall adapter, dep_shortestPath dependencies = Some adapter ->
     deterministicAdapter adapter) ->
  let first := fst (optimizeCoverageRouteWith fuel request dependencies clock1 w1) in
  let second := fst (optimizeCoverageRouteWith fuel request dependencies clock2 w2) in
  let answer := fun q => fst (adapterOf fuel dependencies w1 q) in
  sameOutcome geometry first second
  /\ sameOutcome (fun r => (route_name r, route_mode r, route_coverage r)) first second
  /\ stampedBy clock1 first
  /\ stampedBy clock2 second
  /\ first = optimizeCoverageRoute answer graph request clock1
  /\ second = optimizeCoverageRoute answer graph request clock2.
Proof.
  intros Hgraph Hcatalog Hadapter first second answer.
  pose proof (adapterOf_deterministic fuel dependencies Hadapter) as Hdet.
  unfold first, second, optimizeCoverageRouteWith.
  rewrite !(workingGraph_supplied dependencies request graph) by assumption.
  cbn [andThen].
  rewrite (optimizeCoverageRouteIn_answers _ graph request Hdet w1 w1 clock1).
  rewrite (optimizeCoverageRouteIn_answers _ graph request Hdet w1 w2 clock2).
  fold answer.
  destruct (optimizeCoverageRoute_clock answer graph request clock1 clock2)
    as (Hg & Hn & Hs1).
  destruct (optimizeCoverageRoute_clock answer graph request clock2 clock1)
    as (_ & _ & Hs2).
  split; [exact Hg|]. split; [exact Hn|]. split; [exact Hs1|]. split; [exact Hs2|].
  split; reflexivity.
Qed.

Lemma optimizeCoverageRoute_deterministic_witness :
  let first :=
    optimizeCoverageRouteWith 2 (kilometreRequest corner) cornerDependencies
      morning 0%nat in
  let second :=
    optimizeCoverageRouteWith 2 (kilometreRequest corner) cornerDependencies
      evening (snd first) in
  exists r1 r2,
    fst first = Js.Returns r1
    /\ fst second = Js.Returns r2
    /\ route_segments r1 = route_segments r2
    /\ route_distanceMeters r1 = route_distanceMeters r2
    /\ route_segments r1 <> []
    /\ route_distanceMeters r1 = 200
    /\ route_id r1 = "route-1700000000000"
    /\ route_id r2 = "route-1700040000000".
Proof.
  intros first second.
  destruct (optimizeCoverageRoute_deterministic 2 (kilometreRequest corner)
              cornerDependencies (loopGraph corner nextCorner)
              morning evening 0%nat (snd first) eq_refl eq_refl)
    as (Hsame & _ & Hmorning & Hevening & Hfirst & _).
  { intros adapter H. injection H as <-. intros w w' q. reflexivity. }
  fold first in Hsame, Hmorning, Hfirst. fold second in Hsame, Hevening.
  destruct (loopGraph_out corner nextCorner 2 (le_n 2)) as (out & Hout & Hoe & Hot).
  destruct (loopGraph_back corner nextCorner 2 (le_n 2)) as (back & Hback & Hbe & Hbt).
  destruct (loopGraph_round_trip (findPath 2) corner nextCorner morning out back _ _
              ltac:(rewrite approximateDistanceMeters_corners; lra)
              Hout Hoe eq_refl ltac:(rewrite Hot; lra)
              Hback Hbe eq_refl ltac:(rewrite Hbt; lra))
    as (r1 & Hr1 & Hseg & Hdist).
  assert (H1 : fst first = Js.Returns r1) by (rewrite Hfirst; exact Hr1).
  rewrite H1 in Hsame. destruct (fst second) as [r2| |] eqn:H2; try contradiction.
  injection Hsame as Hsegs Hdists.
  exists r1, r2.
  split; [exact H1|]. split; [reflexivity|]. split; [exact Hsegs|].
  split; [exact Hdists|]. split; [rewrite Hseg; discriminate|].
  split; [exact Hdist|]. split.
  - exact (proj1 (Hmorning r1 H1)).
  - exact (proj1 (Hevening r2 eq_refl)).
Defined.
